(** * The CATMAID data source of neuroglancer

    A shallow embedding of [src/neuroglancer/datasource/catmaid/frontend.ts]:
    the metadata parsers, the memoized metadata fetchers, the pyramid
    descriptor builder [MultiscaleTileSource.getSources], the volume resolver
    [getVolume], the path completer and the skeleton sources.

    Conventions.
    - JavaScript strings are [string]s; a character is a code unit below 256.
    - Integers that went through [verifyInt] are [Z]; numbers that went
      through [verifyFloat] are [Q] (ideal arithmetic, no rounding).
    - A JavaScript [Map] is an association list in insertion order.
    - A promise that is awaited as soon as it is created is a state
      transformer returning an [outcome]; the state holds the memo tables and
      the log of transport requests. *)

From Stdlib Require Import List String Ascii Bool Arith ZArith QArith Qpower Lia.
From Stdlib Require Import Sorting.Sorted Sorting.Permutation DecimalString.
From Stdlib Require DecimalPos DecimalZ.
Import ListNotations.

Local Open Scope list_scope.
Local Open Scope string_scope.

(* ================================================================== *)
(** * Part I: definitions *)
(* ================================================================== *)

(** ** Strings *)

Module Str.

(** [String.prototype.split] with a one-character separator: the result is
    never empty, the empty string splits into one empty piece. *)
Fixpoint split (sep : ascii) (s : string) : list string :=
  match s with
  | EmptyString => [EmptyString]
  | String c s' =>
      if Ascii.eqb c sep then EmptyString :: split sep s'
      else match split sep s' with
           | seg :: rest => String c seg :: rest
           | [] => [String c EmptyString]
           end
  end.

(** [Array.prototype.join]. *)
Definition join (sep : string) (l : list string) : string := String.concat sep l.

(** [Array.prototype.pop]: the last element, and the array without it.  It is
    only ever called on a non-empty array here (the result of [split], or
    under a [pathSplit.length] guard). *)
Definition pop (l : list string) : string * list string :=
  (last l EmptyString, removelast l).

(** [s.length] as a JavaScript number. *)
Definition len (s : string) : Z := Z.of_nat (String.length s).

(** Every character of [s] satisfies [p]. *)
Fixpoint all (p : ascii -> bool) (s : string) : bool :=
  match s with
  | EmptyString => true
  | String c s' => p c && all p s'
  end.

(** [s] starts with [l]: what is left after [l]. *)
Fixpoint strip_prefix (l s : string) : option string :=
  match l with
  | EmptyString => Some s
  | String a l' =>
      match s with
      | String b s' => if Ascii.eqb a b then strip_prefix l' s' else None
      | EmptyString => None
      end
  end.

(** The first [n] characters of [s]. *)
Fixpoint take (n : nat) (s : string) : string :=
  match n, s with
  | S n', String c s' => String c (take n' s')
  | _, _ => EmptyString
  end.

(** [Number.prototype.toString] on an integer: decimal digits, with a
    leading minus sign for negative values. *)
Definition ofZ (z : Z) : string := NilZero.string_of_int (Z.to_int z).

End Str.

(** ** Regular expressions

    The fragment of ECMAScript regular expressions the two path patterns
    use, with the backtracking semantics of the language: alternatives are
    tried left to right, repetitions are greedy. *)

Module RegExp.

Inductive regex : Type :=
| Bol                          (* ^ *)
| Eol                          (* $ *)
| Lit (l : string)             (* literal text *)
| Class (p : ascii -> bool)    (* one character of a class *)
| Cat (r1 r2 : regex)
| Alt (r1 r2 : regex)
| Star (p : ascii -> bool)     (* greedy repetition of a class, zero or more *)
| Plus (p : ascii -> bool)     (* greedy repetition of a class, one or more *)
| Group (i : nat) (r : regex). (* the i-th capturing group *)

(** Captured groups, most recent binding first. *)
Definition captures := list (nat * string).

Fixpoint capture (i : nat) (c : captures) : option string :=
  match c with
  | [] => None
  | (j, w) :: c' => if Nat.eqb i j then Some w else capture i c'
  end.

(** A continuation receives the position reached, the rest of the input
    and the groups captured so far. *)
Definition cont := nat -> string -> captures -> option captures.

Fixpoint greedy (p : ascii -> bool) (pos : nat) (s : string) (c : captures)
    (k : cont) : option captures :=
  match s with
  | String a s' =>
      if p a then
        match greedy p (S pos) s' c k with
        | Some res => Some res
        | None => k pos s c
        end
      else k pos s c
  | EmptyString => k pos s c
  end.

Fixpoint run (r : regex) (pos : nat) (s : string) (c : captures) (k : cont)
    : option captures :=
  match r with
  | Bol => if Nat.eqb pos 0 then k pos s c else None
  | Eol => match s with EmptyString => k pos s c | _ => None end
  | Lit l =>
      match Str.strip_prefix l s with
      | Some s' => k (pos + String.length l)%nat s' c
      | None => None
      end
  | Class p =>
      match s with
      | String a s' => if p a then k (S pos) s' c else None
      | EmptyString => None
      end
  | Cat r1 r2 => run r1 pos s c (fun pos' s' c' => run r2 pos' s' c' k)
  | Alt r1 r2 =>
      match run r1 pos s c k with
      | Some res => Some res
      | None => run r2 pos s c k
      end
  | Star p => greedy p pos s c k
  | Plus p =>
      match s with
      | String a s' => if p a then greedy p (S pos) s' c k else None
      | EmptyString => None
      end
  | Group i r =>
      run r pos s c
        (fun pos' s' c' => k pos' s' ((i, Str.take (pos' - pos) s) :: c'))
  end.

Definition accept : cont := fun _ _ c => Some c.

(** A match is attempted at every start position, leftmost first; group 0
    is the whole match. *)
Fixpoint exec_from (r : regex) (pos : nat) (s : string) : option captures :=
  match run (Group 0 r) pos s [] accept with
  | Some res => Some res
  | None =>
      match s with
      | String _ s' => exec_from r (S pos) s'
      | EmptyString => None
      end
  end.

(** [String.prototype.match] with a pattern without the [g] flag: [None]
    is [null]. *)
Definition exec (r : regex) (s : string) : option captures := exec_from r 0 s.

(** [match[i]]; a group that did not take part reads as the empty string. *)
Definition group (i : nat) (c : captures) : string :=
  match capture i c with Some w => w | None => EmptyString end.

(** Character classes. *)
Definition slash : ascii := "/"%char.
Definition question : ascii := "?"%char.
Definition LF : ascii := ascii_of_nat 10.
Definition CR : ascii := ascii_of_nat 13.

(** [.] matches any character but a line terminator. *)
Definition dot (a : ascii) : bool := negb (Ascii.eqb a LF || Ascii.eqb a CR).
(** [[^?]] *)
Definition not_question (a : ascii) : bool := negb (Ascii.eqb a question).
(** [[^\/?]] *)
Definition not_slash_question (a : ascii) : bool :=
  negb (Ascii.eqb a slash || Ascii.eqb a question).

(** [(?:http|https):\/\/] *)
Definition scheme : regex := Cat (Alt (Lit "http") (Lit "https")) (Lit "://").

(** What a regular expression matches, with the groups it sets: [den r pos w
    rest c c'] says that [r], started at position [pos] on input [w ++ rest]
    with groups [c], can consume [w] and leave the groups [c']. *)
Fixpoint den (r : regex) (pos : nat) (w rest : string) (c c' : captures) : Prop :=
  match r with
  | Bol => pos = 0%nat /\ w = EmptyString /\ c' = c
  | Eol => rest = EmptyString /\ w = EmptyString /\ c' = c
  | Lit l => w = l /\ c' = c
  | Class p => exists a, w = String a EmptyString /\ p a = true /\ c' = c
  | Cat r1 r2 =>
      exists w1 w2 c1,
        w = w1 ++ w2 /\ den r1 pos w1 (w2 ++ rest) c c1 /\
        den r2 (pos + String.length w1)%nat w2 rest c1 c'
  | Alt r1 r2 => den r1 pos w rest c c' \/ den r2 pos w rest c c'
  | Star p => Str.all p w = true /\ c' = c
  | Plus p => w <> EmptyString /\ Str.all p w = true /\ c' = c
  | Group i r => exists c1, den r pos w rest c c1 /\ c' = (i, w) :: c1
  end.

(** What follows the url in the pattern of [getVolume]:
    [\/( .* )\/( .* )\/( .* )$]. *)
Definition trailing : regex :=
  Cat (Lit "/") (Cat (Group 2 (Star dot))
  (Cat (Lit "/") (Cat (Group 3 (Star dot))
  (Cat (Lit "/") (Cat (Group 4 (Star dot)) Eol))))).

(** The pattern of [getVolume]:
    [^((?:http|https):\/\/[^?]+)\/( .* )\/( .* )\/( .* )$]
    (the blanks inside the groups are not part of the pattern). *)
Definition urlPatternComplete : regex :=
  Cat Bol (Cat (Group 1 (Cat scheme (Plus not_question))) trailing).

(** The pattern of [volumeCompleter]:
    [^((?:http|https):\/\/[^\/?]+)\/( .* )$]. *)
Definition urlPattern : regex :=
  Cat Bol
   (Cat (Group 1 (Cat scheme (Plus not_slash_question)))
    (Cat (Lit "/") (Cat (Group 2 (Star dot)) Eol))).

End RegExp.

(** ** Exceptions *)

(** A JavaScript [Error] with its message. *)
Inductive error : Type := Error (message : string).

(** The result of code that may throw. *)
Inductive result (A : Type) : Type :=
| Ok (a : A)
| Throw (e : error).
Arguments Ok {A} a.
Arguments Throw {A} e.

Definition bind {A B} (r : result A) (f : A -> result B) : result B :=
  match r with
  | Ok a => f a
  | Throw e => Throw e
  end.

Notation "x <- r ;; k" := (bind r (fun x => k))
  (at level 61, r at next level, right associativity).

(** ** JavaScript [Map]: an association list in insertion order *)

Module Map.

Definition t (V : Type) : Type := list (string * V).

Definition empty {V} : t V := [].

Fixpoint get {V} (k : string) (m : t V) : option V :=
  match m with
  | [] => None
  | (k', v) :: m' => if String.eqb k k' then Some v else get k m'
  end.

(** [set] on a key that is present replaces the value and keeps the
    position of the entry; a new key goes to the end. *)
Fixpoint set {V} (k : string) (v : V) (m : t V) : t V :=
  match m with
  | [] => [(k, v)]
  | (k', v') :: m' =>
      if String.eqb k k' then (k, v) :: m' else (k', v') :: set k v m'
  end.

(** [values()], in insertion order. *)
Definition values {V} (m : t V) : list V := map snd m.

Definition keys {V} (m : t V) : list string := map fst m.

End Map.

(** ** JSON values and their verifiers *)

Unset Elimination Schemes.
Inductive json : Type :=
| JUndefined                       (* a property that is not there *)
| JNull
| JBool (b : bool)
| JNumber (q : Q)
| JString (s : string)
| JArray (l : list json)
| JObject (fields : list (string * json)).
Set Elimination Schemes.

(** [obj[name]] on a parsed object. *)
Fixpoint property (name : string) (fields : list (string * json)) : json :=
  match fields with
  | [] => JUndefined
  | (n, v) :: fields' => if String.eqb name n then v else property name fields'
  end.

(** Modelled from the spec: the verifiers of [neuroglancer/util/json]
    ([verifyObject], [verifyInt], [verifyFloat], [verifyString],
    [verifyObjectProperty], [parseArray]) are not part of the sources at
    hand; each fails with a descriptive error that names the offending field
    when the value has not the expected shape. *)
Definition verifyObject (j : json) : result json :=
  match j with
  | JObject _ => Ok j
  | _ => Throw (Error "Expected JSON object")
  end.

Definition verifyInt (j : json) : result Z :=
  match j with
  | JNumber q =>
      if Z.eqb (Zpos (Qden (Qred q))) 1 then Ok (Qnum (Qred q))
      else Throw (Error "Expected integer")
  | _ => Throw (Error "Expected integer")
  end.

Definition verifyFloat (j : json) : result Q :=
  match j with
  | JNumber q => Ok q
  | _ => Throw (Error "Expected floating-point number")
  end.

Definition verifyString (j : json) : result string :=
  match j with
  | JString s => Ok s
  | _ => Throw (Error "Expected string")
  end.

Definition verifyObjectProperty {A} (obj : json) (name : string)
    (verifier : json -> result A) : result A :=
  match obj with
  | JObject fields =>
      match verifier (property name fields) with
      | Ok a => Ok a
      | Throw (Error m) =>
          Throw (Error ("Error parsing " ++ name ++ " property: " ++ m))
      end
  | _ => Throw (Error "Expected JSON object")
  end.

Fixpoint parseElements {A} (parseElement : json -> result A) (l : list json)
    : result (list A) :=
  match l with
  | [] => Ok []
  | x :: l' =>
      match parseElement x with
      | Ok a => r <- parseElements parseElement l' ;; Ok (a :: r)
      | Throw (Error m) => Throw (Error ("Error parsing array element: " ++ m))
      end
  end.

Definition parseArray {A} (x : json) (parseElement : json -> result A)
    : result (list A) :=
  match x with
  | JArray l => parseElements parseElement l
  | _ => Throw (Error "Expected JSON array")
  end.

(** ** Data model *)

Module vec3.

Definition t (A : Type) : Type := (A * A * A)%type.

Definition fromValues {A} (x y z : A) : t A := (x, y, z).

Definition clone {A} (v : t A) : t A := v.

(** [v[i]] for an index 0, 1 or 2. *)
Definition get {A} (v : t A) (i : nat) : A :=
  match v, i with
  | (x, _, _), O => x
  | (_, y, _), S O => y
  | (_, _, z), _ => z
  end.

(** [v[i] = a]; a write outside the three components is dropped. *)
Definition set {A} (v : t A) (i : nat) (a : A) : t A :=
  match v, i with
  | (_, y, z), O => (a, y, z)
  | (x, _, z), S O => (x, a, z)
  | (x, y, _), S (S O) => (x, y, a)
  | _, _ => v
  end.

End vec3.

Module StackMirror.
Record t : Type := make {
  id : Z;
  title : string;
  fileExtension : string;
  tileHeight : Z;
  tileWidth : Z;
  tileSourceType : Z;
  url : string;
  position : Z
}.
End StackMirror.

Module StackInfo.
Record t : Type := make {
  dimension : vec3.t Z;
  translation : vec3.t Z;
  resolution : vec3.t Q;
  zoomLevels : Z;
  id : Z;
  mirrors : Map.t StackMirror.t
}.
End StackInfo.

Module StackIdentifier.
Record t : Type := make {
  id : Z;
  title : string;
  comment : string
}.
End StackIdentifier.

Module ProjectInfo.
Record t : Type := make {
  id : Z;
  title : string;
  stacks : Map.t StackIdentifier.t
}.
End ProjectInfo.

(** ** Metadata parsers *)

Definition parseStackMirror (obj : json) : result StackMirror.t :=
  id <- verifyObjectProperty obj "id" verifyInt ;;
  title <- verifyObjectProperty obj "title" verifyString ;;
  fileExtension <- verifyObjectProperty obj "file_extension" verifyString ;;
  tileHeight <- verifyObjectProperty obj "tile_height" verifyInt ;;
  tileWidth <- verifyObjectProperty obj "tile_width" verifyInt ;;
  tileSourceType <- verifyObjectProperty obj "tile_source_type" verifyInt ;;
  url <- verifyObjectProperty obj "image_base" verifyString ;;
  position <- verifyObjectProperty obj "position" verifyInt ;;
  Ok (StackMirror.make id title fileExtension tileHeight tileWidth
        tileSourceType url position).

Definition verifyObjectVec {A} (obj : json) (vecField : string)
    (typeVerifier : json -> result A) : result (vec3.t A) :=
  verifyObjectProperty obj vecField (fun vecObj =>
    x <- verifyObjectProperty vecObj "x" typeVerifier ;;
    y <- verifyObjectProperty vecObj "y" typeVerifier ;;
    z <- verifyObjectProperty vecObj "z" typeVerifier ;;
    Ok (vec3.fromValues x y z)).

Definition parseStackInfo (obj : json) : result StackInfo.t :=
  _ <- verifyObject obj ;;
  dimension <- verifyObjectVec obj "dimension" verifyInt ;;
  translation <- verifyObjectVec obj "translation" verifyInt ;;
  resolution <- verifyObjectVec obj "resolution" verifyFloat ;;
  zoomLevels <- verifyObjectProperty obj "num_zoom_levels" verifyInt ;;
  id <- verifyObjectProperty obj "sid" verifyInt ;;
  mirrorsArr <- verifyObjectProperty obj "mirrors"
                  (fun mirrorsArrObj => parseArray mirrorsArrObj parseStackMirror) ;;
  let mirrors :=
    fold_left (fun mirrors m => Map.set (Str.ofZ (StackMirror.id m)) m mirrors)
      mirrorsArr Map.empty in
  Ok (StackInfo.make dimension translation resolution zoomLevels id mirrors).

Definition parseStackDesc (stackDescObj : json) : result StackIdentifier.t :=
  id <- verifyObjectProperty stackDescObj "id" verifyInt ;;
  title <- verifyObjectProperty stackDescObj "title" verifyString ;;
  comment <- verifyObjectProperty stackDescObj "comment" verifyString ;;
  Ok (StackIdentifier.make id title comment).

(** The body of the [for (let projectObj of projectObjs)] loop. *)
Definition parseProject (projects : Map.t ProjectInfo.t) (projectObj : json)
    : result (Map.t ProjectInfo.t) :=
  id <- verifyObjectProperty projectObj "id" verifyInt ;;
  title <- verifyObjectProperty projectObj "title" verifyString ;;
  stacks <- verifyObjectProperty projectObj "stacks" (fun x =>
              stackInfoArr <- parseArray x parseStackDesc ;;
              Ok (fold_left
                    (fun stacks stackInfo =>
                       Map.set (Str.ofZ (StackIdentifier.id stackInfo)) stackInfo stacks)
                    stackInfoArr Map.empty)) ;;
  Ok (Map.set (Str.ofZ id) (ProjectInfo.make id title stacks) projects).

Fixpoint parseProjects (projects : Map.t ProjectInfo.t) (projectObjs : list json)
    : result (Map.t ProjectInfo.t) :=
  match projectObjs with
  | [] => Ok projects
  | projectObj :: rest =>
      projects' <- parseProject projects projectObj ;;
      parseProjects projects' rest
  end.

Definition parseProjectsList (obj : json) : result (Map.t ProjectInfo.t) :=
  projectObjs <- parseArray obj verifyObject ;;
  if (List.length projectObjs <? 1)%nat then
    Throw (Error "No projects found in projects list.")
  else parseProjects Map.empty projectObjs.

(** ** Numbers of the zoom-level computation

    [Math.log2] of a positive quotient is a real number; it is kept as the
    logarithm of that quotient.  At 0 the logarithm is [-Infinity], below 0
    it is [NaN]. *)

Inductive logval : Type :=
| Log2Of (q : Q)      (* the base-2 logarithm of q, for 0 < q *)
| LogNegInfinity
| LogNaN.

Definition Math_log2 (q : Q) : logval :=
  match Qnum q with
  | Zpos _ => Log2Of q
  | Z0 => LogNegInfinity
  | Zneg _ => LogNaN
  end.

(** [Math.max]: [NaN] when an argument is; the logarithm is increasing, so
    two logarithms compare as their arguments. *)
Definition Math_max (a b : logval) : logval :=
  match a, b with
  | LogNaN, _ => LogNaN
  | _, LogNaN => LogNaN
  | LogNegInfinity, _ => b
  | _, LogNegInfinity => a
  | Log2Of p, Log2Of q => if Qle_bool p q then b else a
  end.

(** The values the loop bound [numLevels] takes. *)
Inductive bound : Type :=
| Finite (z : Z)
| NegInfinity
| NaN.

(** The least integer [k] with [q <= 2^k], for [0 < q]. *)
Definition ceil_log2 (q : Q) : Z :=
  let n := Qnum q in
  let d := Zpos (Qden q) in
  if (d <=? n)%Z then Z.log2_up ((n + d - 1) / d) else (- Z.log2 (d / n))%Z.

Definition Math_ceil (a : logval) : bound :=
  match a with
  | Log2Of q => Finite (ceil_log2 q)
  | LogNegInfinity => NegInfinity
  | LogNaN => NaN
  end.

(** [Math.pow(2, level)] for an integer [level]. *)
Definition Math_pow2 (level : Z) : Q := Qpower 2 level.

(** [level <= numLevels]: false when the bound is not a number. *)
Definition level_le (level : Z) (numLevels : bound) : bool :=
  match numLevels with
  | Finite n => (level <=? n)%Z
  | NegInfinity => false
  | NaN => false
  end.

(** ** Pyramid descriptor builder *)

Inductive TileEncoding : Type := JPEG.
Inductive DataType : Type := UINT8.
Inductive VolumeType : Type := IMAGE.

Module MultiscaleTileSource.
Record t : Type := make {
  url : string;
  stackInfo : StackInfo.t;
  mirrorId : string;
  encoding : TileEncoding
}.

Definition dataType (this : t) : DataType := UINT8.
Definition numChannels (this : t) : Z := 1.
Definition volumeType (this : t) : VolumeType := IMAGE.

(** The constructor; [stackInfo] may be [undefined]. *)
Definition new (url : string) (stackInfo : option StackInfo.t) (mirrorId : string)
    : result t :=
  match stackInfo with
  | None => Throw (Error "Failed to read stack information for stack from CATMAID.")
  | Some stackInfo => Ok (make url stackInfo mirrorId JPEG)
  end.

(** Meshes are not supported. *)
Definition getMeshSource (this : t) : option unit := None.
End MultiscaleTileSource.

Section PyramidBuilder.

(** The options of the viewer are handed through untouched. *)
Variable VolumeSourceOptions : Type.

(** The argument of [VolumeChunkSpecification.make]. *)
Record VolumeChunkSpecification : Type := {
  voxelSize : vec3.t Q;
  chunkDataSize : vec3.t Z;
  numChannels : Z;
  dataType : DataType;
  lowerVoxelBound : vec3.t Z;
  upperVoxelBound : vec3.t Z;
  volumeSourceOptions : VolumeSourceOptions
}.

(** The parameters of a tile source ([base.ts]); [sourceBaseUrls] receives
    the one url of the mirror. *)
Record TileSourceParameters : Type := {
  sourceBaseUrls : string;
  encoding : TileEncoding;
  zoomLevel : Z;
  tileHeight : Z;
  tileWidth : Z;
  tileSourceType : Z
}.

(** The argument of [chunkManager.getChunkSource(CatmaidTileSource, ...)],
    which stands for the chunk source it returns. *)
Record CatmaidTileSource : Type := {
  spec : VolumeChunkSpecification;
  parameters : TileSourceParameters
}.

(** The body of the loop over the levels. *)
Definition levelSource (this : MultiscaleTileSource.t) (mirror : StackMirror.t)
    (volumeSourceOptions : VolumeSourceOptions) (level : Z) : CatmaidTileSource :=
  let stackInfo := MultiscaleTileSource.stackInfo this in
  let voxelSize := vec3.clone (StackInfo.resolution stackInfo) in
  let chunkDataSize := vec3.fromValues 1%Z 1%Z 1%Z in
  let voxelSize :=
    fold_left
      (fun voxelSize i =>
         vec3.set voxelSize i (vec3.get voxelSize i * Math_pow2 level)%Q)
      [0%nat; 1%nat] voxelSize in
  let chunkDataSize := vec3.set chunkDataSize 0 (StackMirror.tileWidth mirror) in
  let chunkDataSize := vec3.set chunkDataSize 1 (StackMirror.tileHeight mirror) in
  let lowerVoxelBound := vec3.fromValues 0%Z 0%Z 0%Z in
  let upperVoxelBound := vec3.clone (StackInfo.dimension stackInfo) in
  let spec :=
    {| voxelSize := voxelSize;
       chunkDataSize := chunkDataSize;
       numChannels := MultiscaleTileSource.numChannels this;
       dataType := MultiscaleTileSource.dataType this;
       lowerVoxelBound := lowerVoxelBound;
       upperVoxelBound := upperVoxelBound;
       volumeSourceOptions := volumeSourceOptions |} in
  {| spec := spec;
     parameters :=
       {| sourceBaseUrls := StackMirror.url mirror;
          encoding := MultiscaleTileSource.encoding this;
          zoomLevel := level;
          tileHeight := StackMirror.tileHeight mirror;
          tileWidth := StackMirror.tileWidth mirror;
          tileSourceType := StackMirror.tileSourceType mirror |} |}.

(** [for (let level = 0; level <= numLevels; level++) sources.push(body)];
    [None] when the fuel runs out before the loop ends. *)
Fixpoint forLevels {A} (fuel : nat) (level : Z) (numLevels : bound)
    (body : Z -> A) (sources : list A) : option (list A) :=
  match fuel with
  | O => None
  | S fuel' =>
      if level_le level numLevels
      then forLevels fuel' (level + 1)%Z numLevels body (sources ++ [body level])%list
      else Some sources
  end.

(** The top level: the stored number of zoom levels, or the one derived
    from the extent of the stack when that is negative. *)
Definition effectiveNumLevels (stackInfo : StackInfo.t) : bound :=
  let numLevels := StackInfo.zoomLevels stackInfo in
  if (numLevels <? 0)%Z then
    Math_ceil
      (Math_max
         (Math_log2 (inject_Z (vec3.get (StackInfo.dimension stackInfo) 0) / 1024)%Q)
         (Math_log2 (inject_Z (vec3.get (StackInfo.dimension stackInfo) 1) / 1024)%Q))
  else Finite numLevels.

Definition getSources (fuel : nat) (this : MultiscaleTileSource.t)
    (volumeSourceOptions : VolumeSourceOptions)
    : option (result (list (list CatmaidTileSource))) :=
  let stackInfo := MultiscaleTileSource.stackInfo this in
  match Map.get (MultiscaleTileSource.mirrorId this) (StackInfo.mirrors stackInfo) with
  | None =>
      Some (Throw (Error ("Unable to find mirror " ++
                          MultiscaleTileSource.mirrorId this ++ " for stack")))
  | Some mirror =>
      let numLevels := effectiveNumLevels stackInfo in
      option_map Ok
        (forLevels fuel 0%Z numLevels
           (fun level => [levelSource this mirror volumeSourceOptions level]) [])
  end.

End PyramidBuilder.

Arguments voxelSize {VolumeSourceOptions} _.
Arguments chunkDataSize {VolumeSourceOptions} _.
Arguments numChannels {VolumeSourceOptions} _.
Arguments dataType {VolumeSourceOptions} _.
Arguments lowerVoxelBound {VolumeSourceOptions} _.
Arguments upperVoxelBound {VolumeSourceOptions} _.
Arguments volumeSourceOptions {VolumeSourceOptions} _.
Arguments spec {VolumeSourceOptions} _.
Arguments parameters {VolumeSourceOptions} _.
Arguments levelSource {VolumeSourceOptions} this mirror volumeSourceOptions level.
Arguments getSources {VolumeSourceOptions} fuel this volumeSourceOptions.

(** The integers [0, 1, ..., b]: none when [b] is negative or not a
    number. *)
Definition levelsUpTo (b : bound) : list Z :=
  match b with
  | Finite n => map Z.of_nat (seq 0 (Z.to_nat (n + 1)))
  | NegInfinity => []
  | NaN => []
  end.

(** ** Promises and the environment *)

(** What a promise is rejected with. *)
Inductive reason : Type :=
| Null                         (* the value null *)
| Exception (e : error)        (* an Error that was thrown *)
| TransportFailure (code : Z). (* what the transport rejects with *)

Inductive outcome (A : Type) : Type :=
| Fulfilled (a : A)
| Rejected (r : reason).
Arguments Fulfilled {A} a.
Arguments Rejected {A} r.

(** [openShardedHttpRequest(hostnames, path)]. *)
Record Request : Type := {
  hosts : list string;
  path : string
}.

(** An entry of a completion list. *)
Record CompletionWithDescription : Type := {
  value : string;
  description : string
}.

Record CompletionResult : Type := {
  offset : Z;
  completions : list CompletionWithDescription
}.

(** What the module calls and does not define: the conversions of the
    language between strings and numbers, the transport, and the prefix
    matching utility of [neuroglancer/util/completion].  [respond n r] is
    the outcome of request [r] when [n] requests were issued before it. *)
Class Environment : Type := {
  number : Type;
  number_eq_dec : forall a b : number, {a = b} + {a <> b};
  Number : string -> number;
  numberToString : number -> string;
  JSON_stringify : string -> string;
  respond : nat -> Request -> outcome json;
  getPrefixMatchesWithDescriptions :
    forall T : Type, string -> list T -> (T -> string) -> (T -> string) ->
                     list CompletionWithDescription
}.

(** [Array.prototype.sort] with a comparison function: a stable sort. *)
Fixpoint Array_insert {A} (compare : A -> A -> Z) (a : A) (l : list A) : list A :=
  match l with
  | [] => [a]
  | b :: l' =>
      if (compare a b <=? 0)%Z then a :: l else b :: Array_insert compare a l'
  end.

Fixpoint Array_sort {A} (compare : A -> A -> Z) (l : list A) : list A :=
  match l with
  | [] => []
  | a :: l' => Array_insert compare a (Array_sort compare l')
  end.

(** Modelled from the spec: [applyCompletionOffset] of
    [neuroglancer/util/completion] is not part of the sources at hand; it
    adds the length of the stripped prefix to the offset of the result. *)
Definition applyCompletionOffset (baseOffset : Z) (r : CompletionResult)
    : CompletionResult :=
  {| offset := (offset r + baseOffset)%Z; completions := completions r |}.

Section Frontend.

Context `{Env : Environment}.

(** The keys of the memo table, one form per type tag. *)
Definition StackInfoKey : Type := (string * number * number)%type.
Definition VolumeKey : Type := (string * string)%type.

Definition hostnames_eqb (a b : list string) : bool :=
  if list_eq_dec string_dec a b then true else false.

Definition StackInfoKey_eqb (a b : StackInfoKey) : bool :=
  match a, b with
  | (h, p, s), (h', p', s') =>
      String.eqb h h' &&
      (if number_eq_dec p p' then true else false) &&
      (if number_eq_dec s s' then true else false)
  end.

Definition VolumeKey_eqb (a b : VolumeKey) : bool :=
  String.eqb (fst a) (fst b) && String.eqb (snd a) (snd b).

(** The state: the memo table of the chunk manager, split by type tag, and
    the transport requests issued so far. *)
Record World : Type := {
  projectsLists : list (list string * Map.t ProjectInfo.t);
  stackInfos : list (StackInfoKey * StackInfo.t);
  volumes : list (VolumeKey * MultiscaleTileSource.t);
  requests : list Request
}.

Definition setProjectsLists t (w : World) : World :=
  {| projectsLists := t; stackInfos := stackInfos w;
     volumes := volumes w; requests := requests w |}.
Definition setStackInfos t (w : World) : World :=
  {| projectsLists := projectsLists w; stackInfos := t;
     volumes := volumes w; requests := requests w |}.
Definition setVolumes t (w : World) : World :=
  {| projectsLists := projectsLists w; stackInfos := stackInfos w;
     volumes := t; requests := requests w |}.

(** A promise that is awaited at once. *)
Definition promise (A : Type) : Type := World -> outcome A * World.

Definition resolve {A} (a : A) : promise A := fun w => (Fulfilled a, w).
Definition reject {A} (r : reason) : promise A := fun w => (Rejected r, w).

(** A callback that returns a value or throws. *)
Definition settle {A} (r : result A) : promise A :=
  match r with
  | Ok a => resolve a
  | Throw e => reject (Exception e)
  end.

(** [p.then(f)] and [p.catch(h)]. *)
Definition then_ {A B} (p : promise A) (f : A -> promise B) : promise B :=
  fun w =>
    match p w with
    | (Fulfilled a, w') => f a w'
    | (Rejected r, w') => (Rejected r, w')
    end.

Definition catch_ {A} (p : promise A) (h : reason -> promise A) : promise A :=
  fun w =>
    match p w with
    | (Fulfilled a, w') => (Fulfilled a, w')
    | (Rejected r, w') => h r w'
    end.

(** [sendHttpRequest(openShardedHttpRequest(hosts, path), 'json')]. *)
Definition sendHttpRequest (r : Request) : promise json :=
  fun w =>
    (respond (List.length (requests w)) r,
     {| projectsLists := projectsLists w; stackInfos := stackInfos w;
        volumes := volumes w; requests := (requests w ++ [r])%list |}).

Fixpoint lookup {K V} (eqb : K -> K -> bool) (key : K) (t : list (K * V))
    : option V :=
  match t with
  | [] => None
  | (k, v) :: t' => if eqb key k then Some v else lookup eqb key t'
  end.

(** Modelled from the spec: [chunkManager.memoize.getUncounted] is not part
    of the sources at hand.  A call with a key that has a result returns
    that result and does not run the getter; otherwise the getter runs, a
    result is stored under the key, and a failure is not stored, so that the
    next call runs the getter again. *)
Definition getUncounted {K V} (eqb : K -> K -> bool)
    (table : World -> list (K * V)) (store : list (K * V) -> World -> World)
    (key : K) (getter : promise V) : promise V :=
  fun w =>
    match lookup eqb key (table w) with
    | Some v => (Fulfilled v, w)
    | None =>
        match getter w with
        | (Fulfilled v, w') => (Fulfilled v, store ((key, v) :: table w') w')
        | (Rejected r, w') => (Rejected r, w')
        end
    end.

Definition stackInfoRequest (hostname : string) (projectId stackId : number)
    : Request :=
  {| hosts := [hostname];
     path := "/" ++ numberToString projectId ++ "/stack/" ++
             numberToString stackId ++ "/info" |}.

Definition projectsListRequest (hostnames : list string) : Request :=
  {| hosts := hostnames; path := "/projects/" |}.

Definition getStackInfo (hostname : string) (projectId stackId : number)
    : promise StackInfo.t :=
  getUncounted StackInfoKey_eqb stackInfos setStackInfos
    (hostname, projectId, stackId)
    (then_ (sendHttpRequest (stackInfoRequest hostname projectId stackId))
       (fun obj => settle (parseStackInfo obj))).

Definition getProjectsList (hostnames : list string)
    : promise (Map.t ProjectInfo.t) :=
  getUncounted hostnames_eqb projectsLists setProjectsLists
    hostnames
    (then_ (sendHttpRequest (projectsListRequest hostnames))
       (fun obj => settle (parseProjectsList obj))).

(** [getVolume] throws on a path that does not match, and otherwise
    returns a promise. *)
Definition getVolume (path : string) : result (promise MultiscaleTileSource.t) :=
  match RegExp.exec RegExp.urlPatternComplete path with
  | None => Throw (Error ("Invalid catmaid tile path " ++ JSON_stringify path))
  | Some match_ =>
      let url := RegExp.group 1 match_ in
      let project := RegExp.group 2 match_ in
      let stack := RegExp.group 3 match_ in
      let mirror := RegExp.group 4 match_ in
      Ok (getUncounted VolumeKey_eqb volumes setVolumes (url, path)
            (then_ (getStackInfo url (Number project) (Number stack))
               (fun stackInfo =>
                  settle (MultiscaleTileSource.new url (Some stackInfo) mirror))))
  end.

(** The promise [getVolume] returns for a path with the given pieces. *)
Definition resolveVolume (url path project stack mirror : string)
    : promise MultiscaleTileSource.t :=
  getUncounted VolumeKey_eqb volumes setVolumes (url, path)
    (then_ (getStackInfo url (Number project) (Number stack))
       (fun stackInfo =>
          settle (MultiscaleTileSource.new url (Some stackInfo) mirror))).

(** ** Completion *)

Definition autoCompleteProject (projectIdPartial : string) (offset : Z)
    (projectsList : Map.t ProjectInfo.t) : CompletionResult :=
  let completions :=
    getPrefixMatchesWithDescriptions _
      projectIdPartial
      (Map.values projectsList)
      (fun x => Str.ofZ (ProjectInfo.id x) ++ "/")
      (fun x => ProjectInfo.title x) in
  {| offset := offset; completions := completions |}.

Definition autoCompleteStack (stackIdPartial projectId : string) (offset : Z)
    (projectsList : Map.t ProjectInfo.t) : result CompletionResult :=
  match Map.get projectId projectsList with
  | None =>
      Throw (Error ("Unable to find project " ++ projectId ++ " in projects list"))
  | Some projectInfo =>
      let completions :=
        getPrefixMatchesWithDescriptions _
          stackIdPartial
          (Map.values (ProjectInfo.stacks projectInfo))
          (fun x => Str.ofZ (StackIdentifier.id x) ++ "/")
          (fun x => StackIdentifier.title x ++ ": " ++ StackIdentifier.comment x) in
      Ok {| offset := offset; completions := completions |}
  end.

(** The candidates of [autoCompleteMirror]:
    [[...mirrorsList.values()].sort((a, b) => a.position - b.position)]. *)
Definition mirrorCandidates (mirrorsList : Map.t StackMirror.t) : list StackMirror.t :=
  Array_sort (fun a b => (StackMirror.position a - StackMirror.position b)%Z)
    (Map.values mirrorsList).

Definition autoCompleteMirror (mirrorIdPartial : string) (offset : Z)
    (mirrorsList : Map.t StackMirror.t) : CompletionResult :=
  let completions :=
    getPrefixMatchesWithDescriptions _
      mirrorIdPartial
      (mirrorCandidates mirrorsList)
      (fun x => Str.ofZ (StackMirror.id x))
      (fun x => StackMirror.title x) in
  {| offset := offset; completions := completions |}.

(** [[hostnames[0]].concat(pathSplit).join('/')]; a missing first host
    joins as the empty string. *)
Definition joinUrl (hostnames pathSplit : list string) : string :=
  Str.join "/" (nth 0 hostnames "" :: pathSplit).

Definition nonEmpty {A} (l : list A) : bool :=
  match l with [] => false | _ :: _ => true end.

Definition projectStackMirrorCompleter (hostnames : list string) (path : string)
    : promise CompletionResult :=
  let pathSplit := Str.split "/" path in
  let '(projectId, pathSplit) := Str.pop pathSplit in
  let url := joinUrl hostnames pathSplit in
  let offset := (Str.len path - Str.len projectId)%Z in
  catch_
    (then_ (getProjectsList [url])
       (fun projectsList => resolve (autoCompleteProject projectId offset projectsList)))
    (fun projectError =>
       if nonEmpty pathSplit then
         let stackId := projectId in
         let '(projectId, pathSplit) := Str.pop pathSplit in
         let url := joinUrl hostnames pathSplit in
         catch_
           (then_ (getProjectsList [url])
              (fun projectsList =>
                 settle (autoCompleteStack stackId projectId offset projectsList)))
           (fun stackError =>
              if nonEmpty pathSplit then
                let mirrorId := stackId in
                let stackId := projectId in
                let '(projectId, pathSplit) := Str.pop pathSplit in
                let url := joinUrl hostnames pathSplit in
                then_ (getStackInfo url (Number projectId) (Number stackId))
                  (fun stackInfo =>
                     resolve (autoCompleteMirror mirrorId offset
                                (StackInfo.mirrors stackInfo)))
              else reject stackError)
       else reject projectError).

(** The three interpretations of a path, in the words of the
    specification.  At depth 1 the last segment is a partial project id; at
    depth 2 it is a partial stack id and the segment before it a project id;
    at depth 3 it is a partial mirror id and the two segments before it are
    the project id and the stack id.  The segments that remain in front,
    joined to the first host name, are the host. *)
Definition interpretation (hostnames : list string) (path : string) (depth : nat)
    : promise CompletionResult :=
  let segments := Str.split "/" path in
  let n := List.length segments in
  let partial := nth (n - 1) segments "" in
  let offset := (Str.len path - Str.len partial)%Z in
  let host := joinUrl hostnames (firstn (n - depth) segments) in
  match depth with
  | 1%nat =>
      then_ (getProjectsList [host])
        (fun projectsList => resolve (autoCompleteProject partial offset projectsList))
  | 2%nat =>
      then_ (getProjectsList [host])
        (fun projectsList =>
           settle (autoCompleteStack partial (nth (n - 2) segments "") offset
                     projectsList))
  | _ =>
      then_ (getStackInfo host (Number (nth (n - 3) segments ""))
               (Number (nth (n - 2) segments "")))
        (fun stackInfo =>
           resolve (autoCompleteMirror partial offset (StackInfo.mirrors stackInfo)))
  end.

Definition volumeCompleter (url : string) : promise CompletionResult :=
  match RegExp.exec RegExp.urlPattern url with
  | None => reject Null
  | Some match_ =>
      let hostnamesBase := [RegExp.group 1 match_] in
      let path := RegExp.group 2 match_ in
      then_ (projectStackMirrorCompleter hostnamesBase path)
        (fun completions =>
           resolve (applyCompletionOffset (Str.len (RegExp.group 1 match_) + 1)
                      completions))
  end.

End Frontend.

(** ** Promises in flight

    The memo table with promises that are not awaited at once: a call
    returns the promise, and the transport answers later.  A promise is
    named by the number of the request that was issued for it. *)

Module Async.

Section Memo.

Context {K V : Type} (eqb : K -> K -> bool).

Record Promise : Type := {
  key : K;
  request : Request;
  state : option (outcome V)      (* [None]: still pending *)
}.

Record Memo : Type := {
  table : list (K * nat);         (* key, promise *)
  promises : list Promise         (* in the order of their requests *)
}.

Definition empty : Memo := {| table := []; promises := [] |}.

(** The transport requests issued so far. *)
Definition transportRequests (m : Memo) : list Request :=
  map request (promises m).

(** What a caller that holds promise [p] observes. *)
Definition observe (p : nat) (m : Memo) : option (outcome V) :=
  match nth_error (promises m) p with
  | Some pr => state pr
  | None => None
  end.

(** Modelled from the spec: [chunkManager.memoize.getUncounted] is not part
    of the sources at hand.  A call with a key that is in the table returns
    the promise found there, in flight or completed, and issues nothing;
    otherwise the getter issues its request and the new promise enters the
    table. *)
Definition getUncounted (k : K) (r : Request) (m : Memo) : nat * Memo :=
  match lookup eqb k (table m) with
  | Some p => (p, m)
  | None =>
      let p := List.length (promises m) in
      (p, {| table := (k, p) :: table m;
             promises := (promises m ++
                          [{| key := k; request := r; state := None |}])%list |})
  end.

(** [.then(parse)] on the answer of the transport. *)
Definition parsed (parse : json -> result V) (answer : outcome json) : outcome V :=
  match answer with
  | Fulfilled obj =>
      match parse obj with
      | Ok v => Fulfilled v
      | Throw e => Rejected (Exception e)
      end
  | Rejected r => Rejected r
  end.

Fixpoint update {A} (n : nat) (a : A) (l : list A) : list A :=
  match l, n with
  | [], _ => []
  | _ :: l', O => a :: l'
  | b :: l', S n' => b :: update n' a l'
  end.

(** Modelled from the spec: the transport answers the request of the
    pending promise [p], which settles with the parsed answer; a failed
    promise is evicted from the table at once, a fulfilled one stays. *)
Definition deliver (parse : json -> result V) (p : nat) (answer : outcome json)
    (m : Memo) : Memo :=
  match nth_error (promises m) p with
  | Some pr =>
      match state pr with
      | Some _ => m
      | None =>
          let o := parsed parse answer in
          {| table :=
               match o with
               | Fulfilled _ => table m
               | Rejected _ =>
                   filter (fun entry => negb (eqb (key pr) (fst entry))) (table m)
               end;
             promises :=
               update p {| key := key pr; request := request pr; state := Some o |}
                 (promises m) |}
      end
  | None => m
  end.

(** The table of results [t] is the table of promises of [m] after every
    promise has been awaited: a key has a result in [t] exactly when it has a
    promise in [m], fulfilled with that result. *)
Definition awaited (t : list (K * V)) (m : Memo) : Prop :=
  forall k,
    match lookup eqb k t with
    | Some v =>
        exists p, lookup eqb k (table m) = Some p /\
                  observe p m = Some (Fulfilled v)
    | None => lookup eqb k (table m) = None
    end.

End Memo.

Section Fetchers.

Context `{Env : Environment}.

Definition getStackInfo (hostname : string) (projectId stackId : number)
    : Memo -> nat * Memo :=
  getUncounted (V := StackInfo.t) StackInfoKey_eqb (hostname, projectId, stackId)
    (stackInfoRequest hostname projectId stackId).

Definition getProjectsList (hostnames : list string) : Memo -> nat * Memo :=
  getUncounted (V := Map.t ProjectInfo.t) hostnames_eqb hostnames
    (projectsListRequest hostnames).

End Fetchers.

End Async.

(** What the specification asks of a memoized fetch [call] with key [k]
    and request [r], started on a table without the key: a second call made
    while the first is in flight returns the same promise and requests
    nothing, so that one request is issued and both callers observe what that
    promise settles with; after a fulfilled answer a further call still
    returns that promise; after a failed one it issues the request again, for
    a new promise. *)
Definition coalesces {K V : Type} (eqb : K -> K -> bool) (k : K)
    (parse : json -> result V) (r : Request)
    (call : Async.Memo (K := K) (V := V) -> nat * Async.Memo (K := K) (V := V))
    : Prop :=
  forall m,
    lookup eqb k (Async.table m) = None ->
    let (p1, m1) := call m in
    let (p2, m2) := call m1 in
    p2 = p1 /\ m2 = m1 /\
    Async.transportRequests m2 = (Async.transportRequests m ++ [r])%list /\
    Async.observe p1 m2 = None /\
    forall answer,
      let m3 := Async.deliver eqb parse p1 answer m2 in
      Async.observe p1 m3 = Some (Async.parsed parse answer) /\
      Async.observe p2 m3 = Some (Async.parsed parse answer) /\
      Async.transportRequests m3 = Async.transportRequests m2 /\
      (forall v, Async.parsed parse answer = Fulfilled v -> call m3 = (p1, m3)) /\
      (forall e, Async.parsed parse answer = Rejected e ->
         exists p3 m4,
           call m3 = (p3, m4) /\ p3 <> p1 /\
           Async.transportRequests m4 = (Async.transportRequests m3 ++ [r])%list /\
           Async.observe p3 m4 = None).

(** ** Path grammars *)

(** The segment of a path that is being completed: its last one. *)
Definition completingSegment (path : string) : string :=
  last (Str.split "/" path) "".

(** A list of segments, seen from its end. *)
Inductive from_end : list string -> Prop :=
| one_segment a : from_end [a]
| two_segments b a : from_end [b; a]
| more_segments l c b a : from_end (l ++ [c; b; a])%list.

(** A character that may stand in a segment: not [?] and not a line
    terminator. *)
Definition plain (a : ascii) : bool := RegExp.not_question a && RegExp.dot a.

(** How often the character [c] occurs in [s]. *)
Fixpoint occurrences (c : ascii) (s : string) : nat :=
  match s with
  | EmptyString => 0
  | String a s' => ((if Ascii.eqb a c then 1 else 0) + occurrences c s')%nat
  end.

Definition not_slash (a : ascii) : bool := negb (Ascii.eqb a "/"%char).

(** [http://host/...] or [https://host/...]: a non-empty host without [/]
    and [?], followed by a slash. *)
Definition hasHostAndSlash (url : string) : Prop :=
  exists scheme host rest,
    (scheme = "http" \/ scheme = "https") /\ host <> "" /\
    Str.all RegExp.not_slash_question host = true /\
    url = scheme ++ "://" ++ host ++ "/" ++ rest.

(** [http(s)://prefix/project/stack/mirror] as [getVolume] reads it: the
    prefix is not empty and has no [?], but may contain [/]; the three
    trailing pieces have no line terminator. *)
Definition volumePath (path : string) : Prop :=
  exists scheme prefix project stack mirror,
    (scheme = "http" \/ scheme = "https") /\ prefix <> "" /\
    Str.all RegExp.not_question prefix = true /\
    Str.all RegExp.dot project = true /\ Str.all RegExp.dot stack = true /\
    Str.all RegExp.dot mirror = true /\
    path = scheme ++ "://" ++ prefix ++ "/" ++ project ++ "/" ++ stack ++ "/" ++ mirror.

(** [http(s)://host/project/stack/mirror] with exactly three segments after
    the host: neither the host nor a segment contains [/]. *)
Definition hostAndThreeSegments (path : string) : Prop :=
  exists scheme host project stack mirror,
    (scheme = "http" \/ scheme = "https") /\ host <> "" /\
    Str.all not_slash host = true /\
    Str.all not_slash project = true /\ Str.all not_slash stack = true /\
    Str.all not_slash mirror = true /\
    path = scheme ++ "://" ++ host ++ "/" ++ project ++ "/" ++ stack ++ "/" ++ mirror.

(** ** Well-formed project lists *)

(** The JSON number [j] is the integer [z]. *)
Definition integer (j : json) (z : Z) : Prop :=
  exists q, j = JNumber q /\ (q == inject_Z z)%Q.

(** An object with an integer [id] and strings [title] and [comment]. *)
Definition wellFormedStack (obj : json) (stack : StackIdentifier.t) : Prop :=
  exists fields,
    obj = JObject fields /\
    integer (property "id" fields) (StackIdentifier.id stack) /\
    property "title" fields = JString (StackIdentifier.title stack) /\
    property "comment" fields = JString (StackIdentifier.comment stack).

(** An object with an integer [id], a string [title] and an array [stacks]
    of well-formed stacks. *)
Definition wellFormedProject (obj : json) (id : Z) (title : string)
    (stacks : list StackIdentifier.t) : Prop :=
  exists fields stackObjs,
    obj = JObject fields /\
    integer (property "id" fields) id /\
    property "title" fields = JString title /\
    property "stacks" fields = JArray stackObjs /\
    Forall2 wellFormedStack stackObjs stacks.

(** Every entry of the map is filed under the decimal text of its id. *)
Definition keyedById {V} (id : V -> Z) (m : Map.t V) : Prop :=
  Forall (fun entry => fst entry = Str.ofZ (id (snd entry))) m.

(** The mirror [a] does not come after [b] in the order of positions. *)
Definition positionLe (a b : StackMirror.t) : Prop :=
  (StackMirror.position a <= StackMirror.position b)%Z.

(** ** Sample data *)

Module Sample.

Definition mirror : StackMirror.t :=
  StackMirror.make 5 "tiles" "jpg" 256 512 9 "http://tiles.example.org/" 0.

(** A stack with zoom levels [zoomLevels], extent [dimension], resolution
    (4, 4, 40) and the one mirror 5. *)
Definition stack (zoomLevels : Z) (dimension : vec3.t Z) : StackInfo.t :=
  StackInfo.make dimension (7, 8, 9)%Z (4, 4, 40)%Q zoomLevels 1
    [("5", mirror)].

Definition source (zoomLevels : Z) (dimension : vec3.t Z) (mirrorId : string)
    : MultiscaleTileSource.t :=
  MultiscaleTileSource.make "http://example.org" (stack zoomLevels dimension)
    mirrorId JPEG.

(** A server at [http://example.org] with the project 1, whose stacks
    are 2 and 30, and the stack 2 with the mirrors 7, 5 and 6 at the
    positions 3, 1 and 2. *)
Definition int (z : Z) : json := JNumber (inject_Z z).

Definition projectsJson : json :=
  JArray
    [JObject
       [("id", int 1); ("title", JString "Project one");
        ("stacks",
         JArray
           [JObject [("id", int 2); ("title", JString "Stack two");
                     ("comment", JString "raw")];
            JObject [("id", int 30); ("title", JString "Stack thirty");
                     ("comment", JString "aligned")]])]].

Definition mirrorJson (id position : Z) (title : string) : json :=
  JObject
    [("id", int id); ("title", JString title); ("file_extension", JString "jpg");
     ("tile_height", int 256); ("tile_width", int 512);
     ("tile_source_type", int 9); ("image_base", JString "http://tiles.example.org/");
     ("position", int position)].

Definition vecJson (x y z : Z) : json :=
  JObject [("x", int x); ("y", int y); ("z", int z)].

Definition stackJson : json :=
  JObject
    [("dimension", vecJson 4096 2048 10); ("translation", vecJson 7 8 9);
     ("resolution", vecJson 4 4 40); ("num_zoom_levels", int (-1));
     ("sid", int 2);
     ("mirrors",
      JArray [mirrorJson 7 3 "third"; mirrorJson 5 1 "first";
              mirrorJson 6 2 "second"])].

(** The mirrors of that stack, in the order of insertion. *)
Definition third : StackMirror.t :=
  StackMirror.make 7 "third" "jpg" 256 512 9 "http://tiles.example.org/" 3.
Definition first : StackMirror.t :=
  StackMirror.make 5 "first" "jpg" 256 512 9 "http://tiles.example.org/" 1.
Definition second : StackMirror.t :=
  StackMirror.make 6 "second" "jpg" 256 512 9 "http://tiles.example.org/" 2.
Definition mirrors : Map.t StackMirror.t :=
  [("7", third); ("5", first); ("6", second)].

Definition startsWith (prefix s : string) : bool :=
  match Str.strip_prefix prefix s with Some _ => true | None => false end.

Definition optionZ_eq_dec (a b : option Z) : {a = b} + {a <> b}.
Proof. decide equality. apply Z.eq_dec. Defined.

(** An environment: a number is an integer or [NaN]; the server answers
    the two metadata requests at [http://example.org] and fails with 404
    elsewhere; candidates are kept when their key starts with the partial
    text. *)
Definition environment : Environment :=
  {| number := option Z;
     number_eq_dec := optionZ_eq_dec;
     Number := fun s => option_map Z.of_int (NilZero.int_of_string s);
     numberToString := fun n => match n with Some z => Str.ofZ z | None => "NaN" end;
     JSON_stringify := fun s => s;
     respond := fun _ r =>
       if list_eq_dec string_dec (hosts r) ["http://example.org"] then
         if String.eqb (path r) "/projects/" then Fulfilled projectsJson
         else if String.eqb (path r) "/1/stack/2/info" then Fulfilled stackJson
         else Rejected (TransportFailure 404)
       else Rejected (TransportFailure 404);
     getPrefixMatchesWithDescriptions := fun T partial candidates key desc =>
       map (fun x => {| value := key x; description := desc x |})
         (filter (fun x => startsWith partial (key x)) candidates) |}.

(** Nothing memoized, no request issued. *)
Definition world0 : @World environment :=
  {| projectsLists := []; stackInfos := []; volumes := []; requests := [] |}.

End Sample.

(** ** Well-formed stack descriptions *)

(** An object with the eight properties of a mirror. *)
Definition wellFormedMirror (obj : json) (mirror : StackMirror.t) : Prop :=
  exists fields,
    obj = JObject fields /\
    integer (property "id" fields) (StackMirror.id mirror) /\
    property "title" fields = JString (StackMirror.title mirror) /\
    property "file_extension" fields = JString (StackMirror.fileExtension mirror) /\
    integer (property "tile_height" fields) (StackMirror.tileHeight mirror) /\
    integer (property "tile_width" fields) (StackMirror.tileWidth mirror) /\
    integer (property "tile_source_type" fields) (StackMirror.tileSourceType mirror) /\
    property "image_base" fields = JString (StackMirror.url mirror) /\
    integer (property "position" fields) (StackMirror.position mirror).

(** The names of the properties [parseStackMirror] reads. *)
Definition mirrorProperties : list string :=
  ["id"; "title"; "file_extension"; "tile_height"; "tile_width";
   "tile_source_type"; "image_base"; "position"].




(** The last element of [l] filed under the key [k]. *)
Definition lastFiled {V} (key : V -> string) (k : string) (l : list V) : option V :=
  find (fun v => String.eqb (key v) k) (rev l).

(** The project [obj] is well formed and parses to [project]. *)
Definition describesProject (obj : json) (project : ProjectInfo.t) : Prop :=
  exists stacks,
    wellFormedProject obj (ProjectInfo.id project) (ProjectInfo.title project) stacks /\
    ProjectInfo.stacks project =
      fold_left
        (fun m stack => Map.set (Str.ofZ (StackIdentifier.id stack)) stack m)
        stacks Map.empty.

(** No key occurs twice. *)
Definition uniqueKeys {V} (m : Map.t V) : Prop := NoDup (Map.keys m).

(** What holds of every projects list that was parsed: there is a project,
    projects and stacks are filed under the decimal text of their ids, and
    no key occurs twice. *)
Definition projectsInvariant (m : Map.t ProjectInfo.t) : Prop :=
  m <> [] /\ keyedById ProjectInfo.id m /\ uniqueKeys m /\
  Forall (fun project =>
            keyedById StackIdentifier.id (ProjectInfo.stacks project) /\
            uniqueKeys (ProjectInfo.stacks project))
    (Map.values m).

(** ** Skeleton sources *)

(** The parameters of a skeleton source ([base.ts]). *)
Module SkeletonSourceParameters.
Record t : Type := make {
  catmaidServerUrl : string;
  projectId : Z
}.
End SkeletonSourceParameters.

(** The argument of [chunkManager.getChunkSource(CatmaidSkeletonSource, ...)],
    which stands for the chunk source it returns. *)
Module CatmaidSkeletonSource.
Record t : Type := make {
  parameters : SkeletonSourceParameters.t
}.

Definition skeletonVertexCoordinatesInVoxels (this : t) : bool := false.
End CatmaidSkeletonSource.

(** [( .* )$], the second group of the patterns of the data source. *)
Definition restOfLine : RegExp.regex :=
  RegExp.Cat (RegExp.Group 2 (RegExp.Star RegExp.dot)) RegExp.Eol.

(** [(?:[^\/?]+\/)?]: the segment is taken when it can be, and left out
    otherwise. *)
Definition optionalSegment : RegExp.regex :=
  RegExp.Alt
    (RegExp.Cat (RegExp.Plus RegExp.not_slash_question) (RegExp.Lit "/"))
    (RegExp.Lit "").

(** The pattern of [getSkeletonSourceParameters]:
    [^((?:http|https):\/\/[^\/?]+)\/(?:[^\/?]+\/)?( .* )$]. *)
Definition skeletonSourcePattern : RegExp.regex :=
  RegExp.Cat RegExp.Bol
    (RegExp.Cat
       (RegExp.Group 1 (RegExp.Cat RegExp.scheme (RegExp.Plus RegExp.not_slash_question)))
       (RegExp.Cat (RegExp.Lit "/") (RegExp.Cat optionalSegment restOfLine))).

Section Skeleton.

Context `{Env : Environment}.

(** [getSkeletonSourceParameters] throws on a url that does not match, and
    otherwise returns a promise; what it writes to the console is left
    out. *)
Definition getSkeletonSourceParameters (url : string)
    : result (promise SkeletonSourceParameters.t) :=
  match RegExp.exec skeletonSourcePattern url with
  | None => Throw (Error ("Invalid Catmaid skeleton URL: " ++ url))
  | Some match_ =>
      match RegExp.capture 1 match_ with
      | None => Throw (Error ("Invalid Catmaid skeleton URL: " ++ url))
      | Some hostname =>
          match RegExp.capture 2 match_ with
          | None => Throw (Error "No Catmaid project specified.")
          | Some project =>
              Ok (then_ (getProjectsList [hostname])
                    (fun projectsList =>
                       settle
                         match Map.get project projectsList with
                         | None =>
                             Throw (Error ("Unable to load Catmaid project: " ++
                                           JSON_stringify project))
                         | Some projectInfo =>
                             Ok (SkeletonSourceParameters.make hostname
                                   (ProjectInfo.id projectInfo))
                         end))
          end
      end
  end.

(** The promise [getSkeletonSourceParameters] returns for a url with the
    given host and project. *)
Definition loadSkeletonParameters (hostname project : string)
    : promise SkeletonSourceParameters.t :=
  then_ (getProjectsList [hostname])
    (fun projectsList =>
       settle
         match Map.get project projectsList with
         | None =>
             Throw (Error ("Unable to load Catmaid project: " ++
                           JSON_stringify project))
         | Some projectInfo =>
             Ok (SkeletonSourceParameters.make hostname (ProjectInfo.id projectInfo))
         end).

Definition getSkeletonSource (url : string)
    : result (promise CatmaidSkeletonSource.t) :=
  parameters <- getSkeletonSourceParameters url ;;
  Ok (then_ parameters
        (fun parameters => resolve (CatmaidSkeletonSource.make parameters))).

End Skeleton.

(** [http(s)://host/project] or [http(s)://host/segment/project] as
    [getSkeletonSourceParameters] reads it: host and segment are not empty
    and have neither [/] nor [?]; the project has no line terminator. *)
Definition skeletonUrl (url : string) : Prop :=
  exists scheme host skipped project,
    (scheme = "http" \/ scheme = "https") /\ host <> "" /\
    Str.all RegExp.not_slash_question host = true /\
    (skipped = "" \/
     exists segment,
       segment <> "" /\ Str.all RegExp.not_slash_question segment = true /\
       skipped = segment ++ "/") /\
    Str.all RegExp.dot project = true /\
    url = scheme ++ "://" ++ host ++ "/" ++ skipped ++ project.

(** The end of a match: group 0 is the text that was matched. *)
Definition matched (s : string) : RegExp.cont :=
  fun pos' s' c' => RegExp.accept pos' s' ((0%nat, Str.take (pos' - 0) s) :: c').

(** ** Requests of the completer *)

(** [l] is [l'] with some elements left out. *)
Inductive subsequence {A : Type} : list A -> list A -> Prop :=
| subsequence_nil : subsequence [] []
| subsequence_skip a l l' : subsequence l l' -> subsequence l (a :: l')
| subsequence_take a l l' : subsequence l l' -> subsequence (a :: l) (a :: l').

Section CompleterRequests.

Context `{Env : Environment}.

(** The request behind an interpretation of a path: the projects list of
    the host at depth 1 and 2, the stack info at depth 3. *)
Definition interpretationRequest (hostnames : list string) (path : string)
    (depth : nat) : Request :=
  let segments := Str.split "/" path in
  let n := List.length segments in
  let host := joinUrl hostnames (firstn (n - depth) segments) in
  match depth with
  | 1%nat => projectsListRequest [host]
  | 2%nat => projectsListRequest [host]
  | _ => stackInfoRequest host (Number (nth (n - 3) segments ""))
           (Number (nth (n - 2) segments ""))
  end.

(** The requests of the interpretations that apply to a path, in the order
    in which the completer tries them. *)
Definition completerRequests (hostnames : list string) (path : string)
    : list Request :=
  map (interpretationRequest hostnames path)
    (seq 1 (Nat.min (List.length (Str.split "/" path)) 3)).

End CompleterRequests.

(* ================================================================== *)
(** * Part II: lemmas and theorems *)
(* ================================================================== *)

(** ** Strings *)

Lemma append_assoc (a b c : string) : (a ++ b) ++ c = a ++ (b ++ c).
Proof. induction a as [|x a IH]; simpl; [reflexivity | now rewrite IH]. Qed.

Lemma append_nil_r (a : string) : a ++ "" = a.
Proof. induction a as [|x a IH]; simpl; [reflexivity | now rewrite IH]. Qed.

Lemma length_append (a b : string) :
  String.length (a ++ b) = (String.length a + String.length b)%nat.
Proof. induction a as [|x a IH]; simpl; [reflexivity | now rewrite IH]. Qed.

Lemma take_append (w rest : string) : Str.take (String.length w) (w ++ rest) = w.
Proof.
  induction w as [|x w IH]; simpl.
  - now destruct rest.
  - now rewrite IH.
Qed.

Lemma strip_prefix_Some (l s s' : string) :
  Str.strip_prefix l s = Some s' <-> s = l ++ s'.
Proof.
  revert s; induction l as [|a l IH]; intros s; simpl.
  - split; congruence.
  - destruct s as [|b s]; [split; discriminate|].
    destruct (Ascii.eqb_spec a b) as [->|Hab].
    + rewrite IH. split; congruence.
    + split; [discriminate | intros [= ? ?]; congruence].
Qed.

Lemma all_append (p : ascii -> bool) (a b : string) :
  Str.all p (a ++ b) = Str.all p a && Str.all p b.
Proof.
  induction a as [|x a IH]; simpl; [reflexivity|].
  now rewrite IH, andb_assoc.
Qed.

Lemma split_nonempty (sep : ascii) (s : string) : Str.split sep s <> [].
Proof.
  destruct s as [|c s]; simpl; [discriminate|].
  destruct (Ascii.eqb c sep); [discriminate|].
  destruct (Str.split sep s); discriminate.
Qed.

Example split_examples :
  Str.split "/" "" = [""] /\ Str.split "/" "a/b" = ["a"; "b"] /\
  Str.split "/" "a/" = ["a"; ""] /\ Str.split "/" "/" = [""; ""].
Proof. repeat split; reflexivity. Qed.

Example ofZ_examples : Str.ofZ 0 = "0" /\ Str.ofZ 42 = "42" /\ Str.ofZ (-7) = "-7".
Proof. repeat split; reflexivity. Qed.

(** ** The backtracking matcher is sound and complete for [den] *)

Module RegExpFacts.
Import RegExp.

Lemma greedy_sound p : forall s pos c k res,
  greedy p pos s c k = Some res ->
  exists w rest,
    s = w ++ rest /\ Str.all p w = true /\
    k (pos + String.length w)%nat rest c = Some res.
Proof.
  induction s as [|a s IH]; intros pos c k res H; simpl in H.
  - exists "", "". rewrite Nat.add_0_r. auto.
  - destruct (p a) eqn:Hp.
    + destruct (greedy p (S pos) s c k) eqn:Hg.
      * injection H as <-. apply IH in Hg as (w & rest & -> & Hw & Hk).
        exists (String a w), rest. simpl. rewrite Hp, Hw.
        rewrite <- Nat.add_succ_comm. auto.
      * exists "", (String a s). rewrite Nat.add_0_r. auto.
    + exists "", (String a s). rewrite Nat.add_0_r. auto.
Qed.

Lemma greedy_fallback p s pos c k res :
  k pos s c = Some res -> exists res', greedy p pos s c k = Some res'.
Proof.
  intros H. destruct s as [|a s]; simpl; [eauto|].
  destruct (p a); [|eauto].
  destruct (greedy p (S pos) s c k); eauto.
Qed.

Lemma greedy_complete p : forall w pos rest c k res,
  Str.all p w = true ->
  k (pos + String.length w)%nat rest c = Some res ->
  exists res', greedy p pos (w ++ rest) c k = Some res'.
Proof.
  induction w as [|a w IH]; intros pos rest c k res Hw Hk; simpl in *.
  - rewrite Nat.add_0_r in Hk. eapply greedy_fallback; eauto.
  - apply andb_prop in Hw as [Hp Hw]. rewrite Hp.
    rewrite Nat.add_succ_r, <- Nat.add_succ_l in Hk.
    destruct (IH _ _ _ _ _ Hw Hk) as [res' ->]. eauto.
Qed.

Lemma run_sound : forall r pos s c k res,
  run r pos s c k = Some res ->
  exists w rest c',
    s = w ++ rest /\ den r pos w rest c c' /\
    k (pos + String.length w)%nat rest c' = Some res.
Proof.
  induction r as [| |l|p|r1 IH1 r2 IH2|r1 IH1 r2 IH2|p|p|i r IH];
    intros pos s c k res H; simpl in H.
  - destruct (Nat.eqb_spec pos 0) as [->|]; [|discriminate].
    exists "", s, c. simpl. auto.
  - destruct s; [|discriminate]. exists "", "", c. simpl.
    rewrite Nat.add_0_r. auto.
  - destruct (Str.strip_prefix l s) as [s'|] eqn:Hs; [|discriminate].
    apply strip_prefix_Some in Hs. exists l, s', c. simpl. auto.
  - destruct s as [|a s]; [discriminate|]. destruct (p a) eqn:Hp; [|discriminate].
    exists (String a ""), s, c. simpl. rewrite Nat.add_1_r. eauto 6.
  - apply IH1 in H as (w1 & rest1 & c1 & -> & H1 & H).
    apply IH2 in H as (w2 & rest & c2 & -> & H2 & H).
    exists (w1 ++ w2), rest, c2. rewrite append_assoc, length_append, Nat.add_assoc.
    simpl. eauto 10.
  - destruct (run r1 pos s c k) eqn:Hr1.
    + injection H as <-. apply IH1 in Hr1 as (w & rest & c' & ? & ? & ?).
      exists w, rest, c'. simpl. auto.
    + apply IH2 in H as (w & rest & c' & ? & ? & ?).
      exists w, rest, c'. simpl. auto.
  - apply greedy_sound in H as (w & rest & ? & ? & ?).
    exists w, rest, c. simpl. auto.
  - destruct s as [|a s]; [discriminate|]. destruct (p a) eqn:Hp; [|discriminate].
    apply greedy_sound in H as (w & rest & -> & Hw & Hk).
    exists (String a w), rest, c. simpl. rewrite Hp, Hw.
    rewrite <- Nat.add_succ_comm. repeat split; auto. discriminate.
  - apply IH in H as (w & rest & c1 & -> & Hd & Hk).
    replace (pos + String.length w - pos)%nat with (String.length w) in Hk by lia.
    rewrite take_append in Hk. exists w, rest, ((i, w) :: c1). simpl. eauto.
Qed.

Lemma run_complete : forall r pos w rest c c' k res,
  den r pos w rest c c' ->
  k (pos + String.length w)%nat rest c' = Some res ->
  exists res', run r pos (w ++ rest) c k = Some res'.
Proof.
  induction r as [| |l|p|r1 IH1 r2 IH2|r1 IH1 r2 IH2|p|p|i r IH];
    intros pos w rest c c' k res Hd Hk; simpl in Hd |- *.
  - destruct Hd as (-> & -> & ->). simpl in *. eauto.
  - destruct Hd as (-> & -> & ->). simpl in *. rewrite Nat.add_0_r in Hk. eauto.
  - destruct Hd as (-> & ->).
    assert (Hs : Str.strip_prefix l (l ++ rest) = Some rest)
      by now apply strip_prefix_Some.
    rewrite Hs. eauto.
  - destruct Hd as (a & -> & Hp & ->). simpl in *. rewrite Hp.
    rewrite Nat.add_1_r in Hk. eauto.
  - destruct Hd as (w1 & w2 & c1 & -> & H1 & H2).
    rewrite length_append, Nat.add_assoc in Hk.
    destruct (IH2 _ _ _ _ _ _ _ H2 Hk) as [res2 Hr2].
    rewrite append_assoc.
    eapply (IH1 pos w1 (w2 ++ rest) c c1
              (fun pos' s' c'0 => run r2 pos' s' c'0 k)); eauto.
  - destruct (run r1 pos (w ++ rest) c k) eqn:Hr1; [eauto|].
    destruct Hd as [Hd|Hd].
    + destruct (IH1 _ _ _ _ _ _ _ Hd Hk) as [? Hr]. congruence.
    + eapply IH2; eauto.
  - destruct Hd as (Hw & ->). eapply greedy_complete; eauto.
  - destruct Hd as (Hne & Hw & ->). destruct w as [|a w]; [congruence|].
    simpl in *. apply andb_prop in Hw as [Hp Hw]. rewrite Hp.
    rewrite Nat.add_succ_r, <- Nat.add_succ_l in Hk.
    eapply greedy_complete; eauto.
  - destruct Hd as (c1 & Hd & ->).
    eapply (IH pos w rest c c1); eauto. simpl.
    replace (pos + String.length w - pos)%nat with (String.length w) by lia.
    rewrite take_append. eauto.
Qed.

(** A pattern that starts with [^] can only match at position 0. *)
Lemma exec_from_anchored r : forall s pos,
  exec_from (Cat Bol r) (S pos) s = None.
Proof.
  induction s as [|a s IH]; intros pos; simpl; auto.
Qed.

Lemma exec_anchored r s :
  exec (Cat Bol r) s = run (Group 0 (Cat Bol r)) 0 s [] accept.
Proof.
  unfold exec. destruct s as [|a s]; simpl.
  - now destruct (run r 0 "" [] _).
  - destruct (run r 0 (String a s) [] _); auto. apply exec_from_anchored.
Qed.

Lemma exec_sound r s caps :
  exec (Cat Bol r) s = Some caps ->
  exists w rest c1,
    s = w ++ rest /\ den r 0 w rest [] c1 /\ caps = (0%nat, w) :: c1.
Proof.
  rewrite exec_anchored. intros H.
  apply run_sound in H as (w & rest & c' & -> & Hd & Hk).
  simpl in Hd. destruct Hd as (c1 & (w1 & w2 & c0 & -> & (_ & -> & ->) & Hd) & ->).
  simpl in *. injection Hk as <-. eauto 6.
Qed.

Lemma exec_complete r w rest c1 :
  den r 0 w rest [] c1 -> exists caps, exec (Cat Bol r) (w ++ rest) = Some caps.
Proof.
  intros Hd. rewrite exec_anchored.
  eapply (run_complete (Group 0 (Cat Bol r)) 0 w rest [] ((0%nat, w) :: c1) accept).
  - simpl. exists c1. split; [|reflexivity].
    exists "", w, []. simpl. auto.
  - reflexivity.
Qed.

End RegExpFacts.

(** ** The loop over the zoom levels *)

Section PyramidFacts.

Context {VolumeSourceOptions : Type}.

Lemma forLevels_finite {A} (body : Z -> A) (n : Z) : forall fuel level sources,
  (Z.to_nat (n + 1 - level) < fuel)%nat ->
  forLevels fuel level (Finite n) body sources =
  Some (sources ++
        map body (map (fun i => (level + Z.of_nat i)%Z)
                      (seq 0 (Z.to_nat (n + 1 - level)))))%list.
Proof.
  induction fuel as [|fuel IH]; intros level sources Hfuel; [lia|].
  simpl. destruct (Z.leb_spec level n) as [Hle|Hgt].
  - rewrite IH by lia.
    replace (Z.to_nat (n + 1 - level)) with (S (Z.to_nat (n + 1 - (level + 1)))) by lia.
    simpl. rewrite <- app_assoc. simpl. rewrite Z.add_0_r.
    rewrite <- seq_shift, !map_map. do 3 f_equal.
    apply map_ext. intros i. f_equal. lia.
  - replace (Z.to_nat (n + 1 - level)) with 0%nat by lia.
    simpl. now rewrite app_nil_r.
Qed.

Lemma forLevels_levelsUpTo {A} (body : Z -> A) (numLevels : bound) (fuel : nat) :
  (List.length (levelsUpTo numLevels) < fuel)%nat ->
  forLevels fuel 0 numLevels body [] = Some (map body (levelsUpTo numLevels)).
Proof.
  destruct numLevels as [n| |]; simpl; intros Hfuel.
  - rewrite length_map, length_seq in Hfuel.
    rewrite forLevels_finite by (rewrite Z.sub_0_r; exact Hfuel).
    rewrite Z.sub_0_r. reflexivity.
  - destruct fuel; [lia | reflexivity].
  - destruct fuel; [lia | reflexivity].
Qed.

(** With a known mirror and enough fuel, [getSources] returns one
    single-element group per level up to the effective top level. *)
Lemma getSources_levels (this : MultiscaleTileSource.t)
    (vso : VolumeSourceOptions) (mirror : StackMirror.t) (fuel : nat) :
  Map.get (MultiscaleTileSource.mirrorId this)
    (StackInfo.mirrors (MultiscaleTileSource.stackInfo this)) = Some mirror ->
  (List.length (levelsUpTo (effectiveNumLevels (MultiscaleTileSource.stackInfo this)))
   < fuel)%nat ->
  getSources fuel this vso =
  Some (Ok (map (fun level => [levelSource this mirror vso level])
              (levelsUpTo (effectiveNumLevels (MultiscaleTileSource.stackInfo this))))).
Proof.
  intros Hm Hfuel. unfold getSources. rewrite Hm.
  now rewrite forLevels_levelsUpTo.
Qed.

Lemma levelsUpTo_nth (n : Z) (L : nat) :
  (Z.of_nat L <= n)%Z -> nth_error (levelsUpTo (Finite n)) L = Some (Z.of_nat L).
Proof.
  intros HL. simpl. rewrite nth_error_map.
  rewrite (nth_error_nth' _ 0%nat) by (rewrite length_seq; lia).
  rewrite seq_nth by lia. reflexivity.
Qed.

End PyramidFacts.

(** ** Pyramid geometry *)

(** C2.  For a stack whose mirror id is in the mirrors map and whose
    [zoomLevels] is a non-negative integer [N], [getSources] returns (with
    fuel for the [N + 1] turns of the loop) exactly [N + 1] groups; the group
    of level [L] holds one source, of zoom level [L], whose voxel size is the
    resolution with x and y multiplied by [2^L] and z untouched, whose chunk
    size is (tileWidth, tileHeight, 1), whose lower bound is the zero vector
    and whose upper bound is the dimension of the stack: the translation of
    the stack appears nowhere. *)
Theorem getSources_pyramid {VolumeSourceOptions : Type}
    (this : MultiscaleTileSource.t) (vso : VolumeSourceOptions)
    (mirror : StackMirror.t) (N : nat) :
  let stackInfo := MultiscaleTileSource.stackInfo this in
  Map.get (MultiscaleTileSource.mirrorId this) (StackInfo.mirrors stackInfo)
    = Some mirror ->
  StackInfo.zoomLevels stackInfo = Z.of_nat N ->
  exists sources,
    (forall fuel, (N + 1 < fuel)%nat -> getSources fuel this vso = Some (Ok sources)) /\
    List.length sources = (N + 1)%nat /\
    forall L, (L <= N)%nat ->
      exists e,
        nth_error sources L = Some [e] /\
        zoomLevel (parameters e) = Z.of_nat L /\
        voxelSize (spec e) =
          ((vec3.get (StackInfo.resolution stackInfo) 0 * 2 ^ Z.of_nat L)%Q,
           (vec3.get (StackInfo.resolution stackInfo) 1 * 2 ^ Z.of_nat L)%Q,
           vec3.get (StackInfo.resolution stackInfo) 2) /\
        chunkDataSize (spec e) =
          (StackMirror.tileWidth mirror, StackMirror.tileHeight mirror, 1%Z) /\
        lowerVoxelBound (spec e) = (0, 0, 0)%Z /\
        upperVoxelBound (spec e) = StackInfo.dimension stackInfo.
Proof.
  intros stackInfo Hm Hz.
  assert (Hn : effectiveNumLevels stackInfo = Finite (Z.of_nat N)).
  { unfold effectiveNumLevels. rewrite Hz.
    destruct (Z.ltb_spec (Z.of_nat N) 0); [lia | reflexivity]. }
  assert (Hlen : List.length (levelsUpTo (Finite (Z.of_nat N))) = (N + 1)%nat).
  { simpl. rewrite length_map, length_seq. lia. }
  exists (map (fun level => [levelSource this mirror vso level])
            (levelsUpTo (Finite (Z.of_nat N)))).
  split; [|split].
  - intros fuel Hfuel. rewrite (getSources_levels this vso mirror fuel Hm).
    + fold stackInfo. now rewrite Hn.
    + fold stackInfo. rewrite Hn, Hlen. exact Hfuel.
  - now rewrite length_map.
  - intros L HL. exists (levelSource this mirror vso (Z.of_nat L)).
    split.
    + rewrite nth_error_map, levelsUpTo_nth by lia. reflexivity.
    + unfold levelSource. fold stackInfo. simpl.
      destruct (StackInfo.resolution stackInfo) as [[rx ry] rz].
      repeat split; reflexivity.
Qed.

(** The stack of the specification: two zoom levels and resolution
    (4, 4, 40) give voxel sizes (4, 4, 40), (8, 8, 40) and (16, 16, 40). *)
Lemma getSources_pyramid_witness :
  exists sources,
    getSources 4 (Sample.source 2 (100, 100, 10)%Z "5") tt = Some (Ok sources) /\
    map (map (fun e => voxelSize (spec e))) sources =
      [[(4, 4, 40)%Q]; [(8, 8, 40)%Q]; [(16, 16, 40)%Q]].
Proof.
  destruct (getSources_pyramid (Sample.source 2 (100, 100, 10)%Z "5") tt
              Sample.mirror 2 eq_refl eq_refl) as (sources & Hrun & _ & _).
  exists sources. split.
  - apply Hrun. repeat constructor.
  - specialize (Hrun 4%nat ltac:(repeat constructor)).
    vm_compute in Hrun. injection Hrun as <-. reflexivity.
Defined.

(** ** The automatic top level *)

Lemma pow2_Q (k : Z) : (0 <= k)%Z -> (2 ^ k == inject_Z (2 ^ k))%Q.
Proof. intros Hk. now rewrite (Zpower_Qpower 2 k Hk). Qed.

Lemma pow2_Q_neg (j : Z) : (0 <= j)%Z -> (2 ^ (- j) == / inject_Z (2 ^ j))%Q.
Proof. intros Hj. now rewrite Qpower_opp, pow2_Q. Qed.

Lemma ceil_log2_bounds (q : Q) :
  (0 < q)%Q -> (2 ^ (ceil_log2 q - 1) < q)%Q /\ (q <= 2 ^ ceil_log2 q)%Q.
Proof.
  destruct q as [n d]. unfold Qlt at 1. simpl. rewrite Z.mul_1_r. intros Hn.
  unfold ceil_log2. simpl Qnum. simpl Qden.
  set (D := Zpos d). assert (HD : (0 < D)%Z) by (subst D; lia).
  destruct (Z.leb_spec D n) as [Hle|Hlt].
  - set (m := ((n + D - 1) / D)%Z).
    assert (Hm : (D * m <= n + D - 1 < D * m + D)%Z).
    { pose proof (Z.div_mod (n + D - 1) D ltac:(lia)).
      pose proof (Z.mod_pos_bound (n + D - 1) D HD). subst m. lia. }
    assert (Hm1 : (1 <= m)%Z) by nia.
    pose proof (Z.log2_up_nonneg m) as Hk.
    pose proof (Z.log2_log2_up_spec m ltac:(lia)) as [_ Hup].
    split.
    + destruct (Z.eq_dec (Z.log2_up m) 0) as [H0|H0].
      * rewrite H0. simpl. unfold Qlt. simpl. fold D. lia.
      * assert (H1 : (1 < m)%Z).
        { destruct (Z.eq_dec m 1) as [->|]; [|lia]. now compute in H0. }
        pose proof (Z.log2_up_spec m H1) as [Hlo _].
        rewrite pow2_Q by lia. unfold Qlt. simpl. fold D.
        replace (Z.pred (Z.log2_up m)) with (Z.log2_up m - 1)%Z in Hlo by lia.
        nia.
    + rewrite pow2_Q by lia. unfold Qle. simpl. fold D. nia.
  - set (f := (D / n)%Z).
    assert (Hf : (n * f <= D < n * f + n)%Z).
    { pose proof (Z.div_mod D n ltac:(lia)).
      pose proof (Z.mod_pos_bound D n Hn). subst f. lia. }
    assert (Hf1 : (1 <= f)%Z) by nia.
    pose proof (Z.log2_nonneg f) as Hj.
    pose proof (Z.log2_spec f ltac:(lia)) as [Hlo Hhi].
    assert (Hp : (0 < 2 ^ Z.log2 f)%Z) by (apply Z.pow_pos_nonneg; lia).
    assert (Hp' : (0 < 2 ^ Z.succ (Z.log2 f))%Z) by (apply Z.pow_pos_nonneg; lia).
    split.
    + replace (- Z.log2 f - 1)%Z with (- Z.succ (Z.log2 f))%Z by lia.
      rewrite pow2_Q_neg by lia.
      apply Qlt_shift_inv_r.
      * unfold Qlt. simpl. lia.
      * unfold Qlt. simpl. fold D. nia.
    + rewrite pow2_Q_neg by lia.
      apply Qle_shift_inv_l.
      * unfold Qlt. simpl. lia.
      * unfold Qle. simpl. fold D. nia.
Qed.

Lemma ceil_log2_le_iff (q : Q) (j : Z) :
  (0 < q)%Q -> (q <= 2 ^ j)%Q <-> (ceil_log2 q <= j)%Z.
Proof.
  intros Hq. destruct (ceil_log2_bounds q Hq) as [Hlo Hhi]. split.
  - intros Hj. destruct (Z.le_gt_cases (ceil_log2 q) j) as [|Hlt]; [assumption|].
    exfalso. apply (Qlt_irrefl q).
    eapply Qle_lt_trans; [exact Hj|].
    eapply Qle_lt_trans; [|exact Hlo].
    apply Qpower_le_compat_l; [lia | discriminate].
  - intros Hj. eapply Qle_trans; [exact Hhi|].
    apply Qpower_le_compat_l; [lia | discriminate].
Qed.

Lemma Math_log2_positive (d : Z) :
  (0 < d)%Z ->
  Math_log2 (inject_Z d / 1024) = Log2Of (inject_Z d / 1024) /\
  (0 < inject_Z d / 1024)%Q.
Proof.
  intros Hd. destruct d as [|p|p]; try lia. split; reflexivity.
Qed.

(** For a stack of positive extent the automatic top level is the least
    integer [k] with [dx / 1024 <= 2^k] and [dy / 1024 <= 2^k], which is
    the ceiling of the larger of the two logarithms. *)
Lemma auto_top_level (dx dy : Z) :
  (0 < dx)%Z -> (0 < dy)%Z ->
  exists k,
    Math_ceil (Math_max (Math_log2 (inject_Z dx / 1024))
                        (Math_log2 (inject_Z dy / 1024))) = Finite k /\
    forall j : Z,
      (k <= j)%Z <->
      (inject_Z dx / 1024 <= 2 ^ j)%Q /\ (inject_Z dy / 1024 <= 2 ^ j)%Q.
Proof.
  intros Hx Hy.
  destruct (Math_log2_positive dx Hx) as [-> Hqx].
  destruct (Math_log2_positive dy Hy) as [-> Hqy].
  simpl Math_max.
  destruct (Qle_bool (inject_Z dx / 1024) (inject_Z dy / 1024)) eqn:Hb.
  - apply Qle_bool_iff in Hb. exists (ceil_log2 (inject_Z dy / 1024)).
    split; [reflexivity|]. intros j.
    rewrite <- (ceil_log2_le_iff _ j Hqy). split.
    + intros H. split; [eapply Qle_trans; eassumption | assumption].
    + intros [_ H]. exact H.
  - assert (Hlt : (inject_Z dy / 1024 < inject_Z dx / 1024)%Q).
    { apply Qnot_le_lt. intros H. apply Qle_bool_iff in H. congruence. }
    exists (ceil_log2 (inject_Z dx / 1024)).
    split; [reflexivity|]. intros j.
    rewrite <- (ceil_log2_le_iff _ j Hqx). split.
    + intros H. split; [assumption|].
      eapply Qle_trans; [apply Qlt_le_weak; exact Hlt | exact H].
    + intros [H _]. exact H.
Qed.

(** C3.  When the stored [zoomLevels] is negative, the top level of
    [getSources] is ceil(max(log2(dx / 1024), log2(dy / 1024))): for a stack
    of positive extent that is the least integer [k] with both
    [dx / 1024 <= 2^k] and [dy / 1024 <= 2^k].  With a known mirror (and
    fuel for the loop) the levels emitted are 0 up to that bound, one
    single-element group each.  For [zoomLevels = -1] and dimension
    (4096, 2048, 10) the top level is 2 and the levels are 0, 1, 2. *)
Theorem getSources_auto_levels {VolumeSourceOptions : Type}
    (this : MultiscaleTileSource.t) (vso : VolumeSourceOptions) :
  let stackInfo := MultiscaleTileSource.stackInfo this in
  let dx := vec3.get (StackInfo.dimension stackInfo) 0 in
  let dy := vec3.get (StackInfo.dimension stackInfo) 1 in
  let top :=
    Math_ceil (Math_max (Math_log2 (inject_Z dx / 1024))
                        (Math_log2 (inject_Z dy / 1024))) in
  (StackInfo.zoomLevels stackInfo < 0)%Z ->
  effectiveNumLevels stackInfo = top /\
  ((0 < dx)%Z -> (0 < dy)%Z ->
   exists k, top = Finite k /\
     forall j : Z,
       (k <= j)%Z <->
       (inject_Z dx / 1024 <= 2 ^ j)%Q /\ (inject_Z dy / 1024 <= 2 ^ j)%Q) /\
  (forall mirror fuel,
     Map.get (MultiscaleTileSource.mirrorId this) (StackInfo.mirrors stackInfo)
       = Some mirror ->
     (List.length (levelsUpTo top) < fuel)%nat ->
     exists sources,
       getSources fuel this vso = Some (Ok sources) /\
       map (map (fun e => zoomLevel (parameters e))) sources =
       map (fun level => [level]) (levelsUpTo top)) /\
  (StackInfo.dimension stackInfo = (4096, 2048, 10)%Z ->
   top = Finite 2 /\ levelsUpTo top = [0; 1; 2]%Z).
Proof.
  intros stackInfo dx dy top Hneg.
  assert (Heff : effectiveNumLevels stackInfo = top).
  { unfold effectiveNumLevels.
    destruct (Z.ltb_spec (StackInfo.zoomLevels stackInfo) 0); [reflexivity | lia]. }
  split; [exact Heff|]. split; [|split].
  - intros Hx Hy. exact (auto_top_level dx dy Hx Hy).
  - intros mirror fuel Hm Hfuel.
    exists (map (fun level => [levelSource this mirror vso level]) (levelsUpTo top)).
    split.
    + rewrite (getSources_levels this vso mirror fuel Hm); fold stackInfo;
        rewrite Heff; [reflexivity | exact Hfuel].
    + rewrite map_map. reflexivity.
  - intros Hdim. subst top dx dy. rewrite Hdim. split; reflexivity.
Qed.

(** The stack of the specification: [zoomLevels = -1] and dimension
    (4096, 2048, 10) give the top level 2 and the three levels 0, 1, 2. *)
Lemma getSources_auto_levels_witness :
  effectiveNumLevels (Sample.stack (-1) (4096, 2048, 10)%Z) = Finite 2 /\
  exists sources,
    getSources 4 (Sample.source (-1) (4096, 2048, 10)%Z "5") tt = Some (Ok sources) /\
    map (map (fun e => zoomLevel (parameters e))) sources = [[0]; [1]; [2]]%Z.
Proof.
  destruct (getSources_auto_levels (Sample.source (-1) (4096, 2048, 10)%Z "5") tt
              eq_refl) as (Heff & _ & Hrun & _).
  split; [exact Heff|].
  exact (Hrun Sample.mirror 4%nat eq_refl ltac:(repeat constructor)).
Defined.

(** ** The two path patterns *)

Module PathPatterns.
Import RegExp RegExpFacts.

Ltac break :=
  repeat match goal with
         | H : exists _, _ |- _ => destruct H
         | H : _ /\ _ |- _ => destruct H
         end.

(** A match of the pattern of [volumeCompleter] splits the url into
    scheme, host and path. *)
Lemma urlPattern_match (url : string) (m : captures) :
  exec urlPattern url = Some m ->
  exists scheme host rest,
    (scheme = "http" \/ scheme = "https") /\ host <> "" /\
    Str.all not_slash_question host = true /\ Str.all dot rest = true /\
    url = scheme ++ "://" ++ host ++ "/" ++ rest /\
    group 1 m = scheme ++ "://" ++ host /\ group 2 m = rest.
Proof.
  intros H. apply exec_sound in H as (w & rest0 & c1 & -> & Hd & ->).
  simpl in Hd. break. subst.
  match goal with
  | H : ?s = "http" /\ _ \/ ?s = "https" /\ _, Hh : ?h <> "", Hr : Str.all dot ?r = true
    |- _ => exists s, h, r
  end.
  rewrite !append_nil_r, !append_assoc. simpl.
  repeat split; try assumption; try reflexivity; tauto.
Qed.

(** A match of the pattern of [getVolume] splits the path into a url and
    three trailing pieces. *)
Lemma urlPatternComplete_match (path : string) (m : captures) :
  exec urlPatternComplete path = Some m ->
  exists scheme prefix project stack mirror,
    (scheme = "http" \/ scheme = "https") /\ prefix <> "" /\
    Str.all not_question prefix = true /\
    Str.all dot project = true /\ Str.all dot stack = true /\
    Str.all dot mirror = true /\
    path = scheme ++ "://" ++ prefix ++ "/" ++ project ++ "/" ++ stack ++ "/" ++ mirror /\
    group 1 m = scheme ++ "://" ++ prefix /\
    group 2 m = project /\ group 3 m = stack /\ group 4 m = mirror.
Proof.
  intros H. apply exec_sound in H as (w & rest0 & c1 & -> & Hd & ->).
  simpl in Hd. break. subst.
  match goal with
  | H : ?s = "http" /\ _ \/ ?s = "https" /\ _, Hh : ?h <> "" |- _ =>
      match goal with
      | |- context [ (s ++ "://") ++ h ++ "/" ++ ?p ++ "/" ++ ?t ++ "/" ++ ?r ++ "" ] =>
          exists s, h, p, t, r
      | |- context [ ((s ++ "://") ++ h) ++ "/" ++ ?p ++ "/" ++ ?t ++ "/" ++ ?r ++ "" ] =>
          exists s, h, p, t, r
      end
  end.
  rewrite !append_nil_r, !append_assoc. simpl.
  repeat split; try assumption; try reflexivity; tauto.
Qed.

(** Every path of that shape is matched. *)
Lemma urlPatternComplete_complete (scheme prefix project stack mirror : string) :
  (scheme = "http" \/ scheme = "https") -> prefix <> "" ->
  Str.all not_question prefix = true ->
  Str.all dot project = true -> Str.all dot stack = true ->
  Str.all dot mirror = true ->
  exists m,
    exec urlPatternComplete
      (scheme ++ "://" ++ prefix ++ "/" ++ project ++ "/" ++ stack ++ "/" ++ mirror)
    = Some m.
Proof.
  intros Hs Hp Hq H2 H3 H4.
  set (url := scheme ++ "://" ++ prefix).
  set (path := scheme ++ "://" ++ prefix ++ "/" ++ project ++ "/" ++ stack ++ "/" ++ mirror).
  rewrite <- (append_nil_r path).
  apply (exec_complete _ path ""
           [(4%nat, mirror); (3%nat, stack); (2%nat, project); (1%nat, url)]).
  simpl.
  exists url, ("/" ++ project ++ "/" ++ stack ++ "/" ++ mirror), [(1%nat, url)].
  split; [subst url path; now rewrite !append_assoc|]. split.
  { exists []. split; [|reflexivity].
    exists (scheme ++ "://"), prefix, []. split; [subst url; now rewrite append_assoc|].
    split; [|auto].
    exists scheme, "://", []. split; [reflexivity|]. split; [tauto | auto]. }
  exists "/", (project ++ "/" ++ stack ++ "/" ++ mirror), [(1%nat, url)].
  split; [reflexivity|]. split; [auto|].
  exists project, ("/" ++ stack ++ "/" ++ mirror), [(2%nat, project); (1%nat, url)].
  split; [reflexivity|]. split; [eauto|].
  exists "/", (stack ++ "/" ++ mirror), [(2%nat, project); (1%nat, url)].
  split; [reflexivity|]. split; [auto|].
  exists stack, ("/" ++ mirror), [(3%nat, stack); (2%nat, project); (1%nat, url)].
  split; [reflexivity|]. split; [eauto|].
  exists "/", mirror, [(3%nat, stack); (2%nat, project); (1%nat, url)].
  split; [reflexivity|]. split; [auto|].
  exists mirror, "", [(4%nat, mirror); (3%nat, stack); (2%nat, project); (1%nat, url)].
  split; [now rewrite append_nil_r|]. split; [eauto|]. auto.
Qed.

End PathPatterns.

(** ** The fallback cascade of the completer *)

Section CompleterFacts.

Context `{Env : Environment}.

Lemma pop_snoc (l : list string) (a : string) : Str.pop (l ++ [a])%list = (a, l).
Proof. unfold Str.pop. now rewrite last_last, removelast_last. Qed.

Lemma nonEmpty_snoc {A} (l : list A) (a : A) : nonEmpty (l ++ [a])%list = true.
Proof. now destruct l. Qed.

Lemma split_from_end (path : string) : from_end (Str.split "/" path).
Proof.
  pose proof (split_nonempty "/" path) as Hne.
  destruct (Str.split "/" path) as [|x l] using rev_ind; [congruence|].
  clear IHl Hne. destruct l as [|y l] using rev_ind; [apply one_segment|].
  clear IHl. destruct l as [|z l] using rev_ind; [apply two_segments|].
  clear IHl. rewrite <- !app_assoc. simpl. apply more_segments.
Qed.

Lemma firstn_prefix {A} (l r : list A) (n : nat) :
  n = List.length l -> firstn n (l ++ r)%list = l.
Proof.
  intros ->. rewrite firstn_app, firstn_all, Nat.sub_diag. simpl.
  apply app_nil_r.
Qed.

Lemma nth_suffix (l r : list string) (n i : nat) :
  n = (List.length l + i)%nat -> nth n (l ++ r)%list "" = nth i r "".
Proof. intros ->. rewrite app_nth2 by lia. f_equal. lia. Qed.

(** The nested handlers of the completer are the three interpretations,
    each tried when the one before it failed and the path is long enough. *)
Lemma completer_unfold (hostnames : list string) (path : string) (w : World) :
  let n := List.length (Str.split "/" path) in
  let attempt := interpretation hostnames path in
  projectStackMirrorCompleter hostnames path w =
  catch_ (attempt 1%nat)
    (fun projectError =>
       if (2 <=? n)%nat then
         catch_ (attempt 2%nat)
           (fun stackError =>
              if (3 <=? n)%nat then attempt 3%nat else reject stackError)
       else reject projectError) w.
Proof.
  intros n attempt. subst n attempt.
  unfold projectStackMirrorCompleter, interpretation.
  destruct (split_from_end path) as [a|b a|l c b a].
  - (* one segment *) reflexivity.
  - (* two segments *) reflexivity.
  - (* three segments or more *)
    assert (Hlen : List.length (l ++ [c; b; a])%list = (List.length l + 3)%nat)
      by (rewrite length_app; reflexivity).
    assert (Hp1 : Str.pop (l ++ [c; b; a])%list = (a, (l ++ [c; b])%list)).
    { rewrite <- (pop_snoc (l ++ [c; b]) a). now rewrite <- app_assoc. }
    assert (Hp2 : Str.pop (l ++ [c; b])%list = (b, (l ++ [c])%list)).
    { rewrite <- (pop_snoc (l ++ [c]) b). now rewrite <- app_assoc. }
    assert (Hf1 : firstn (List.length l + 3 - 1) (l ++ [c; b; a])%list
                  = (l ++ [c; b])%list).
    { rewrite <- (firstn_prefix (l ++ [c; b]) [a] (List.length l + 3 - 1)).
      - now rewrite <- app_assoc.
      - rewrite length_app. simpl. lia. }
    assert (Hf2 : firstn (List.length l + 3 - 2) (l ++ [c; b; a])%list
                  = (l ++ [c])%list).
    { rewrite <- (firstn_prefix (l ++ [c]) [b; a] (List.length l + 3 - 2)).
      - now rewrite <- app_assoc.
      - rewrite length_app. simpl. lia. }
    assert (Hf3 : firstn (List.length l + 3 - 3) (l ++ [c; b; a])%list = l)
      by (apply firstn_prefix; lia).
    rewrite Hlen, Hp1, Hf1, Hf2, Hf3.
    rewrite (nth_suffix l [c; b; a] _ 2), (nth_suffix l [c; b; a] _ 1),
      (nth_suffix l [c; b; a] _ 0) by lia.
    simpl nth.
    replace (nonEmpty (l ++ [c; b])%list) with true by now destruct l.
    rewrite Hp2, nonEmpty_snoc, pop_snoc.
    replace (2 <=? List.length l + 3)%nat with true
      by (symmetry; apply Nat.leb_le; lia).
    replace (3 <=? List.length l + 3)%nat with true
      by (symmetry; apply Nat.leb_le; lia).
    reflexivity.
Qed.

(** C1.  The completer tries the project interpretation of the path
    first and returns its completions when it succeeds, leaving the world as
    that one attempt left it.  When it fails, the path having two segments
    or more, the stack interpretation is tried, and when that fails too, the
    path having three segments or more, the mirror interpretation decides.
    The failure of the deepest interpretation that applies is the failure of
    the completer. *)
Theorem projectStackMirrorCompleter_cascade
    (hostnames : list string) (path : string) (w : World) :
  let n := List.length (Str.split "/" path) in
  let attempt := interpretation hostnames path in
  let completer := projectStackMirrorCompleter hostnames path in
  (forall c w1, attempt 1%nat w = (Fulfilled c, w1) -> completer w = (Fulfilled c, w1)) /\
  (forall e1 w1, attempt 1%nat w = (Rejected e1, w1) ->
     (n = 1%nat -> completer w = (Rejected e1, w1)) /\
     (forall c w2, (2 <= n)%nat -> attempt 2%nat w1 = (Fulfilled c, w2) ->
        completer w = (Fulfilled c, w2)) /\
     (forall e2 w2, (2 <= n)%nat -> attempt 2%nat w1 = (Rejected e2, w2) ->
        (n = 2%nat -> completer w = (Rejected e2, w2)) /\
        ((3 <= n)%nat -> completer w = attempt 3%nat w2))).
Proof.
  intros n attempt completer. subst completer.
  rewrite (completer_unfold hostnames path w). fold n attempt.
  split.
  - intros c w1 H. unfold catch_. now rewrite H.
  - intros e1 w1 H. split; [|split].
    + intros Hn. unfold catch_. rewrite H. cbv beta iota.
      destruct (Nat.leb_spec 2 n); [lia | reflexivity].
    + intros c w2 Hn H2. unfold catch_. rewrite H. cbv beta iota.
      destruct (Nat.leb_spec 2 n); [|lia]. now rewrite H2.
    + intros e2 w2 Hn H2.
      split; intros Hn'; unfold catch_; rewrite H; cbv beta iota;
        (destruct (Nat.leb_spec 2 n); [|lia]); rewrite H2; cbv beta iota;
        destruct (Nat.leb_spec 3 n); try lia; reflexivity.
Qed.

End CompleterFacts.

(** On the sample server the path [1/2/] is resolved at depth 3: the
    project lists at [http://example.org/1/2] and [http://example.org/1]
    fail, and the mirrors of stack 2 of project 1 are offered. *)
Lemma projectStackMirrorCompleter_cascade_witness :
  let attempt :=
    interpretation (Env := Sample.environment) ["http://example.org"] "1/2/" in
  let completer :=
    projectStackMirrorCompleter (Env := Sample.environment) ["http://example.org"] in
  let w1 := snd (attempt 1%nat Sample.world0) in
  let w2 := snd (attempt 2%nat w1) in
  attempt 1%nat Sample.world0 = (Rejected (TransportFailure 404), w1) /\
  attempt 2%nat w1 = (Rejected (TransportFailure 404), w2) /\
  completer "1/2/" Sample.world0 = attempt 3%nat w2 /\
  match fst (completer "1/2/" Sample.world0) with
  | Fulfilled c => map value (completions c) = ["5"; "6"; "7"]
  | Rejected _ => False
  end.
Proof.
  intros attempt completer w1 w2.
  assert (H1 : attempt 1%nat Sample.world0 = (Rejected (TransportFailure 404), w1))
    by reflexivity.
  assert (H2 : attempt 2%nat w1 = (Rejected (TransportFailure 404), w2))
    by reflexivity.
  destruct (projectStackMirrorCompleter_cascade (Env := Sample.environment)
              ["http://example.org"] "1/2/" Sample.world0) as [_ H].
  destruct (H _ _ H1) as (_ & _ & H').
  destruct (H' _ _ ltac:(repeat constructor) H2) as [_ H3].
  split; [exact H1|]. split; [exact H2|]. split.
  - apply H3. repeat constructor.
  - reflexivity.
Defined.

(** ** The outer completer *)

Section VolumeCompleterFacts.

Context `{Env : Environment}.

(** C10.  A url that is not [http://host/...] or [https://host/...],
    the host being non-empty and free of [/] and [?], makes
    [volumeCompleter] return a promise rejected with [null] (not with an
    Error), and the world is left as it was: nothing is requested, nothing
    is memoized. *)
Theorem volumeCompleter_rejects_null (url : string) (w : World) :
  ~ hasHostAndSlash url ->
  volumeCompleter url w = (Rejected Null, w).
Proof.
  intros Hno. unfold volumeCompleter.
  destruct (RegExp.exec RegExp.urlPattern url) as [m|] eqn:Hm; [|reflexivity].
  exfalso. apply Hno.
  apply PathPatterns.urlPattern_match in Hm
    as (scheme & host & rest & Hs & Hh & Hc & _ & Hurl & _).
  exists scheme, host, rest. auto.
Qed.

End VolumeCompleterFacts.

Lemma all_middle (p : ascii -> bool) (a b : string) (c : ascii) :
  Str.all p (a ++ String c b) = true -> p c = true.
Proof.
  rewrite all_append. simpl. intros H.
  apply andb_prop in H as [_ H]. now apply andb_prop in H as [H _].
Qed.

(** A host name without a slash after it: [http://example.org]. *)
Lemma volumeCompleter_rejects_null_witness :
  ~ hasHostAndSlash "http://example.org" /\
  volumeCompleter (Env := Sample.environment) "http://example.org" Sample.world0
  = (Rejected Null, Sample.world0).
Proof.
  assert (Hno : ~ hasHostAndSlash "http://example.org").
  { intros (scheme & host & rest & [-> | ->] & _ & _ & H); [|discriminate H].
    injection H as H.
    assert (Hs : not_slash "/"%char = true)
      by (apply (all_middle not_slash host rest); rewrite <- H; reflexivity).
    discriminate Hs. }
  split; [exact Hno|].
  apply (volumeCompleter_rejects_null (Env := Sample.environment)). exact Hno.
Defined.

(** ** Offsets *)

Lemma nth_last (l : list string) :
  nth (List.length l - 1) l "" = last l "".
Proof.
  induction l as [|a l IH]; [reflexivity|].
  destruct l as [|b l]; [reflexivity|].
  simpl in *. now rewrite Nat.sub_0_r in IH.
Qed.

Section OffsetFacts.

Context `{Env : Environment}.

Lemma interpretation_offset (hostnames : list string) (path : string)
    (depth : nat) (w w' : World) (c : CompletionResult) :
  interpretation hostnames path depth w = (Fulfilled c, w') ->
  offset c = (Str.len path - Str.len (completingSegment path))%Z.
Proof.
  unfold interpretation, completingSegment. rewrite nth_last.
  destruct depth as [|[|[|depth]]]; unfold then_.
  - destruct (getStackInfo _ _ _ w) as [[si|r] w1]; [|discriminate].
    intros [= <- _]. reflexivity.
  - destruct (getProjectsList _ w) as [[pl|r] w1]; [|discriminate].
    intros [= <- _]. reflexivity.
  - destruct (getProjectsList _ w) as [[pl|r] w1]; [|discriminate].
    unfold autoCompleteStack. destruct (Map.get _ pl); [|discriminate].
    intros [= <- _]. reflexivity.
  - destruct (getStackInfo _ _ _ w) as [[si|r] w1]; [|discriminate].
    intros [= <- _]. reflexivity.
Qed.

Lemma projectStackMirrorCompleter_offset (hostnames : list string)
    (path : string) (w w' : World) (c : CompletionResult) :
  projectStackMirrorCompleter hostnames path w = (Fulfilled c, w') ->
  offset c = (Str.len path - Str.len (completingSegment path))%Z.
Proof.
  rewrite (completer_unfold hostnames path w). cbv zeta.
  unfold catch_ at 1.
  destruct (interpretation hostnames path 1 w) as [[c1|e1] w1] eqn:E1.
  - intros [= <- <-]. exact (interpretation_offset _ _ _ _ _ _ E1).
  - destruct (2 <=? List.length (Str.split "/" path))%nat; [|discriminate].
    unfold catch_ at 1.
    destruct (interpretation hostnames path 2 w1) as [[c2|e2] w2] eqn:E2.
    + intros [= <- <-]. exact (interpretation_offset _ _ _ _ _ _ E2).
    + destruct (3 <=? List.length (Str.split "/" path))%nat; [|discriminate].
      intros H. exact (interpretation_offset _ _ _ _ _ _ H).
Qed.

(** C5.  Whatever the depth at which a path is resolved, the offset of
    the completions is the length of the path less the length of its last
    segment; this holds for each of the three interpretations and for the
    completer.  [volumeCompleter] strips [scheme://host] and the slash after
    it from the url, and adds the length of what it stripped: the length of
    [scheme://host] plus one. *)
Theorem completion_offset :
  (forall hostnames path depth w c w',
     interpretation hostnames path depth w = (Fulfilled c, w') ->
     offset c = (Str.len path - Str.len (completingSegment path))%Z) /\
  (forall hostnames path w c w',
     projectStackMirrorCompleter hostnames path w = (Fulfilled c, w') ->
     offset c = (Str.len path - Str.len (completingSegment path))%Z) /\
  (forall url w c w',
     volumeCompleter url w = (Fulfilled c, w') ->
     exists scheme host path,
       (scheme = "http" \/ scheme = "https") /\
       url = scheme ++ "://" ++ host ++ "/" ++ path /\
       offset c =
         ((Str.len path - Str.len (completingSegment path)) +
          (Str.len (scheme ++ "://" ++ host) + 1))%Z).
Proof.
  split; [|split].
  - intros. eapply interpretation_offset; eauto.
  - intros. eapply projectStackMirrorCompleter_offset; eauto.
  - intros url w c w' H. unfold volumeCompleter in H.
    destruct (RegExp.exec RegExp.urlPattern url) as [m|] eqn:Hm; [|discriminate].
    apply PathPatterns.urlPattern_match in Hm
      as (scheme & host & path & Hs & _ & _ & _ & Hurl & Hg1 & Hg2).
    rewrite Hg1, Hg2 in H. unfold then_ in H.
    destruct (projectStackMirrorCompleter _ path w) as [[c0|r] w0] eqn:Hc;
      [|discriminate].
    injection H as <- <-.
    apply projectStackMirrorCompleter_offset in Hc.
    exists scheme, host, path. split; [exact Hs|]. split; [exact Hurl|].
    simpl. now rewrite Hc.
Qed.

End OffsetFacts.

(** On the sample server: [http://example.org/1/3] is completed at depth
    2, and the completion replaces the text from offset 21 on, the segment
    [3]. *)
Lemma completion_offset_witness :
  exists c w',
    volumeCompleter (Env := Sample.environment) "http://example.org/1/3"
      Sample.world0 = (Fulfilled c, w') /\
    offset c = 21%Z /\
    exists scheme host path,
      "http://example.org/1/3" = scheme ++ "://" ++ host ++ "/" ++ path /\
      offset c =
        ((Str.len path - Str.len (completingSegment path)) +
         (Str.len (scheme ++ "://" ++ host) + 1))%Z.
Proof.
  destruct (volumeCompleter (Env := Sample.environment) "http://example.org/1/3"
              Sample.world0) as [[c|r] w'] eqn:H; [|vm_compute in H; discriminate].
  exists c, w'. split; [reflexivity|]. split.
  - vm_compute in H. injection H as <- _. reflexivity.
  - destruct (completion_offset (Env := Sample.environment)) as (_ & _ & Hv).
    destruct (Hv _ _ _ _ H) as (scheme & host & path & _ & Hurl & Hoff).
    exists scheme, host, path. split; assumption.
Defined.

(** ** Paths of volumes *)

Lemma occurrences_append (c : ascii) (a b : string) :
  occurrences c (a ++ b) = (occurrences c a + occurrences c b)%nat.
Proof. induction a as [|x a IH]; simpl; [reflexivity | rewrite IH; lia]. Qed.

Lemma occurrences_not_slash (s : string) :
  Str.all not_slash s = true -> occurrences "/" s = 0%nat.
Proof.
  induction s as [|x s IH]; simpl; [reflexivity|].
  intros H. apply andb_prop in H as [Hx Hs]. rewrite (IH Hs).
  unfold not_slash in Hx. now destruct (Ascii.eqb x "/").
Qed.

(** A string with an occurrence of [c] splits at the first one. *)
Lemma split_at_first (c : ascii) (s : string) :
  (1 <= occurrences c s)%nat ->
  exists a b, s = a ++ String c b /\
              occurrences c b = (occurrences c s - 1)%nat.
Proof.
  induction s as [|x s IH]; simpl; [lia|].
  destruct (Ascii.eqb_spec x c) as [->|Hx]; intros H.
  - exists "", s. split; [reflexivity | lia].
  - destruct (IH H) as (a & b & -> & Hb).
    exists (String x a), b. split; [reflexivity | exact Hb].
Qed.

Lemma all_weaken (p q : ascii -> bool) (s : string) :
  (forall a, p a = true -> q a = true) ->
  Str.all p s = true -> Str.all q s = true.
Proof.
  intros Hpq. induction s as [|x s IH]; simpl; [reflexivity|].
  intros H. apply andb_prop in H as [Hx Hs]. now rewrite (Hpq _ Hx), IH.
Qed.

Lemma scheme_no_slash (scheme : string) :
  scheme = "http" \/ scheme = "https" -> occurrences "/" scheme = 0%nat.
Proof. intros [-> | ->]; reflexivity. Qed.

(** ** Which split the pattern of [getVolume] takes *)

Module GreedyFacts.
Import RegExp RegExpFacts.

(** A greedy repetition stops at the longest run after which the rest of
    the pattern matches. *)
Lemma greedy_longest p : forall s pos c k res,
  greedy p pos s c k = Some res ->
  exists w rest,
    s = w ++ rest /\ Str.all p w = true /\
    k (pos + String.length w)%nat rest c = Some res /\
    forall w' rest',
      s = w' ++ rest' -> Str.all p w' = true ->
      (String.length w < String.length w')%nat ->
      k (pos + String.length w')%nat rest' c = None.
Proof.
  induction s as [|a s IH]; intros pos c k res H; simpl in H.
  - exists "", "". rewrite Nat.add_0_r. repeat split; auto.
    intros w' rest' Hs _ Hlen. destruct w'; [simpl in Hlen; lia | discriminate].
  - assert (Hshort :
      k pos (String a s) c = Some res ->
      (forall w1 rest', s = w1 ++ rest' -> Str.all p (String a w1) = true ->
                        k (pos + S (String.length w1))%nat rest' c = None) ->
      exists w rest,
        String a s = w ++ rest /\ Str.all p w = true /\
        k (pos + String.length w)%nat rest c = Some res /\
        forall w' rest',
          String a s = w' ++ rest' -> Str.all p w' = true ->
          (String.length w < String.length w')%nat ->
          k (pos + String.length w')%nat rest' c = None).
    { intros Hk Hnone. exists "", (String a s). rewrite Nat.add_0_r.
      repeat split; auto.
      intros w' rest' Hs Hw' Hlen. destruct w' as [|x w1]; [simpl in Hlen; lia|].
      injection Hs as <- ->. simpl. now apply Hnone. }
    destruct (p a) eqn:Hp.
    + destruct (greedy p (S pos) s c k) eqn:Hg.
      * injection H as <-.
        apply IH in Hg as (w0 & rest & -> & Hw0 & Hk & Hmax).
        exists (String a w0), rest. simpl. rewrite Hp, Hw0.
        rewrite <- Nat.add_succ_comm. repeat split; auto.
        intros w' rest' Hs Hw' Hlen. destruct w' as [|x w1]; [simpl in Hlen; lia|].
        injection Hs as <- Hs. simpl in Hw'. apply andb_prop in Hw' as [_ Hw1].
        simpl in Hlen |- *. rewrite <- Nat.add_succ_comm.
        apply (Hmax w1 rest' Hs Hw1). lia.
      * apply Hshort; [exact H|].
        intros w1 rest' -> Hw1. simpl in Hw1. apply andb_prop in Hw1 as [_ Hw1].
        destruct (k (pos + S (String.length w1))%nat rest' c) eqn:Hk; [|reflexivity].
        rewrite <- Nat.add_succ_comm in Hk.
        destruct (greedy_complete p w1 (S pos) rest' c k _ Hw1 Hk) as [res' Hres].
        congruence.
    + apply Hshort; [exact H|].
      intros w1 rest' _ Hw1. simpl in Hw1. rewrite Hp in Hw1. discriminate.
Qed.

Lemma append_same_length (w1 r1 : string) : forall w2 r2,
  w1 ++ r1 = w2 ++ r2 -> String.length w1 = String.length w2 ->
  w1 = w2 /\ r1 = r2.
Proof.
  induction w1 as [|x w1 IH]; intros [|y w2] r2 H Hlen; simpl in *;
    try discriminate; [auto|].
  injection H as <- H. destruct (IH w2 r2 H ltac:(lia)) as [-> ->]. auto.
Qed.

Lemma append_longer (w1 r1 : string) : forall w2 r2,
  w1 ++ r1 = w2 ++ r2 -> (String.length w1 < String.length w2)%nat ->
  exists x u, r1 = String x u ++ r2.
Proof.
  induction w1 as [|x w1 IH]; intros [|y w2] r2 H Hlen; simpl in *; try lia.
  - exists y, w2. exact H.
  - injection H as _ H. apply (IH w2 r2 H). lia.
Qed.

Lemma split_unique (x : string) : forall x' y y',
  x ++ String "/" y = x' ++ String "/" y' ->
  occurrences "/" x = 0%nat -> occurrences "/" x' = 0%nat ->
  x = x' /\ y = y'.
Proof.
  induction x as [|a x IH]; intros [|a' x'] y y' H Hx Hx'; simpl in *.
  - injection H as ->. auto.
  - injection H as <- _. simpl in Hx'. discriminate.
  - injection H as -> _. simpl in Hx. discriminate.
  - injection H as <- H.
    destruct (Ascii.eqb a "/"); [discriminate|].
    destruct (IH x' y y' H Hx Hx') as [-> ->]. auto.
Qed.

Lemma trailing_sound (pos : nat) (s : string) (c : captures) (k : cont)
    (res : captures) :
  run trailing pos s c k = Some res ->
  exists p st m,
    s = "/" ++ p ++ "/" ++ st ++ "/" ++ m /\
    k (pos + String.length s)%nat "" ((4%nat, m) :: (3%nat, st) :: (2%nat, p) :: c)
      = Some res.
Proof.
  intros H. apply run_sound in H as (w & rest & c' & -> & Hd & Hk).
  simpl in Hd. PathPatterns.break. subst.
  match goal with
  | |- context [ "/" ++ (?p ++ "/" ++ ?t ++ "/" ++ ?r ++ "") ++ "" ] =>
      exists p, t, r
  | |- context [ ("/" ++ ?p ++ "/" ++ ?t ++ "/" ++ ?r ++ "") ++ "" ] =>
      exists p, t, r
  end.
  rewrite !append_nil_r in *. simpl in *. rewrite ?append_nil_r in *.
  split; [reflexivity | exact Hk].
Qed.

Lemma trailing_complete (pos : nat) (p st m : string) (c : captures) (k : cont)
    (res : captures) :
  Str.all dot p = true -> Str.all dot st = true -> Str.all dot m = true ->
  k (pos + String.length ("/" ++ p ++ "/" ++ st ++ "/" ++ m))%nat ""
    ((4%nat, m) :: (3%nat, st) :: (2%nat, p) :: c) = Some res ->
  exists res', run trailing pos ("/" ++ p ++ "/" ++ st ++ "/" ++ m) c k = Some res'.
Proof.
  intros Hp Hst Hm Hk.
  rewrite <- (append_nil_r ("/" ++ p ++ "/" ++ st ++ "/" ++ m)).
  apply (run_complete trailing pos _ "" c
           ((4%nat, m) :: (3%nat, st) :: (2%nat, p) :: c) k res); [|exact Hk].
  simpl.
  exists "/", (p ++ "/" ++ st ++ "/" ++ m), c.
  split; [reflexivity|]. split; [auto|].
  exists p, ("/" ++ st ++ "/" ++ m), ((2%nat, p) :: c).
  split; [reflexivity|]. split; [eauto|].
  exists "/", (st ++ "/" ++ m), ((2%nat, p) :: c).
  split; [reflexivity|]. split; [auto|].
  exists st, ("/" ++ m), ((3%nat, st) :: (2%nat, p) :: c).
  split; [reflexivity|]. split; [eauto|].
  exists "/", m, ((3%nat, st) :: (2%nat, p) :: c).
  split; [reflexivity|]. split; [auto|].
  exists m, "", ((4%nat, m) :: (3%nat, st) :: (2%nat, p) :: c).
  split; [now rewrite append_nil_r|]. split; [eauto|]. auto.
Qed.

Lemma tail_three_slashes (a b c : string) :
  Str.all not_slash a = true -> Str.all not_slash b = true ->
  Str.all not_slash c = true ->
  occurrences "/" (a ++ String "/" (b ++ String "/" c)) = 2%nat.
Proof.
  intros Ha Hb Hc.
  repeat (rewrite occurrences_append; simpl).
  now rewrite (occurrences_not_slash _ Ha), (occurrences_not_slash _ Hb),
    (occurrences_not_slash _ Hc).
Qed.

Lemma three_pieces_unique (p st m a b c : string) :
  Str.all not_slash a = true -> Str.all not_slash b = true ->
  Str.all not_slash c = true ->
  "/" ++ p ++ "/" ++ st ++ "/" ++ m = "/" ++ a ++ "/" ++ b ++ "/" ++ c ->
  p = a /\ st = b /\ m = c.
Proof.
  intros Ha Hb Hc H. simpl in H. injection H as H.
  pose proof (f_equal (occurrences "/") H) as Hocc.
  rewrite (tail_three_slashes a b c Ha Hb Hc) in Hocc.
  repeat (rewrite occurrences_append in Hocc; simpl in Hocc).
  destruct (split_unique p a _ _ H ltac:(lia) (occurrences_not_slash _ Ha))
    as [-> H'].
  destruct (split_unique st b _ _ H' ltac:(lia) (occurrences_not_slash _ Hb))
    as [-> ->].
  auto.
Qed.

(** After the url, the greedy [[^?]+] leaves exactly the last three
    segments to the rest of the pattern. *)
Lemma greedy_then_trailing (f : nat -> captures -> captures) (k : cont)
    (prefix a b c : string) (pos : nat) (c0 : captures) :
  Str.all not_question prefix = true ->
  Str.all dot a = true -> Str.all dot b = true -> Str.all dot c = true ->
  Str.all not_slash a = true -> Str.all not_slash b = true ->
  Str.all not_slash c = true ->
  (forall pos' s' c', k pos' s' c' <> None) ->
  let tail := "/" ++ a ++ "/" ++ b ++ "/" ++ c in
  greedy not_question pos (prefix ++ tail) c0
    (fun pos' s' c' => run trailing pos' s' (f pos' c') k) =
  k (pos + String.length prefix + String.length tail)%nat ""
    ((4%nat, c) :: (3%nat, b) :: (2%nat, a) :: f (pos + String.length prefix)%nat c0).
Proof.
  intros Hq Hda Hdb Hdc Ha Hb Hc Hk tail.
  set (K := fun pos' s' c' => run trailing pos' s' (f pos' c') k).
  assert (Hhere : exists res, K (pos + String.length prefix)%nat tail c0 = Some res).
  { destruct (k (pos + String.length prefix + String.length tail)%nat ""
                ((4%nat, c) :: (3%nat, b) :: (2%nat, a)
                 :: f (pos + String.length prefix)%nat c0)) as [res|] eqn:E;
      [|now apply Hk in E].
    apply (trailing_complete _ a b c _ k res Hda Hdb Hdc E). }
  destruct Hhere as [res1 Hres1].
  destruct (greedy_complete not_question prefix pos tail c0 K res1 Hq Hres1)
    as [res Hres].
  rewrite Hres.
  apply greedy_longest in Hres as (w & rest & Hsplit & Hw & HK & Hmax).
  assert (Hlen : String.length w = String.length prefix).
  { destruct (Nat.lt_trichotomy (String.length w) (String.length prefix))
      as [Hlt|[Heq|Hgt]]; [|exact Heq|].
    - rewrite (Hmax prefix tail eq_refl Hq Hlt) in Hres1. discriminate.
    - exfalso. unfold K in HK.
      apply trailing_sound in HK as (p & st & m & Hrest & _).
      destruct (append_longer prefix tail w rest Hsplit Hgt) as (x & u & Htail).
      unfold tail in Htail. simpl in Htail. injection Htail as _ Htail.
      apply (f_equal (occurrences "/")) in Htail.
      rewrite (tail_three_slashes a b c Ha Hb Hc) in Htail.
      rewrite Hrest in Htail.
      repeat (rewrite occurrences_append in Htail; simpl in Htail). lia. }
  destruct (append_same_length prefix tail w rest Hsplit (eq_sym Hlen)) as [<- <-].
  unfold K in HK.
  apply trailing_sound in HK as (p & st & m & Htail & HK).
  destruct (three_pieces_unique p st m a b c Ha Hb Hc (eq_sym Htail))
    as (-> & -> & ->).
  symmetry. exact HK.
Qed.

(** A path whose last three segments are free of slashes is split at
    them: the url is all that comes before. *)
Lemma urlPatternComplete_groups (scheme0 prefix a b c : string) :
  (scheme0 = "http" \/ scheme0 = "https") -> prefix <> "" ->
  Str.all not_question prefix = true ->
  Str.all dot a = true -> Str.all dot b = true -> Str.all dot c = true ->
  Str.all not_slash a = true -> Str.all not_slash b = true ->
  Str.all not_slash c = true ->
  exists m,
    exec urlPatternComplete
      (scheme0 ++ "://" ++ prefix ++ "/" ++ a ++ "/" ++ b ++ "/" ++ c) = Some m /\
    group 1 m = scheme0 ++ "://" ++ prefix /\
    group 2 m = a /\ group 3 m = b /\ group 4 m = c.
Proof.
  intros Hs Hne Hq Hda Hdb Hdc Ha Hb Hc.
  unfold urlPatternComplete. rewrite exec_anchored.
  destruct prefix as [|x prefix]; [congruence|].
  simpl in Hq. apply andb_prop in Hq as [Hx Hq].
  destruct Hs as [-> | ->]; cbn -[trailing]; rewrite Hx;
    erewrite (greedy_then_trailing _ _ prefix a b c _ [] Hq Hda Hdb Hdc Ha Hb Hc);
    try (intros; discriminate);
    (eexists; split; [reflexivity|]; unfold group; simpl;
     rewrite take_append; auto).
Qed.

End GreedyFacts.

Section VolumeFacts.

Context `{Env : Environment}.

Lemma getVolume_throws_not_volumePath (path : string) (e : error) :
  getVolume path = Throw e ->
  e = Error ("Invalid catmaid tile path " ++ JSON_stringify path) /\
  ~ volumePath path.
Proof.
  unfold getVolume.
  destruct (RegExp.exec RegExp.urlPatternComplete path) as [m|] eqn:Hm;
    [discriminate|].
  intros [= <-]. split; [reflexivity|].
  intros (scheme & prefix & project & stack & mirror & Hs & Hp & Hq & H2 & H3 & H4 & ->).
  destruct (PathPatterns.urlPatternComplete_complete
              scheme prefix project stack mirror Hs Hp Hq H2 H3 H4) as [m Hm'].
  congruence.
Qed.

Lemma getVolume_returns_volumePath (path : string) (p : promise MultiscaleTileSource.t) :
  getVolume path = Ok p -> volumePath path.
Proof.
  unfold getVolume.
  destruct (RegExp.exec RegExp.urlPatternComplete path) as [m|] eqn:Hm;
    [|discriminate].
  intros _. apply PathPatterns.urlPatternComplete_match in Hm
    as (scheme & prefix & project & stack & mirror & Hs & Hp & Hq & H2 & H3 & H4 & Hpath & _).
  exists scheme, prefix, project, stack, mirror. auto 10.
Qed.

(** For a path [scheme://host/tail] without [?] and line terminators, the
    shape [volumePath] asks for is: two slashes or more in the tail, which is
    three segments or more after the host. *)
Lemma volumePath_segments (scheme host tail : string) :
  (scheme = "http" \/ scheme = "https") -> host <> "" ->
  Str.all RegExp.not_slash_question host = true ->
  Str.all plain tail = true ->
  volumePath (scheme ++ "://" ++ host ++ "/" ++ tail) <->
  (2 <= occurrences "/" tail)%nat.
Proof.
  intros Hs Hh Hhost Htail. split.
  - intros (scheme' & prefix & project & stack & mirror & Hs' & _ & _ & _ & _ & _ & Heq).
    apply (f_equal (occurrences "/")) in Heq.
    repeat (rewrite occurrences_append in Heq; simpl in Heq).
    rewrite (scheme_no_slash _ Hs), (scheme_no_slash _ Hs') in Heq.
    assert (H0 : occurrences "/" host = 0%nat).
    { apply occurrences_not_slash. revert Hhost. apply all_weaken.
      intros a. unfold RegExp.not_slash_question, not_slash, RegExp.slash.
      destruct (Ascii.eqb a "/"); [discriminate | reflexivity]. }
    lia.
  - intros H2.
    destruct (split_at_first "/" tail ltac:(lia)) as (project & tail1 & -> & H1).
    destruct (split_at_first "/" tail1 ltac:(lia)) as (stack & mirror & -> & _).
    rewrite !all_append in Htail. simpl in Htail. rewrite !all_append in Htail.
    simpl in Htail.
    repeat match goal with
           | H : _ && _ = true |- _ => apply andb_prop in H as [? ?]
           end.
    assert (Hdot : forall s, Str.all plain s = true -> Str.all RegExp.dot s = true).
    { intros s0. apply all_weaken. unfold plain. intros a Ha.
      now apply andb_prop in Ha. }
    exists scheme, host, project, stack, mirror.
    repeat split; auto.
    revert Hhost. apply all_weaken. intros a.
    unfold RegExp.not_slash_question, RegExp.not_question.
    destruct (Ascii.eqb a RegExp.slash), (Ascii.eqb a RegExp.question);
      simpl; congruence.
Qed.

(** C6, as amended.  [getVolume] throws, and then the invalid-path
    error, exactly for the paths that are not of the shape
    [http(s)://prefix/project/stack/mirror], where the prefix is not empty,
    has no [?] and may itself contain slashes, and the three trailing pieces
    have no line terminator; for every path of that shape it returns the
    promise of the volume.  For a path [http(s)://host/tail] free of [?] and
    line terminators this means three segments or more after the host, not
    exactly three: when the last three segments are free of slashes they are
    the project, the stack and the mirror, and all that comes before them is
    the url of the server. *)
Theorem getVolume_throws_iff (path : string) :
  (getVolume path = Throw (Error ("Invalid catmaid tile path " ++ JSON_stringify path))
   <-> ~ volumePath path) /\
  (volumePath path <-> exists p, getVolume path = Ok p) /\
  (forall scheme host tail,
     path = scheme ++ "://" ++ host ++ "/" ++ tail ->
     (scheme = "http" \/ scheme = "https") -> host <> "" ->
     Str.all RegExp.not_slash_question host = true ->
     Str.all plain tail = true ->
     (exists p, getVolume path = Ok p) <-> (2 <= occurrences "/" tail)%nat) /\
  (forall scheme prefix project stack mirror,
     path = scheme ++ "://" ++ prefix ++ "/" ++ project ++ "/" ++ stack ++ "/" ++ mirror ->
     (scheme = "http" \/ scheme = "https") -> prefix <> "" ->
     Str.all RegExp.not_question prefix = true ->
     Str.all RegExp.dot project = true -> Str.all RegExp.dot stack = true ->
     Str.all RegExp.dot mirror = true ->
     Str.all not_slash project = true -> Str.all not_slash stack = true ->
     Str.all not_slash mirror = true ->
     getVolume path =
       Ok (resolveVolume (scheme ++ "://" ++ prefix) path project stack mirror)).
Proof.
  assert (Hiff : volumePath path <-> exists p, getVolume path = Ok p).
  { split.
    - intros Hv. destruct (getVolume path) as [p|e] eqn:Hg; [eauto|].
      apply getVolume_throws_not_volumePath in Hg as [_ Hno]. contradiction.
    - intros [p Hp]. exact (getVolume_returns_volumePath _ _ Hp). }
  split; [|split; [|split]].
  - split.
    + intros H. apply getVolume_throws_not_volumePath in H. tauto.
    + intros Hno. destruct (getVolume path) as [p|e] eqn:Hg.
      * exfalso. apply Hno. apply Hiff. eauto.
      * apply getVolume_throws_not_volumePath in Hg as [-> _]. reflexivity.
  - exact Hiff.
  - intros scheme host tail -> Hs Hh Hhost Htail.
    rewrite <- Hiff. now apply volumePath_segments.
  - intros scheme prefix project stack mirror Hpath Hs Hp Hq H2 H3 H4 Hn2 Hn3 Hn4.
    destruct (GreedyFacts.urlPatternComplete_groups
                scheme prefix project stack mirror Hs Hp Hq H2 H3 H4 Hn2 Hn3 Hn4)
      as (m & Hm & Hg1 & Hg2 & Hg3 & Hg4).
    rewrite <- Hpath in Hm. unfold getVolume, resolveVolume.
    now rewrite Hm, Hg1, Hg2, Hg3, Hg4.
Qed.

End VolumeFacts.

(** A path with four segments after the host is not of the form host and
    exactly three segments, and yet [getVolume] does not throw on it. *)
Lemma getVolume_accepts_four_segments :
  ~ hostAndThreeSegments "http://h/a/b/c/d" /\
  exists p, getVolume (Env := Sample.environment) "http://h/a/b/c/d" = Ok p.
Proof.
  split.
  - intros (scheme & host & project & stack & mirror & Hs & _ & Hh & H2 & H3 & H4 & Heq).
    apply (f_equal (occurrences "/")) in Heq.
    repeat (rewrite occurrences_append in Heq; simpl in Heq).
    rewrite (scheme_no_slash _ Hs) in Heq.
    rewrite (occurrences_not_slash _ Hh), (occurrences_not_slash _ H2),
      (occurrences_not_slash _ H3), (occurrences_not_slash _ H4) in Heq.
    discriminate Heq.
  - eexists. reflexivity.
Qed.

(** Three segments after the host are accepted, and so are five, the
    first two of which go to the url of the server; two are not. *)
Lemma getVolume_throws_iff_witness :
  (exists p, getVolume (Env := Sample.environment) "https://example.org/1/2/5" = Ok p) /\
  getVolume (Env := Sample.environment) "https://example.org/x/y/1/2/5" =
    Ok (resolveVolume "https://example.org/x/y" "https://example.org/x/y/1/2/5"
          "1" "2" "5") /\
  ~ (exists p, getVolume (Env := Sample.environment) "https://example.org/1/2" = Ok p).
Proof.
  split; [|split].
  - apply (proj1 (proj2 (proj2 (getVolume_throws_iff (Env := Sample.environment) _)))
             "https" "example.org" "1/2/5");
      try reflexivity; try (now right); try discriminate; simpl; lia.
  - apply (proj2 (proj2 (proj2 (getVolume_throws_iff (Env := Sample.environment) _)))
             "https" "example.org/x/y" "1" "2" "5");
      try reflexivity; try (now right); discriminate.
  - intros H.
    apply (proj1 (proj2 (proj2 (getVolume_throws_iff (Env := Sample.environment) _)))
             "https" "example.org" "1/2") in H;
      try reflexivity; try (now right); try discriminate.
    simpl in H. lia.
Defined.

(** ** Resolving a volume *)

Section ResolveFacts.

Context `{Env : Environment}.

(** [getStackInfo] issues its one request or none, and touches neither the
    memoized project lists nor the memoized volumes. *)
Lemma getStackInfo_effect (hostname : string) (projectId stackId : number)
    (w : World) :
  let w' := snd (getStackInfo hostname projectId stackId w) in
  (requests w' = requests w \/
   requests w' = (requests w ++ [stackInfoRequest hostname projectId stackId])%list) /\
  projectsLists w' = projectsLists w /\ volumes w' = volumes w.
Proof.
  unfold getStackInfo, getUncounted.
  destruct (lookup _ _ (stackInfos w)); [simpl; auto|].
  unfold then_, sendHttpRequest.
  destruct (respond _ _) as [obj|r]; [|simpl; auto].
  destruct (parseStackInfo obj); simpl; auto.
Qed.

(** C9.  For a path that matches, [getVolume] returns a promise that
    issues at most the request for the stack info and leaves the memoized
    project lists alone: the projects list is not consulted.  A memoized
    volume is returned as it is, and a failure of the stack info is the
    failure of the promise.  When the volume is not memoized yet and the
    stack info is fetched and parsed, the promise is fulfilled with the
    source made of the url, the stack info and the mirror segment, whether
    or not that segment names a mirror of the stack; when it does not, it is
    [getSources] on that source that throws the error about the mirror. *)
Theorem getVolume_ignores_mirror (path : string) (m : RegExp.captures) (w : World) :
  RegExp.exec RegExp.urlPatternComplete path = Some m ->
  let url := RegExp.group 1 m in
  let project := RegExp.group 2 m in
  let stack := RegExp.group 3 m in
  let mirror := RegExp.group 4 m in
  exists p,
    getVolume path = Ok p /\
    (requests (snd (p w)) = requests w \/
     requests (snd (p w)) =
       (requests w ++ [stackInfoRequest url (Number project) (Number stack)])%list) /\
    projectsLists (snd (p w)) = projectsLists w /\
    (forall cached,
       lookup VolumeKey_eqb (url, path) (volumes w) = Some cached ->
       p w = (Fulfilled cached, w)) /\
    (forall r w',
       lookup VolumeKey_eqb (url, path) (volumes w) = None ->
       getStackInfo url (Number project) (Number stack) w = (Rejected r, w') ->
       p w = (Rejected r, w')) /\
    (forall stackInfo w',
       lookup VolumeKey_eqb (url, path) (volumes w) = None ->
       getStackInfo url (Number project) (Number stack) w = (Fulfilled stackInfo, w') ->
       let source := MultiscaleTileSource.make url stackInfo mirror JPEG in
       p w = (Fulfilled source, setVolumes (((url, path), source) :: volumes w') w') /\
       (Map.get mirror (StackInfo.mirrors stackInfo) = None ->
        forall (VolumeSourceOptions : Type) (vso : VolumeSourceOptions) fuel,
          getSources fuel source vso =
          Some (Throw (Error ("Unable to find mirror " ++ mirror ++ " for stack"))))).
Proof.
  intros Hm url project stack mirror. unfold getVolume. rewrite Hm.
  eexists. split; [reflexivity|].
  fold url project stack mirror.
  pose proof (getStackInfo_effect url (Number project) (Number stack) w)
    as (Hreq & Hpl & Hvol).
  cbv zeta in Hreq, Hpl, Hvol.
  match goal with
  | |- context [getUncounted ?e ?t ?u ?k ?g w] =>
      remember (getUncounted e t u k g w) as res eqn:E
  end.
  unfold getUncounted in E.
  destruct (lookup VolumeKey_eqb (url, path) (volumes w)) as [cached|] eqn:Hc.
  { subst res. simpl. split; [auto|]. split; [reflexivity|].
    split; [now intros ? [= <-]|]. split; intros; discriminate. }
  unfold then_ in E.
  destruct (getStackInfo url (Number project) (Number stack) w)
    as [[stackInfo|r] w1] eqn:Hs; simpl in *; subst res; simpl.
  - split; [exact Hreq|]. split; [exact Hpl|].
    split; [intros; discriminate|]. split; [intros; discriminate|].
    intros stackInfo' w' _ [= <- <-]. split; [reflexivity|].
    intros Hnone VolumeSourceOptions vso fuel.
    unfold getSources. simpl. rewrite Hnone. reflexivity.
  - split; [exact Hreq|]. split; [exact Hpl|].
    split; [intros; discriminate|].
    split; [now intros r' w' _ [= <- <-] | intros; discriminate].
Qed.

End ResolveFacts.

(** On the sample server the path [http://example.org/1/2/99] resolves
    although stack 2 has no mirror 99, with the one request for the stack
    info; [getSources] on the result throws. *)
Lemma getVolume_ignores_mirror_witness :
  exists p source w',
    getVolume (Env := Sample.environment) "http://example.org/1/2/99" = Ok p /\
    p Sample.world0 = (Fulfilled source, w') /\
    MultiscaleTileSource.mirrorId source = "99" /\
    Map.get "99" (StackInfo.mirrors (MultiscaleTileSource.stackInfo source)) = None /\
    requests w' = [{| hosts := ["http://example.org"]; path := "/1/stack/2/info" |}] /\
    getSources 4 source tt =
      Some (Throw (Error "Unable to find mirror 99 for stack")).
Proof.
  destruct (RegExp.exec RegExp.urlPatternComplete "http://example.org/1/2/99")
    as [m|] eqn:Hm; [|vm_compute in Hm; discriminate].
  destruct (getVolume_ignores_mirror (Env := Sample.environment)
              "http://example.org/1/2/99" m Sample.world0 Hm)
    as (p & Hp & _ & _ & _ & _ & Hres).
  vm_compute in Hm. injection Hm as <-.
  destruct (getStackInfo (Env := Sample.environment) "http://example.org"
              (Some 1%Z) (Some 2%Z) Sample.world0) as [[stackInfo|r] w1] eqn:Hs;
    [|vm_compute in Hs; discriminate].
  destruct (Hres stackInfo w1 eq_refl Hs) as [Hrun Hthrow].
  vm_compute in Hs. injection Hs as <- <-.
  eexists p, _, _. split; [exact Hp|]. split; [exact Hrun|].
  split; [reflexivity|]. split; [reflexivity|]. split; [reflexivity|].
  exact (Hthrow eq_refl unit tt 4%nat).
Defined.

(** ** Parsing the projects list *)

Lemma Qred_inject_Z (z : Z) : Qred (inject_Z z) = inject_Z z.
Proof.
  unfold Qred, inject_Z.
  pose proof (Z.ggcd_gcd z 1) as Hg.
  pose proof (Z.ggcd_correct_divisors z 1) as Hd.
  destruct (Z.ggcd z 1) as [g [aa bb]]. simpl in *.
  rewrite Z.gcd_1_r in Hg. subst g. destruct Hd as [Ha Hb].
  rewrite Z.mul_1_l in Ha, Hb. now subst.
Qed.

Lemma verifyInt_integer (j : json) (z : Z) : integer j z -> verifyInt j = Ok z.
Proof.
  intros (q & -> & Hq). simpl.
  apply Qred_complete in Hq. rewrite Hq, Qred_inject_Z. reflexivity.
Qed.

Lemma Map_set_In {V} (k k0 : string) (v v0 : V) (m : Map.t V) :
  In (k, v) (Map.set k0 v0 m) -> (k, v) = (k0, v0) \/ In (k, v) m.
Proof.
  induction m as [|[k' v'] m IH]; simpl.
  - intros [H|[]]; auto.
  - destruct (String.eqb k0 k'); simpl; intros [H|H]; auto.
    destruct (IH H); auto.
Qed.

Lemma Map_get_set {V} (k : string) (v : V) (m : Map.t V) :
  Map.get k (Map.set k v m) = Some v.
Proof.
  induction m as [|[k' v'] m IH]; simpl.
  - now rewrite String.eqb_refl.
  - destruct (String.eqb k k') eqn:E; simpl.
    + now rewrite String.eqb_refl.
    + now rewrite E.
Qed.

Lemma Map_get_set_other {V} (k k0 : string) (v0 : V) (m : Map.t V) :
  Map.get k m <> None -> Map.get k (Map.set k0 v0 m) <> None.
Proof.
  induction m as [|[k' v'] m IH]; simpl; [congruence|].
  destruct (String.eqb k0 k') eqn:E0; simpl.
  - apply String.eqb_eq in E0 as ->.
    destruct (String.eqb k k'); [discriminate | auto].
  - destruct (String.eqb k k'); [discriminate | auto].
Qed.

Section KeyedMaps.

Context {V : Type} (id : V -> Z).

Let file (m : Map.t V) (v : V) : Map.t V := Map.set (Str.ofZ (id v)) v m.

Lemma keyedById_set (m : Map.t V) (v : V) :
  keyedById id m -> keyedById id (file m v).
Proof.
  unfold keyedById. rewrite !Forall_forall. intros Hm [k v'] Hin.
  apply Map_set_In in Hin as [[= -> ->]|Hin]; [reflexivity | exact (Hm _ Hin)].
Qed.

Lemma keyedById_fold (l : list V) : forall m,
  keyedById id m -> keyedById id (fold_left file l m).
Proof.
  induction l as [|v l IH]; intros m Hm; simpl; [exact Hm|].
  apply IH, keyedById_set, Hm.
Qed.

Lemma fold_keeps (l : list V) (k : string) : forall m,
  Map.get k m <> None -> Map.get k (fold_left file l m) <> None.
Proof.
  induction l as [|v l IH]; intros m Hm; simpl; [exact Hm|].
  apply IH. now apply Map_get_set_other.
Qed.

Lemma fold_files_all (l : list V) : forall m v,
  In v l -> Map.get (Str.ofZ (id v)) (fold_left file l m) <> None.
Proof.
  induction l as [|a l IH]; intros m v []; simpl.
  - subst a. apply fold_keeps. unfold file. rewrite Map_get_set. discriminate.
  - now apply IH.
Qed.

End KeyedMaps.

Lemma verifyObjectProperty_Ok {A} (fields : list (string * json)) (name : string)
    (verifier : json -> result A) (a : A) :
  verifier (property name fields) = Ok a ->
  verifyObjectProperty (JObject fields) name verifier = Ok a.
Proof. intros H. unfold verifyObjectProperty. now rewrite H. Qed.

Lemma parseStackDesc_wellFormed (obj : json) (stack : StackIdentifier.t) :
  wellFormedStack obj stack -> parseStackDesc obj = Ok stack.
Proof.
  intros (fields & -> & Hid & Ht & Hc). unfold parseStackDesc.
  rewrite (verifyObjectProperty_Ok fields "id" verifyInt (StackIdentifier.id stack))
    by now apply verifyInt_integer.
  rewrite (verifyObjectProperty_Ok fields "title" verifyString
             (StackIdentifier.title stack)) by now rewrite Ht.
  rewrite (verifyObjectProperty_Ok fields "comment" verifyString
             (StackIdentifier.comment stack)) by now rewrite Hc.
  simpl. now destruct stack.
Qed.

Lemma parseElements_wellFormed (objs : list json) (stacks : list StackIdentifier.t) :
  Forall2 wellFormedStack objs stacks ->
  parseElements parseStackDesc objs = Ok stacks.
Proof.
  induction 1 as [|obj stack objs stacks H _ IH]; simpl; [reflexivity|].
  now rewrite (parseStackDesc_wellFormed _ _ H), IH.
Qed.

(** C7.  [parseProjectsList] fails on the empty array, with the
    error that no projects were found; on an array of one well-formed
    project it returns the map with the one entry of that project, filed
    under the decimal text of its id, whose stacks map holds every stack of
    the project, each entry filed under the decimal text of its stack id. *)
Theorem parseProjectsList_empty_and_singleton :
  parseProjectsList (JArray []) = Throw (Error "No projects found in projects list.") /\
  forall obj id title stacks,
    wellFormedProject obj id title stacks ->
    exists stackMap,
      parseProjectsList (JArray [obj]) =
        Ok [(Str.ofZ id, ProjectInfo.make id title stackMap)] /\
      keyedById ProjectInfo.id [(Str.ofZ id, ProjectInfo.make id title stackMap)] /\
      keyedById StackIdentifier.id stackMap /\
      (forall entry, In entry stackMap -> In (snd entry) stacks) /\
      (forall stack, In stack stacks ->
         Map.get (Str.ofZ (StackIdentifier.id stack)) stackMap <> None).
Proof.
  split; [reflexivity|].
  intros obj id title stacks (fields & stackObjs & -> & Hid & Ht & Hs & Hstacks).
  set (file := fun (m : Map.t StackIdentifier.t) v =>
                 Map.set (Str.ofZ (StackIdentifier.id v)) v m).
  exists (fold_left file stacks Map.empty).
  split; [|split; [|split; [|split]]].
  - unfold parseProjectsList. cbn [parseArray parseElements verifyObject bind].
    cbn [List.length Nat.ltb Nat.leb parseProjects bind]. unfold parseProject.
    rewrite (verifyObjectProperty_Ok fields "id" verifyInt id)
      by now apply verifyInt_integer.
    rewrite (verifyObjectProperty_Ok fields "title" verifyString title)
      by now rewrite Ht.
    cbn [bind].
    erewrite (verifyObjectProperty_Ok fields "stacks").
    + reflexivity.
    + rewrite Hs. cbn [parseArray].
      rewrite (parseElements_wellFormed _ _ Hstacks). reflexivity.
  - repeat constructor.
  - apply keyedById_fold. constructor.
  - assert (H : forall l m entry,
               In entry (fold_left file l m) -> In entry m \/ In (snd entry) l).
    { induction l as [|v l IH]; intros m entry Hin; simpl in *; [auto|].
      destruct (IH _ _ Hin) as [Hm|Hl]; [|auto].
      destruct entry as [k v']. apply Map_set_In in Hm as [[= _ ->]|Hm]; auto. }
    intros entry Hin. destruct (H _ _ _ Hin) as [[]|Hl]. exact Hl.
  - intros stack Hin. now apply (fold_files_all StackIdentifier.id).
Qed.

(** The project list of the sample server is a list of one well-formed
    project. *)
Lemma parseProjectsList_empty_and_singleton_witness :
  exists stackMap,
    parseProjectsList Sample.projectsJson =
      Ok [("1", ProjectInfo.make 1 "Project one" stackMap)] /\
    Map.keys stackMap = ["2"; "30"].
Proof.
  destruct parseProjectsList_empty_and_singleton as [_ H].
  destruct (H (JObject
                 [("id", Sample.int 1); ("title", JString "Project one");
                  ("stacks",
                   JArray
                     [JObject [("id", Sample.int 2); ("title", JString "Stack two");
                               ("comment", JString "raw")];
                      JObject [("id", Sample.int 30); ("title", JString "Stack thirty");
                               ("comment", JString "aligned")]])])
              1%Z "Project one"
              [StackIdentifier.make 2 "Stack two" "raw";
               StackIdentifier.make 30 "Stack thirty" "aligned"])
    as (stackMap & Hparse & _).
  { eexists _, _. split; [reflexivity|].
    split; [eexists; split; reflexivity|].
    split; [reflexivity|]. split; [reflexivity|].
    repeat constructor;
      (eexists; split; [reflexivity|];
       split; [eexists; split; reflexivity | split; reflexivity]). }
  exists stackMap. split; [exact Hparse|].
  vm_compute in Hparse. injection Hparse as <-. reflexivity.
Defined.

(** ** The order of the completion candidates *)

Section SortFacts.

Context {A : Type} (key : A -> Z).

Let compare (a b : A) : Z := (key a - key b)%Z.
Let le (a b : A) : Prop := (key a <= key b)%Z.

Lemma Array_insert_Permutation (a : A) (l : list A) :
  Permutation (Array_insert compare a l) (a :: l).
Proof.
  induction l as [|b l IH]; simpl; [reflexivity|].
  destruct (compare a b <=? 0)%Z; [reflexivity|].
  rewrite IH. apply perm_swap.
Qed.

Lemma Array_sort_Permutation (l : list A) : Permutation (Array_sort compare l) l.
Proof.
  induction l as [|a l IH]; simpl; [reflexivity|].
  now rewrite Array_insert_Permutation, IH.
Qed.

Lemma Array_insert_HdRel (a b : A) (l : list A) :
  le b a -> HdRel le b l -> HdRel le b (Array_insert compare a l).
Proof.
  intros Hba Hl. destruct l as [|c l]; simpl; [now constructor|].
  destruct (compare a c <=? 0)%Z; constructor; [exact Hba|].
  now inversion Hl.
Qed.

Lemma Array_insert_Sorted (a : A) (l : list A) :
  Sorted le l -> Sorted le (Array_insert compare a l).
Proof.
  induction 1 as [|b l Hs IH Hhd]; simpl; [repeat constructor|].
  destruct (Z.leb_spec (compare a b) 0) as [Hle|Hgt].
  - constructor; [now constructor|]. constructor. subst compare le. simpl in *. lia.
  - constructor; [exact IH|]. apply Array_insert_HdRel; [|exact Hhd].
    subst compare le. simpl in *. lia.
Qed.

Lemma Array_sort_Sorted (l : list A) : Sorted le (Array_sort compare l).
Proof.
  induction l as [|a l IH]; simpl; [constructor|].
  now apply Array_insert_Sorted.
Qed.

Lemma Array_sort_keys_Sorted (l : list A) :
  Sorted Z.le (map key (Array_sort compare l)).
Proof.
  pose proof (Array_sort_Sorted l) as H.
  induction H as [|a l' Hs IH Hhd]; simpl; constructor; [exact IH|].
  destruct Hhd; simpl; constructor. assumption.
Qed.

End SortFacts.

(** Two sorted lists of integers with the same elements are equal. *)
Lemma Sorted_Permutation_eq (l1 : list Z) : forall l2,
  Sorted Z.le l1 -> Sorted Z.le l2 -> Permutation l1 l2 -> l1 = l2.
Proof.
  induction l1 as [|a l1 IH]; intros l2 H1 H2 Hp.
  - now apply Permutation_nil in Hp.
  - destruct l2 as [|b l2]; [now apply Permutation_sym, Permutation_nil in Hp|].
    apply Sorted_StronglySorted in H1; [|exact Z.le_trans].
    apply Sorted_StronglySorted in H2; [|exact Z.le_trans].
    inversion H1 as [|? ? S1 F1]; subst. inversion H2 as [|? ? S2 F2]; subst.
    assert (Hab : a = b).
    { assert (Ha : In a (b :: l2)) by (eapply Permutation_in; [exact Hp | now left]).
      assert (Hb : In b (a :: l1))
        by (eapply Permutation_in; [symmetry; exact Hp | now left]).
      rewrite Forall_forall in F1, F2.
      destruct Ha as [Ha|Ha]; [congruence|]. destruct Hb as [Hb|Hb]; [congruence|].
      specialize (F1 _ Hb). specialize (F2 _ Ha). lia. }
    subst b. f_equal. apply IH.
    + now apply StronglySorted_Sorted.
    + now apply StronglySorted_Sorted.
    + now apply Permutation_cons_inv in Hp.
Qed.

(** Lists with the same elements and the same keys in the same places are
    equal when no key occurs twice. *)
Lemma Permutation_keys_eq {A} (key : A -> Z) (l1 : list A) : forall l2,
  NoDup (map key l1) -> Permutation l1 l2 -> map key l1 = map key l2 -> l1 = l2.
Proof.
  induction l1 as [|a l1 IH]; intros l2 Hnd Hp Hk.
  - now apply Permutation_nil in Hp.
  - destruct l2 as [|b l2]; [discriminate|]. simpl in Hk. injection Hk as Hab Hk.
    inversion Hnd as [|? ? Hnotin Hnd']; subst.
    assert (a = b) as <-.
    { assert (Ha : In a (b :: l2)) by (eapply Permutation_in; [exact Hp | now left]).
      destruct Ha as [Ha|Ha]; [congruence|].
      exfalso. apply Hnotin. rewrite Hk. now apply in_map. }
    f_equal. apply IH; auto. now apply Permutation_cons_inv in Hp.
Qed.

Section CandidateFacts.

Context `{Env : Environment}.

Lemma mirrorCandidates_positions (mirrors mirrors' : Map.t StackMirror.t) :
  Permutation mirrors mirrors' ->
  map StackMirror.position (mirrorCandidates mirrors) =
  map StackMirror.position (mirrorCandidates mirrors').
Proof.
  intros Hp. unfold mirrorCandidates.
  apply Sorted_Permutation_eq; try apply Array_sort_keys_Sorted.
  apply Permutation_map.
  rewrite !Array_sort_Permutation. unfold Map.values. now apply Permutation_map.
Qed.

(** C8.  [autoCompleteMirror] hands the mirrors to the prefix
    matching utility sorted by position, ascending, whatever the order of
    insertion into the map: the candidates are a sorted rearrangement of the
    values of the map, two maps with the same entries give the same sequence
    of positions, and the same candidates when no position occurs twice;
    mirrors inserted with the positions 3, 1, 2 are handed over in the order
    1, 2, 3.  [autoCompleteProject] and [autoCompleteStack] hand the values
    of their map over in insertion order. *)
Theorem completion_candidate_order :
  (forall partial offset mirrors,
     autoCompleteMirror partial offset mirrors =
       {| offset := offset;
          completions :=
            getPrefixMatchesWithDescriptions _ partial (mirrorCandidates mirrors)
              (fun x => Str.ofZ (StackMirror.id x)) (fun x => StackMirror.title x) |} /\
     Sorted positionLe (mirrorCandidates mirrors) /\
     Permutation (mirrorCandidates mirrors) (Map.values mirrors)) /\
  (forall mirrors mirrors',
     Permutation mirrors mirrors' ->
     map StackMirror.position (mirrorCandidates mirrors) =
     map StackMirror.position (mirrorCandidates mirrors') /\
     (NoDup (map StackMirror.position (Map.values mirrors)) ->
      mirrorCandidates mirrors = mirrorCandidates mirrors')) /\
  (forall ka kb kc a b c,
     StackMirror.position a = 3%Z -> StackMirror.position b = 1%Z ->
     StackMirror.position c = 2%Z ->
     mirrorCandidates [(ka, a); (kb, b); (kc, c)] = [b; c; a]) /\
  (forall partial offset projectsList,
     autoCompleteProject partial offset projectsList =
       {| offset := offset;
          completions :=
            getPrefixMatchesWithDescriptions _ partial (map snd projectsList)
              (fun x => Str.ofZ (ProjectInfo.id x) ++ "/")
              (fun x => ProjectInfo.title x) |}) /\
  (forall partial projectId offset projectsList projectInfo,
     Map.get projectId projectsList = Some projectInfo ->
     autoCompleteStack partial projectId offset projectsList =
       Ok {| offset := offset;
             completions :=
               getPrefixMatchesWithDescriptions _ partial
                 (map snd (ProjectInfo.stacks projectInfo))
                 (fun x => Str.ofZ (StackIdentifier.id x) ++ "/")
                 (fun x => StackIdentifier.title x ++ ": " ++
                           StackIdentifier.comment x) |}).
Proof.
  split; [|split; [|split; [|split]]].
  - intros partial offset mirrors. split; [reflexivity|]. split.
    + apply (Array_sort_Sorted StackMirror.position).
    + apply (Array_sort_Permutation StackMirror.position).
  - intros mirrors mirrors' Hp.
    pose proof (mirrorCandidates_positions _ _ Hp) as Hpos.
    split; [exact Hpos|]. intros Hnd.
    apply (Permutation_keys_eq StackMirror.position); [| |exact Hpos].
    + eapply Permutation_NoDup; [|exact Hnd].
      apply Permutation_map. symmetry.
      apply (Array_sort_Permutation StackMirror.position).
    + unfold mirrorCandidates.
      rewrite !(Array_sort_Permutation StackMirror.position).
      unfold Map.values. now apply Permutation_map.
  - intros ka kb kc a b c Ha Hb Hc. unfold mirrorCandidates, Map.values.
    cbn [map snd Array_sort Array_insert]. rewrite Hb, Hc.
    change (1 - 2 <=? 0)%Z with true. cbn [Array_insert]. rewrite Ha, Hb, Hc.
    reflexivity.
  - reflexivity.
  - intros partial projectId offset projectsList projectInfo H.
    unfold autoCompleteStack. now rewrite H.
Qed.

End CandidateFacts.

(** The mirrors of the sample stack were inserted with the positions 3,
    1, 2: the completions come in the order of the positions 1, 2, 3. *)
Lemma completion_candidate_order_witness :
  map StackMirror.position (Map.values Sample.mirrors) = [3; 1; 2]%Z /\
  mirrorCandidates Sample.mirrors = [Sample.first; Sample.second; Sample.third] /\
  map value
    (completions (autoCompleteMirror (Env := Sample.environment) "" 0 Sample.mirrors))
  = ["5"; "6"; "7"].
Proof.
  destruct (completion_candidate_order (Env := Sample.environment))
    as (_ & _ & H & _).
  split; [reflexivity|]. split.
  - exact (H "7" "5" "6" Sample.third Sample.first Sample.second
             eq_refl eq_refl eq_refl).
  - reflexivity.
Defined.

(** ** Memoized fetches in flight *)

Section AsyncFacts.

Context {K V : Type} (eqb : K -> K -> bool) (parse : json -> result V).

Lemma update_last {A} (l : list A) (a b : A) :
  Async.update (List.length l) a (l ++ [b])%list = (l ++ [a])%list.
Proof. induction l as [|x l IH]; simpl; [reflexivity | now rewrite IH]. Qed.

Lemma nth_error_last {A} (l : list A) (a : A) :
  nth_error (l ++ [a])%list (List.length l) = Some a.
Proof. rewrite nth_error_app2, Nat.sub_diag by lia. reflexivity. Qed.

Lemma lookup_evicted (k : K) (t : list (K * nat)) :
  lookup eqb k (filter (fun entry => negb (eqb k (fst entry))) t) = None.
Proof.
  induction t as [|[k' p] t IH]; simpl; [reflexivity|].
  destruct (eqb k k') eqn:E; simpl; [exact IH|]. now rewrite E.
Qed.

Lemma getUncounted_coalesces (k : K) (r : Request) :
  eqb k k = true ->
  coalesces eqb k parse r (Async.getUncounted eqb k r).
Proof.
  intros Hrefl m Hnone. unfold Async.getUncounted at 1. rewrite Hnone.
  set (p1 := List.length (Async.promises m)).
  set (pending := {| Async.key := k; Async.request := r; Async.state := None |}).
  unfold Async.getUncounted at 1. cbn [Async.table lookup]. rewrite Hrefl.
  split; [reflexivity|]. split; [reflexivity|]. split.
  { unfold Async.transportRequests. cbn [Async.promises].
    now rewrite map_app. }
  split.
  { unfold Async.observe. cbn [Async.promises]. subst p1.
    now rewrite nth_error_last. }
  intros answer. unfold Async.deliver. cbn [Async.promises Async.table].
  subst p1. rewrite nth_error_last. cbn [Async.state pending Async.key Async.request].
  rewrite update_last.
  set (o := Async.parsed parse answer).
  set (done := {| Async.key := k; Async.request := r; Async.state := Some o |}).
  assert (Hobs : forall t,
             Async.observe (List.length (Async.promises m))
               {| Async.table := t;
                  Async.promises := (Async.promises m ++ [done])%list |} = Some o).
  { intros t. unfold Async.observe. cbn [Async.promises].
    now rewrite nth_error_last. }
  cbv zeta. split; [apply Hobs|]. split; [apply Hobs|]. split.
  { unfold Async.transportRequests. cbn [Async.promises].
    now rewrite !map_app. }
  split.
  - intros v Hv. rewrite Hv. unfold Async.getUncounted.
    cbn [Async.table lookup]. now rewrite Hrefl.
  - intros e He. rewrite He. unfold Async.getUncounted.
    cbn [Async.table filter fst]. rewrite Hrefl. cbn [negb].
    rewrite lookup_evicted. cbn [Async.promises Async.table].
    eexists _, _. split; [reflexivity|]. split.
    + rewrite length_app. simpl. lia.
    + split.
      * unfold Async.transportRequests. cbn [Async.promises].
        now rewrite !map_app.
      * unfold Async.observe. cbn [Async.promises].
        now rewrite nth_error_last.
Qed.

End AsyncFacts.

Section FetcherFacts.

Context `{Env : Environment}.

Lemma StackInfoKey_eqb_refl (k : StackInfoKey) : StackInfoKey_eqb k k = true.
Proof.
  destruct k as [[h p] s]. simpl. rewrite String.eqb_refl.
  destruct (number_eq_dec p p); [|congruence].
  destruct (number_eq_dec s s); [reflexivity | congruence].
Qed.

Lemma hostnames_eqb_refl (k : list string) : hostnames_eqb k k = true.
Proof.
  unfold hostnames_eqb. destruct (list_eq_dec string_dec k k); congruence.
Qed.

(** C4.  Two calls of [getStackInfo] with the same host name, project
    and stack, the second made while the first is in flight, return the same
    promise and issue one transport request; both callers observe what that
    promise settles with, a result or a failure.  A failure is not kept: the
    next call with the same arguments issues the request again.  The same
    holds of [getProjectsList] with the same host names. *)
Theorem fetches_coalesce :
  (forall hostname projectId stackId,
     coalesces StackInfoKey_eqb (hostname, projectId, stackId) parseStackInfo
       (stackInfoRequest hostname projectId stackId)
       (Async.getStackInfo hostname projectId stackId)) /\
  (forall hostnames,
     coalesces hostnames_eqb hostnames parseProjectsList
       (projectsListRequest hostnames)
       (Async.getProjectsList hostnames)).
Proof.
  split.
  - intros hostname projectId stackId.
    apply getUncounted_coalesces, StackInfoKey_eqb_refl.
  - intros hostnames.
    apply getUncounted_coalesces, hostnames_eqb_refl.
Qed.

End FetcherFacts.

(** From the empty table: two calls for the stack info of stack 2 of
    project 1 issue one request; when it fails with 503 both promises are
    rejected with it, and a third call issues the request a second time. *)
Lemma fetches_coalesce_witness :
  let call := Async.getStackInfo (Env := Sample.environment)
                "http://example.org" (Some 1%Z) (Some 2%Z) in
  let r := stackInfoRequest (Env := Sample.environment)
             "http://example.org" (Some 1%Z) (Some 2%Z) in
  let m2 := snd (call (snd (call Async.empty))) in
  let m3 := Async.deliver StackInfoKey_eqb parseStackInfo 0
              (Rejected (TransportFailure 503)) m2 in
  fst (call Async.empty) = 0%nat /\ fst (call (snd (call Async.empty))) = 0%nat /\
  Async.transportRequests m2 = [r] /\
  Async.observe 0 m3 = Some (Rejected (TransportFailure 503)) /\
  Async.transportRequests (snd (call m3)) = [r; r].
Proof.
  intros call r m2 m3.
  destruct (fetches_coalesce (Env := Sample.environment)) as [H _].
  specialize (H "http://example.org" (Some 1%Z) (Some 2%Z) Async.empty eq_refl).
  fold call in H.
  destruct (call Async.empty) as [p1 m1] eqn:H1.
  destruct (call m1) as [p2 m2'] eqn:H2.
  destruct H as (Hp & Hm & Hreq & _ & Hanswer).
  assert (Hp1 : p1 = 0%nat) by (vm_compute in H1; now injection H1 as <- _).
  subst p1 p2 m2'. cbn [fst snd] in *. subst m2 m3. rewrite H2. cbn [snd].
  destruct (Hanswer (Rejected (TransportFailure 503)))
    as (Hobs & _ & Hsame & _ & Hretry).
  destruct (Hretry _ eq_refl) as (p3 & m4 & Hcall & _ & Hreq4 & _).
  split; [reflexivity|]. split; [reflexivity|]. split; [exact Hreq|].
  split; [exact Hobs|].
  rewrite Hcall. cbn [snd]. rewrite Hreq4, Hsame, Hreq. reflexivity.
Defined.

(** ** The awaited fetch is the fetch in flight, answered at once *)

Section AwaitedFacts.

Context `{Env : Environment} {K V : Type} (eqb : K -> K -> bool).
Context (table : World -> list (K * V)) (store : list (K * V) -> World -> World).
Context (parse : json -> result V).

Hypothesis table_store : forall t w, table (store t w) = t.
Hypothesis requests_store : forall t w, requests (store t w) = requests w.
Hypothesis table_send : forall r w, table (snd (sendHttpRequest r w)) = table w.

Lemma lookup_none_filter (k : K) (t : list (K * nat)) :
  lookup eqb k t = None ->
  filter (fun entry => negb (eqb k (fst entry))) t = t.
Proof.
  induction t as [|[k' p] t IH]; simpl; [reflexivity|].
  destruct (eqb k k'); [discriminate|]. simpl. intros H. now rewrite IH.
Qed.

Lemma observe_earlier (m : Async.Memo (K := K) (V := V)) (p : nat)
    (o : outcome V) (t : list (K * nat)) (pr : Async.Promise) :
  Async.observe p m = Some o ->
  Async.observe p {| Async.table := t;
                     Async.promises := (Async.promises m ++ [pr])%list |} = Some o.
Proof.
  unfold Async.observe. cbn [Async.promises].
  destruct (nth_error (Async.promises m) p) as [pr0|] eqn:E; [|discriminate].
  rewrite nth_error_app1 by (apply nth_error_Some; congruence).
  now rewrite E.
Qed.

Lemma fetch_awaited (k : K) (r : Request) (w : World)
    (m : Async.Memo (K := K) (V := V)) :
  eqb k k = true ->
  Async.awaited eqb (table w) m ->
  let fetched :=
    getUncounted eqb table store k
      (then_ (sendHttpRequest r) (fun obj => settle (parse obj))) w in
  let called := Async.getUncounted eqb k r m in
  let m' :=
    Async.deliver eqb parse (fst called)
      (respond (List.length (requests w)) r) (snd called) in
  Async.observe (fst called) m' = Some (fst fetched) /\
  Async.awaited eqb (table (snd fetched)) m' /\
  exists new,
    requests (snd fetched) = (requests w ++ new)%list /\
    Async.transportRequests m' = (Async.transportRequests m ++ new)%list.
Proof.
  intros Hrefl Haw. pose proof (Haw k) as Hk.
  unfold getUncounted, Async.getUncounted.
  destruct (lookup eqb k (table w)) as [v|] eqn:Ht.
  - (* memoized *)
    destruct Hk as (p & Hp & Hobs). rewrite Hp. cbn [fst snd].
    assert (Hm : Async.deliver eqb parse p (respond (List.length (requests w)) r) m = m).
    { unfold Async.deliver. unfold Async.observe in Hobs.
      destruct (nth_error (Async.promises m) p) as [pr|]; [|discriminate].
      now rewrite Hobs. }
    rewrite Hm. split; [exact Hobs|]. split; [exact Haw|].
    exists []. now rewrite !app_nil_r.
  - (* not memoized *)
    rewrite Hk. cbn [fst snd].
    unfold Async.deliver. cbn [Async.promises Async.table].
    rewrite nth_error_last. cbn [Async.state Async.key Async.request].
    rewrite update_last.
    set (answer := respond (List.length (requests w)) r).
    set (sent := snd (sendHttpRequest r w)).
    assert (Hsent : then_ (sendHttpRequest r) (fun obj => settle (parse obj)) w
                    = (Async.parsed parse answer, sent)).
    { unfold then_, sendHttpRequest, Async.parsed, sent, answer. simpl.
      destruct (respond _ r) as [obj|e]; [|reflexivity].
      now destruct (parse obj). }
    rewrite Hsent.
    assert (Hreq : requests sent = (requests w ++ [r])%list) by reflexivity.
    assert (Hold : forall k' t',
               match lookup eqb k' (table w) with
               | Some v =>
                   exists p, lookup eqb k' (Async.table m) = Some p /\
                     Async.observe p
                       {| Async.table := t';
                          Async.promises :=
                            (Async.promises m ++
                             [{| Async.key := k; Async.request := r;
                                 Async.state := Some (Async.parsed parse answer) |}])%list |}
                     = Some (Fulfilled v)
               | None => lookup eqb k' (Async.table m) = None
               end).
    { intros k' t'. pose proof (Haw k') as H'.
      destruct (lookup eqb k' (table w)); [|exact H'].
      destruct H' as (p & Hp & Hobs). exists p. split; [exact Hp|].
      now apply observe_earlier. }
    destruct (Async.parsed parse answer) as [v|e] eqn:Ho; cbn [fst snd].
    + split.
      { unfold Async.observe. cbn [Async.promises]. now rewrite nth_error_last. }
      split.
      { intros k'. rewrite table_store. cbn [lookup Async.table].
        destruct (eqb k' k).
        - eexists. split; [reflexivity|].
          unfold Async.observe. cbn [Async.promises]. now rewrite nth_error_last.
        - unfold sent. rewrite table_send. apply Hold. }
      exists [r]. rewrite requests_store. split; [exact Hreq|].
      unfold Async.transportRequests. cbn [Async.promises]. now rewrite map_app.
    + split.
      { unfold Async.observe. cbn [Async.promises]. now rewrite nth_error_last. }
      split.
      { intros k'. unfold sent. rewrite table_send.
        cbn [filter fst]. rewrite Hrefl. cbn [negb].
        rewrite (lookup_none_filter k _ Hk). apply Hold. }
      exists [r]. split; [exact Hreq|].
      unfold Async.transportRequests. cbn [Async.promises]. now rewrite map_app.
Qed.

End AwaitedFacts.

Section AwaitedFetchers.

Context `{Env : Environment}.

(** [getStackInfo] awaited at once is [getStackInfo] in flight, answered
    at once by the transport; the same holds of [getProjectsList]. *)
Lemma getStackInfo_awaited (hostname : string) (projectId stackId : number)
    (w : World) (m : Async.Memo) :
  Async.awaited StackInfoKey_eqb (stackInfos w) m ->
  let fetched := getStackInfo hostname projectId stackId w in
  let called := Async.getStackInfo hostname projectId stackId m in
  let m' :=
    Async.deliver StackInfoKey_eqb parseStackInfo (fst called)
      (respond (List.length (requests w))
         (stackInfoRequest hostname projectId stackId)) (snd called) in
  Async.observe (fst called) m' = Some (fst fetched) /\
  Async.awaited StackInfoKey_eqb (stackInfos (snd fetched)) m' /\
  exists new,
    requests (snd fetched) = (requests w ++ new)%list /\
    Async.transportRequests m' = (Async.transportRequests m ++ new)%list.
Proof.
  intros Haw.
  apply (fetch_awaited StackInfoKey_eqb stackInfos setStackInfos parseStackInfo);
    auto using StackInfoKey_eqb_refl.
Qed.

Lemma getProjectsList_awaited (hostnames : list string) (w : World)
    (m : Async.Memo) :
  Async.awaited hostnames_eqb (projectsLists w) m ->
  let fetched := getProjectsList hostnames w in
  let called := Async.getProjectsList hostnames m in
  let m' :=
    Async.deliver hostnames_eqb parseProjectsList (fst called)
      (respond (List.length (requests w)) (projectsListRequest hostnames))
      (snd called) in
  Async.observe (fst called) m' = Some (fst fetched) /\
  Async.awaited hostnames_eqb (projectsLists (snd fetched)) m' /\
  exists new,
    requests (snd fetched) = (requests w ++ new)%list /\
    Async.transportRequests m' = (Async.transportRequests m ++ new)%list.
Proof.
  intros Haw.
  apply (fetch_awaited hostnames_eqb projectsLists setProjectsLists
           parseProjectsList);
    auto using hostnames_eqb_refl.
Qed.

End AwaitedFetchers.

(** ** Keys of the maps *)

(** The decimal text of an integer determines the integer. *)
Lemma ofZ_injective (a b : Z) : Str.ofZ a = Str.ofZ b -> a = b.
Proof.
  unfold Str.ofZ. intros H.
  assert (Hn : forall z, Z.to_int z <> Decimal.Pos Decimal.Nil /\
                         Z.to_int z <> Decimal.Neg Decimal.Nil).
  { intros [|p|p]; simpl; split; try discriminate;
      intros [= Hp]; exact (DecimalPos.Unsigned.to_uint_nonnil p Hp). }
  apply (f_equal NilZero.int_of_string) in H.
  rewrite !NilZero.isi in H by apply Hn.
  injection H as H. apply (f_equal Z.of_int) in H.
  now rewrite !DecimalZ.of_to in H.
Qed.

Lemma find_append {A} (f : A -> bool) (l1 l2 : list A) :
  find f (l1 ++ l2)%list =
  match find f l1 with Some a => Some a | None => find f l2 end.
Proof.
  induction l1 as [|a l1 IH]; simpl; [reflexivity|].
  now destruct (f a).
Qed.

Section FiledMaps.

Context {V : Type} (key : V -> string).

Let file (m : Map.t V) (v : V) : Map.t V := Map.set (key v) v m.

Lemma Map_get_set_eq (k k0 : string) (v0 : V) (m : Map.t V) :
  Map.get k (Map.set k0 v0 m) = if String.eqb k0 k then Some v0 else Map.get k m.
Proof.
  induction m as [|[k' v'] m IH]; simpl.
  - rewrite (String.eqb_sym k k0). reflexivity.
  - destruct (String.eqb_spec k0 k') as [->|Hne]; simpl.
    + rewrite (String.eqb_sym k k'). now destruct (String.eqb k' k).
    + destruct (String.eqb_spec k k') as [->|Hne'].
      * destruct (String.eqb_spec k0 k'); [congruence | reflexivity].
      * exact IH.
Qed.

Lemma Map_set_absent (k : string) (v : V) (m : Map.t V) :
  Map.get k m = None -> Map.set k v m = (m ++ [(k, v)])%list.
Proof.
  induction m as [|[k' v'] m IH]; simpl; [reflexivity|].
  destruct (String.eqb k k'); [discriminate|]. intros H. now rewrite IH.
Qed.

(** A key of the filed map holds the last element filed under it. *)
Lemma get_filed (k : string) (l : list V) : forall m,
  Map.get k (fold_left file l m) =
  match lastFiled key k l with
  | Some v => Some v
  | None => Map.get k m
  end.
Proof.
  unfold lastFiled.
  induction l as [|v l IH]; intros m; simpl; [reflexivity|].
  rewrite IH, find_append. destruct (find _ (rev l)); [reflexivity|].
  unfold file. rewrite Map_get_set_eq. simpl.
  now destruct (String.eqb (key v) k).
Qed.

(** Elements with different keys are all kept, in the order of filing. *)
Lemma values_filed (l : list V) : forall m,
  NoDup (map key l) ->
  (forall v, In v l -> Map.get (key v) m = None) ->
  fold_left file l m = (m ++ map (fun v => (key v, v)) l)%list.
Proof.
  induction l as [|v l IH]; intros m Hnd Hnew; simpl.
  - now rewrite app_nil_r.
  - inversion Hnd as [|? ? Hnotin Hnd']; subst.
    unfold file at 2. rewrite Map_set_absent by (apply Hnew; now left).
    rewrite IH; [now rewrite <- app_assoc| exact Hnd' |].
    intros v' Hin.
    assert (Hne : key v <> key v').
    { intros Heq. apply Hnotin. rewrite Heq. now apply in_map. }
    assert (Hget : forall (m0 : Map.t V) k kv,
               Map.get k (m0 ++ [kv])%list =
               match Map.get k m0 with
               | Some x => Some x
               | None => if String.eqb k (fst kv) then Some (snd kv) else None
               end).
    { induction m0 as [|[k1 v1] m0 IHm]; intros k [k2 v2]; simpl.
      - reflexivity.
      - destruct (String.eqb k k1); [reflexivity | apply IHm]. }
    rewrite Hget, (Hnew v' (or_intror Hin)). simpl.
    destruct (String.eqb_spec (key v') (key v)); [congruence | reflexivity].
Qed.

End FiledMaps.

(** ** The stack parsers *)

Lemma verifyInt_Ok (j : json) (z : Z) : verifyInt j = Ok z -> integer j z.
Proof.
  destruct j as [| | |q| | |]; cbn [verifyInt]; try discriminate.
  destruct (Z.eqb_spec (Zpos (Qden (Qred q))) 1) as [Hd|]; [|discriminate].
  intros [= <-]. exists q. split; [reflexivity|].
  rewrite <- (Qred_correct q) at 1.
  destruct (Qred q) as [n d]. cbn [Qnum Qden] in *.
  assert (d = 1%positive) as -> by congruence. reflexivity.
Qed.

Lemma verifyString_Ok (j : json) (s : string) : verifyString j = Ok s -> j = JString s.
Proof. destruct j; simpl; try discriminate. now intros [= ->]. Qed.

Lemma verifyFloat_Ok (j : json) (q : Q) : verifyFloat j = Ok q -> j = JNumber q.
Proof. destruct j; simpl; try discriminate. now intros [= ->]. Qed.

Lemma verifyObjectProperty_inv {A} (obj : json) (name : string)
    (verifier : json -> result A) (a : A) :
  verifyObjectProperty obj name verifier = Ok a ->
  exists fields, obj = JObject fields /\ verifier (property name fields) = Ok a.
Proof.
  destruct obj as [| | | | | |fields]; simpl; try discriminate.
  intros H. exists fields. split; [reflexivity|].
  destruct (verifier (property name fields)) as [a'|[m]]; [exact H | discriminate].
Qed.

(** A property that fails to verify makes the whole object fail. *)
Lemma verifyObjectProperty_Throw {A} (obj : json) (name : string)
    (verifier : json -> result A) :
  (forall fields, obj = JObject fields ->
     exists e, verifier (property name fields) = Throw e) ->
  exists e, verifyObjectProperty obj name verifier = Throw e.
Proof.
  destruct obj as [| | | | | |fields]; simpl; eauto.
  intros H. destruct (H fields eq_refl) as [[m] ->]. eauto.
Qed.

Ltac step H :=
  match type of H with
  | bind ?r _ = Ok _ =>
      let E := fresh "E" in
      destruct r eqn:E; cbn [bind] in H; [|discriminate H]
  end.

Lemma parseStackMirror_complete (obj : json) (mirror : StackMirror.t) :
  wellFormedMirror obj mirror -> parseStackMirror obj = Ok mirror.
Proof.
  intros (fields & -> & Hid & Ht & Hf & Hh & Hw & Hs & Hu & Hp).
  unfold parseStackMirror.
  rewrite (verifyObjectProperty_Ok fields "id" verifyInt (StackMirror.id mirror))
    by now apply verifyInt_integer.
  rewrite (verifyObjectProperty_Ok fields "title" verifyString
             (StackMirror.title mirror)) by now rewrite Ht.
  rewrite (verifyObjectProperty_Ok fields "file_extension" verifyString
             (StackMirror.fileExtension mirror)) by now rewrite Hf.
  rewrite (verifyObjectProperty_Ok fields "tile_height" verifyInt
             (StackMirror.tileHeight mirror)) by now apply verifyInt_integer.
  rewrite (verifyObjectProperty_Ok fields "tile_width" verifyInt
             (StackMirror.tileWidth mirror)) by now apply verifyInt_integer.
  rewrite (verifyObjectProperty_Ok fields "tile_source_type" verifyInt
             (StackMirror.tileSourceType mirror)) by now apply verifyInt_integer.
  rewrite (verifyObjectProperty_Ok fields "image_base" verifyString
             (StackMirror.url mirror)) by now rewrite Hu.
  rewrite (verifyObjectProperty_Ok fields "position" verifyInt
             (StackMirror.position mirror)) by now apply verifyInt_integer.
  cbn [bind]. now destruct mirror.
Qed.

Lemma parseStackMirror_sound (obj : json) (mirror : StackMirror.t) :
  parseStackMirror obj = Ok mirror -> wellFormedMirror obj mirror.
Proof.
  unfold parseStackMirror. intros H.
  do 8 step H. injection H as <-.
  repeat match goal with
         | E : verifyObjectProperty _ _ _ = Ok _ |- _ =>
             apply verifyObjectProperty_inv in E as (? & ? & E)
         end.
  subst obj.
  repeat match goal with
         | E : JObject _ = JObject _ |- _ => injection E as <-
         end.
  eexists. split; [reflexivity|]. cbn.
  repeat split;
    solve [ apply verifyInt_Ok; assumption | apply verifyString_Ok; assumption ].
Qed.

(** X1.  [parseStackMirror] returns a mirror exactly for an object whose
    properties [id], [tile_height], [tile_width], [tile_source_type] and
    [position] are integers and whose properties [title], [file_extension]
    and [image_base] are strings; the fields of the mirror are those values,
    with [image_base] read into [url] and [file_extension] into
    [fileExtension]. *)
Theorem parseStackMirror_reads_properties (obj : json) (mirror : StackMirror.t) :
  parseStackMirror obj = Ok mirror <-> wellFormedMirror obj mirror.
Proof.
  split; [apply parseStackMirror_sound | apply parseStackMirror_complete].
Qed.

(** X2.  An object that lacks one of the eight properties of a mirror is
    refused: [parseStackMirror] throws, whatever the other properties are. *)
Theorem parseStackMirror_missing_property (fields : list (string * json))
    (name : string) :
  In name mirrorProperties -> property name fields = JUndefined ->
  exists e, parseStackMirror (JObject fields) = Throw e.
Proof.
  intros Hin Hmiss.
  destruct (parseStackMirror (JObject fields)) as [mirror|e] eqn:E; [|eauto].
  exfalso. apply parseStackMirror_sound in E
    as (fields' & [= <-] & Hid & Ht & Hf & Hh & Hw & Hs & Hu & Hp).
  unfold integer in *.
  simpl in Hin.
  repeat (destruct Hin as [<- | Hin];
          [ rewrite Hmiss in *;
            repeat match goal with
                   | H : exists _, JUndefined = _ /\ _ |- _ =>
                       destruct H as (? & ? & _)
                   end; discriminate |]).
  exact Hin.
Qed.

(** An object without a position is not a mirror. *)
Lemma parseStackMirror_missing_property_witness :
  exists e,
    parseStackMirror
      (JObject [("id", Sample.int 5); ("title", JString "tiles");
                ("file_extension", JString "jpg"); ("tile_height", Sample.int 256);
                ("tile_width", Sample.int 512); ("tile_source_type", Sample.int 9);
                ("image_base", JString "http://tiles.example.org/")]) = Throw e.
Proof.
  apply (parseStackMirror_missing_property _ "position").
  - simpl. tauto.
  - reflexivity.
Defined.

Lemma parseElements_complete {A} (wellFormed : json -> A -> Prop)
    (parseElement : json -> result A) (objs : list json) (l : list A) :
  (forall obj a, wellFormed obj a -> parseElement obj = Ok a) ->
  Forall2 wellFormed objs l -> parseElements parseElement objs = Ok l.
Proof.
  intros Hp. induction 1 as [|obj a objs l H _ IH]; simpl; [reflexivity|].
  now rewrite (Hp _ _ H), IH.
Qed.

Lemma parseElements_Throw {A} (parseElement : json -> result A) (objs : list json)
    (obj : json) (e : error) :
  In obj objs -> parseElement obj = Throw e ->
  exists e', parseElements parseElement objs = Throw e'.
Proof.
  induction objs as [|o objs IH]; intros [] He; simpl.
  - subst o. rewrite He. destruct e. eauto.
  - destruct (parseElement o) as [a|[m]]; [|eauto].
    destruct (IH H He) as [e' ->]. simpl. eauto.
Qed.



Lemma ofZ_keys_NoDup {V} (id : V -> Z) (l : list V) :
  NoDup (map id l) -> NoDup (map (fun v => Str.ofZ (id v)) l).
Proof.
  rewrite <- (map_map id Str.ofZ). apply NoDup_map_NoDup_ForallPairs.
  intros a b _ _. apply ofZ_injective.
Qed.



(** X4.  One element of the [mirrors] array that is not a mirror makes
    [parseStackInfo] throw: no stack is returned with the other mirrors. *)
Theorem parseStackInfo_bad_mirror (fields : list (string * json))
    (mirrorObjs : list json) (obj : json) (e : error) :
  property "mirrors" fields = JArray mirrorObjs ->
  In obj mirrorObjs -> parseStackMirror obj = Throw e ->
  exists e', parseStackInfo (JObject fields) = Throw e'.
Proof.
  intros Hm Hin He. unfold parseStackInfo. cbn [verifyObject bind].
  destruct (verifyObjectVec _ "dimension" _); cbn [bind]; [|eauto].
  destruct (verifyObjectVec _ "translation" _); cbn [bind]; [|eauto].
  destruct (verifyObjectVec _ "resolution" _); cbn [bind]; [|eauto].
  destruct (verifyObjectProperty _ "num_zoom_levels" _); cbn [bind]; [|eauto].
  destruct (verifyObjectProperty _ "sid" _); cbn [bind]; [|eauto].
  destruct (verifyObjectProperty_Throw (JObject fields) "mirrors"
              (fun mirrorsArrObj => parseArray mirrorsArrObj parseStackMirror))
    as [e' ->]; [|cbn [bind]; eauto].
  intros fields' [= <-]. rewrite Hm. cbn [parseArray].
  exact (parseElements_Throw _ _ _ _ Hin He).
Qed.

(** A stack whose second mirror is [null]. *)
Lemma parseStackInfo_bad_mirror_witness :
  exists e',
    parseStackInfo
      (JObject
         [("dimension", Sample.vecJson 4096 2048 10);
          ("translation", Sample.vecJson 7 8 9);
          ("resolution", Sample.vecJson 4 4 40); ("num_zoom_levels", Sample.int (-1));
          ("sid", Sample.int 2);
          ("mirrors", JArray [Sample.mirrorJson 7 3 "third"; JNull])]) = Throw e'.
Proof.
  eapply (parseStackInfo_bad_mirror _ _ JNull).
  - reflexivity.
  - simpl. tauto.
  - reflexivity.
Defined.

(** ** Invariants of the parsed maps *)

Lemma Map_set_keys {V} (x k : string) (v : V) (m : Map.t V) :
  In x (Map.keys (Map.set k v m)) -> x = k \/ In x (Map.keys m).
Proof.
  induction m as [|[k' v'] m IH]; simpl.
  - intros [H|[]]; auto.
  - destruct (String.eqb_spec k k') as [->|Hne]; simpl; intros [H|H]; auto.
    destruct (IH H); auto.
Qed.

Lemma Map_set_unique {V} (k : string) (v : V) (m : Map.t V) :
  uniqueKeys m -> uniqueKeys (Map.set k v m).
Proof.
  unfold uniqueKeys.
  induction m as [|[k' v'] m IH]; simpl; intros Hnd.
  - repeat constructor. intros [].
  - inversion Hnd as [|? ? Hnotin Hnd']; subst.
    destruct (String.eqb_spec k k') as [->|Hne]; simpl.
    + now constructor.
    + constructor; [|now apply IH].
      intros Hin. apply Map_set_keys in Hin as [Heq|Hin]; [congruence | auto].
Qed.

Lemma Map_set_nonempty {V} (k : string) (v : V) (m : Map.t V) : Map.set k v m <> [].
Proof. destruct m as [|[k' v'] m]; simpl; [|destruct (String.eqb k k')]; discriminate. Qed.

Lemma fold_set_unique {V} (key : V -> string) (l : list V) : forall m,
  uniqueKeys m -> uniqueKeys (fold_left (fun m v => Map.set (key v) v m) l m).
Proof.
  induction l as [|v l IH]; intros m Hm; simpl; [exact Hm|].
  now apply IH, Map_set_unique.
Qed.

(** In a map without a repeated key, an entry is found under its key. *)
Lemma Map_get_In {V} (k : string) (v : V) (m : Map.t V) :
  uniqueKeys m -> In (k, v) m -> Map.get k m = Some v.
Proof.
  unfold uniqueKeys.
  induction m as [|[k' v'] m IH]; simpl; intros Hnd Hin; [contradiction|].
  destruct Hin as [H|H].
  - injection H as -> ->. now rewrite String.eqb_refl.
  - inversion Hnd as [|? ? Hnotin Hnd']; subst.
    destruct (String.eqb_spec k k') as [->|Hne]; [|now apply IH].
    exfalso. apply Hnotin. change k' with (fst (k', v)). now apply in_map.
Qed.

(** A value of a map that is keyed by id and has no repeated key is found
    under the decimal text of its id. *)
Lemma Map_get_value {V} (id : V -> Z) (v : V) (m : Map.t V) :
  keyedById id m -> uniqueKeys m -> In v (Map.values m) ->
  Map.get (Str.ofZ (id v)) m = Some v.
Proof.
  intros Hk Hu Hin. unfold Map.values in Hin.
  apply in_map_iff in Hin as ([k v'] & <- & Hin).
  unfold keyedById in Hk. rewrite Forall_forall in Hk.
  pose proof (Hk _ Hin) as Hkey. simpl in Hkey |- *. rewrite <- Hkey.
  now apply Map_get_In.
Qed.

Lemma parseProject_inv (projects projects' : Map.t ProjectInfo.t) (obj : json) :
  parseProject projects obj = Ok projects' ->
  exists id title stacks,
    projects' =
      Map.set (Str.ofZ id)
        (ProjectInfo.make id title
           (fold_left
              (fun m stack => Map.set (Str.ofZ (StackIdentifier.id stack)) stack m)
              stacks Map.empty))
        projects.
Proof.
  unfold parseProject. intros H. do 3 step H. injection H as <-.
  match goal with
  | E : verifyObjectProperty _ "stacks" _ = Ok _ |- _ =>
      apply verifyObjectProperty_inv in E as (fields & _ & E)
  end.
  step E1. injection E1 as <-. eauto.
Qed.

Lemma parseProjects_invariant (objs : list json) :
  forall projects projects',
    parseProjects projects objs = Ok projects' ->
    (projects <> [] \/ objs <> []) ->
    keyedById ProjectInfo.id projects -> uniqueKeys projects ->
    Forall (fun project =>
              keyedById StackIdentifier.id (ProjectInfo.stacks project) /\
              uniqueKeys (ProjectInfo.stacks project))
      (Map.values projects) ->
    projectsInvariant projects'.
Proof.
  induction objs as [|obj objs IH]; intros projects projects' H Hne Hk Hu Hs.
  - injection H as <-. repeat split; auto. destruct Hne; congruence.
  - cbn [parseProjects] in H. step H.
    destruct (parseProject_inv _ _ _ E) as (id & title & stacks & ->).
    apply (IH _ _ H).
    + left. apply Map_set_nonempty.
    + exact (keyedById_set ProjectInfo.id projects (ProjectInfo.make id title _) Hk).
    + now apply Map_set_unique.
    + rewrite Forall_forall in *. intros project Hin.
      unfold Map.values in Hin. apply in_map_iff in Hin as ([k p] & <- & Hin).
      apply Map_set_In in Hin as [[= _ ->]|Hin].
      * simpl. split.
        -- apply (keyedById_fold StackIdentifier.id). constructor.
        -- apply fold_set_unique. constructor.
      * apply Hs. unfold Map.values. apply in_map_iff. now exists (k, p).
Qed.

Lemma parseProjectsList_invariant (obj : json) (projectsList : Map.t ProjectInfo.t) :
  parseProjectsList obj = Ok projectsList -> projectsInvariant projectsList.
Proof.
  unfold parseProjectsList. intros H.
  destruct (parseArray obj verifyObject) as [[|o l]|]; cbn [bind] in H;
    try discriminate.
  cbn [List.length Nat.ltb Nat.leb] in H.
  apply (parseProjects_invariant _ _ _ H).
  - right. discriminate.
  - constructor.
  - constructor.
  - constructor.
Qed.

Lemma parseStackInfo_invariant (obj : json) (stackInfo : StackInfo.t) :
  parseStackInfo obj = Ok stackInfo ->
  keyedById StackMirror.id (StackInfo.mirrors stackInfo) /\
  uniqueKeys (StackInfo.mirrors stackInfo).
Proof.
  unfold parseStackInfo. intros H. do 7 step H. injection H as <-. simpl. split.
  - apply (keyedById_fold StackMirror.id). constructor.
  - apply fold_set_unique. constructor.
Qed.

(** X5.  Whatever the server answers, a projects list that
    [parseProjectsList] returns is not empty, files every project and every
    stack under the decimal text of its id, and has no key twice. *)
Theorem parseProjectsList_keeps_invariant (obj : json)
    (projectsList : Map.t ProjectInfo.t) :
  parseProjectsList obj = Ok projectsList -> projectsInvariant projectsList.
Proof.
  unfold parseProjectsList. intros H.
  destruct (parseArray obj verifyObject) as [[|o l]|]; cbn [bind] in H;
    try discriminate.
  cbn [List.length Nat.ltb Nat.leb] in H.
  apply (parseProjects_invariant (o :: l) Map.empty projectsList H).
  - right. discriminate.
  - constructor.
  - constructor.
  - constructor.
Qed.

Lemma parseProjectsList_keeps_invariant_witness :
  exists projectsList,
    parseProjectsList Sample.projectsJson = Ok projectsList /\
    projectsInvariant projectsList.
Proof.
  eexists. split; [reflexivity|].
  apply (parseProjectsList_keeps_invariant Sample.projectsJson). reflexivity.
Defined.

Lemma parseProject_complete (projects : Map.t ProjectInfo.t) (obj : json)
    (project : ProjectInfo.t) :
  describesProject obj project ->
  parseProject projects obj =
    Ok (Map.set (Str.ofZ (ProjectInfo.id project)) project projects).
Proof.
  intros (stacks & (fields & stackObjs & -> & Hid & Ht & Hs & Hstacks) & Hmap).
  unfold parseProject.
  rewrite (verifyObjectProperty_Ok fields "id" verifyInt (ProjectInfo.id project))
    by now apply verifyInt_integer.
  rewrite (verifyObjectProperty_Ok fields "title" verifyString
             (ProjectInfo.title project)) by now rewrite Ht.
  cbn [bind].
  rewrite (verifyObjectProperty_Ok fields "stacks" _ (ProjectInfo.stacks project)).
  - cbn [bind]. now destruct project.
  - rewrite Hs. cbn [parseArray].
    rewrite (parseElements_wellFormed _ _ Hstacks). cbn [bind]. now rewrite Hmap.
Qed.

Lemma parseProjects_complete (objs : list json) (l : list ProjectInfo.t) :
  Forall2 describesProject objs l ->
  forall projects,
    parseProjects projects objs =
      Ok (fold_left
            (fun m project => Map.set (Str.ofZ (ProjectInfo.id project)) project m)
            l projects).
Proof.
  induction 1 as [|obj project objs l H _ IH]; intros projects; simpl; [reflexivity|].
  rewrite (parseProject_complete _ _ _ H). cbn [bind]. apply IH.
Qed.

Lemma describesProject_object (obj : json) (project : ProjectInfo.t) :
  describesProject obj project -> verifyObject obj = Ok obj.
Proof. intros (stacks & (fields & stackObjs & -> & _) & _). reflexivity. Qed.

(** X6.  On an array of one or more well-formed projects
    [parseProjectsList] returns the projects filed under the decimal text of
    their ids: a key holds the last project of the array with that id, and
    when no id occurs twice the map holds the projects in the order of the
    array. *)
Theorem parseProjectsList_files_projects (objs : list json)
    (projects : list ProjectInfo.t) :
  objs <> [] -> Forall2 describesProject objs projects ->
  exists projectsList,
    parseProjectsList (JArray objs) = Ok projectsList /\
    (forall k,
       Map.get k projectsList =
       lastFiled (fun p => Str.ofZ (ProjectInfo.id p)) k projects) /\
    (NoDup (map ProjectInfo.id projects) ->
     projectsList = map (fun p => (Str.ofZ (ProjectInfo.id p), p)) projects /\
     Map.values projectsList = projects).
Proof.
  intros Hne Hall. eexists. split; [|split].
  - unfold parseProjectsList. cbn [parseArray].
    rewrite (parseElements_complete (fun obj obj' => obj' = obj /\
                                       exists p, describesProject obj p)
               verifyObject objs objs).
    + cbn [bind]. destruct objs as [|o objs]; [congruence|].
      cbn [List.length Nat.ltb Nat.leb].
      apply (parseProjects_complete _ _ Hall).
    + intros obj a [-> [p Hp]]. exact (describesProject_object _ _ Hp).
    + clear Hne. induction Hall; constructor; eauto.
  - intros k.
    rewrite (get_filed (fun p => Str.ofZ (ProjectInfo.id p)) k projects Map.empty).
    now destruct (lastFiled _ k projects).
  - intros Hnd.
    rewrite (values_filed (fun p => Str.ofZ (ProjectInfo.id p)) projects Map.empty)
      by (try apply ofZ_keys_NoDup; auto).
    split; [reflexivity|].
    unfold Map.values. simpl. rewrite map_map. simpl. apply map_id.
Qed.

(** The projects list of the sample server. *)
Lemma parseProjectsList_files_projects_witness :
  exists projectsList,
    parseProjectsList Sample.projectsJson = Ok projectsList /\
    Map.keys projectsList = ["1"] /\
    map ProjectInfo.title (Map.values projectsList) = ["Project one"].
Proof.
  destruct (parseProjectsList_files_projects
              [JObject
                 [("id", Sample.int 1); ("title", JString "Project one");
                  ("stacks",
                   JArray
                     [JObject [("id", Sample.int 2); ("title", JString "Stack two");
                               ("comment", JString "raw")];
                      JObject [("id", Sample.int 30); ("title", JString "Stack thirty");
                               ("comment", JString "aligned")]])]]
              [ProjectInfo.make 1 "Project one"
                 [("2", StackIdentifier.make 2 "Stack two" "raw");
                  ("30", StackIdentifier.make 30 "Stack thirty" "aligned")]])
    as (projectsList & Hparse & _ & Hvalues).
  - discriminate.
  - repeat constructor.
    exists [StackIdentifier.make 2 "Stack two" "raw";
            StackIdentifier.make 30 "Stack thirty" "aligned"].
    split; [|reflexivity].
    eexists _, _. split; [reflexivity|].
    split; [eexists; split; reflexivity|].
    split; [reflexivity|]. split; [reflexivity|].
    repeat constructor;
      (eexists; split; [reflexivity|];
       split; [eexists; split; reflexivity | split; reflexivity]).
  - exists projectsList. split; [exact Hparse|].
    destruct Hvalues as [-> _]; [repeat constructor; simpl; tauto|].
    split; reflexivity.
Defined.

(** ** Parsed metadata and its users *)

Lemma Map_get_Some_In {V} (k : string) (v : V) (m : Map.t V) :
  Map.get k m = Some v -> In (k, v) m.
Proof.
  induction m as [|[k' v'] m IH]; simpl; [discriminate|].
  destruct (String.eqb_spec k k') as [->|Hne].
  - intros [= ->]. now left.
  - intros H. right. now apply IH.
Qed.

(** A key of a map that is keyed by id is the decimal text of the id of
    the value it holds. *)
Lemma Map_get_keyed {V} (id : V -> Z) (k : string) (v : V) (m : Map.t V) :
  keyedById id m -> Map.get k m = Some v -> k = Str.ofZ (id v) /\ In v (Map.values m).
Proof.
  intros Hk Hget. apply Map_get_Some_In in Hget.
  unfold keyedById in Hk. rewrite Forall_forall in Hk.
  split; [exact (Hk _ Hget)|].
  unfold Map.values. apply in_map_iff. now exists (k, v).
Qed.

Section ParsedLists.

Context `{Env : Environment}.

(** X7.  On a projects list that was parsed, [autoCompleteStack] answers
    for every project of the list when it is asked by the decimal text of
    the id of the project, with the stacks of that project as candidates; for
    any other text it throws. *)
Theorem autoCompleteStack_finds_listed_projects (obj : json)
    (projectsList : Map.t ProjectInfo.t) (stackIdPartial : string) (offset0 : Z) :
  parseProjectsList obj = Ok projectsList ->
  (forall project,
     In project (Map.values projectsList) ->
     autoCompleteStack stackIdPartial (Str.ofZ (ProjectInfo.id project)) offset0
       projectsList =
     Ok {| offset := offset0;
           completions :=
             getPrefixMatchesWithDescriptions _ stackIdPartial
               (Map.values (ProjectInfo.stacks project))
               (fun x => Str.ofZ (StackIdentifier.id x) ++ "/")
               (fun x => StackIdentifier.title x ++ ": " ++ StackIdentifier.comment x)
        |}) /\
  (forall projectId,
     (forall project, In project (Map.values projectsList) ->
                      projectId <> Str.ofZ (ProjectInfo.id project)) ->
     autoCompleteStack stackIdPartial projectId offset0 projectsList =
     Throw (Error ("Unable to find project " ++ projectId ++ " in projects list"))).
Proof.
  intros Hparse.
  destruct (parseProjectsList_invariant _ _ Hparse) as (_ & Hk & Hu & _).
  split.
  - intros project Hin. unfold autoCompleteStack.
    now rewrite (Map_get_value ProjectInfo.id project projectsList Hk Hu Hin).
  - intros projectId Hnone. unfold autoCompleteStack.
    destruct (Map.get projectId projectsList) as [project|] eqn:Hget; [|reflexivity].
    destruct (Map_get_keyed ProjectInfo.id _ _ _ Hk Hget) as [Hkey Hin].
    now destruct (Hnone project Hin).
Qed.

End ParsedLists.

(** With the sample projects list, project 1 offers its two stacks and
    project 3 is refused. *)
Lemma autoCompleteStack_finds_listed_projects_witness :
  (exists c,
     autoCompleteStack (Env := Sample.environment) "" "1" 19 
       [("1", ProjectInfo.make 1 "Project one"
                [("2", StackIdentifier.make 2 "Stack two" "raw");
                 ("30", StackIdentifier.make 30 "Stack thirty" "aligned")])] = Ok c /\
     map value (completions c) = ["2/"; "30/"]) /\
  autoCompleteStack (Env := Sample.environment) "" "3" 19
    [("1", ProjectInfo.make 1 "Project one"
             [("2", StackIdentifier.make 2 "Stack two" "raw");
              ("30", StackIdentifier.make 30 "Stack thirty" "aligned")])] =
  Throw (Error "Unable to find project 3 in projects list").
Proof.
  destruct (autoCompleteStack_finds_listed_projects (Env := Sample.environment)
              Sample.projectsJson
              [("1", ProjectInfo.make 1 "Project one"
                       [("2", StackIdentifier.make 2 "Stack two" "raw");
                        ("30", StackIdentifier.make 30 "Stack thirty" "aligned")])]
              "" 19 eq_refl) as [Hfound Hnone].
  split.
  - eexists. split.
    + apply (Hfound (ProjectInfo.make 1 "Project one"
                       [("2", StackIdentifier.make 2 "Stack two" "raw");
                        ("30", StackIdentifier.make 30 "Stack thirty" "aligned")])).
      simpl. tauto.
    + reflexivity.
  - apply (Hnone "3"). intros project [<-|[]]. discriminate.
Defined.

Section OfferedMirrors.

Variable VolumeSourceOptions : Type.

(** X8.  For a stack that was parsed, [getSources] builds the pyramid of
    every mirror that [autoCompleteMirror] offers, when the mirror is named
    by the decimal text of its id, and throws for any other name. *)
Theorem getSources_finds_offered_mirrors (obj : json) (stackInfo : StackInfo.t)
    (url mirrorId : string) (vso : VolumeSourceOptions) :
  parseStackInfo obj = Ok stackInfo ->
  let this := MultiscaleTileSource.make url stackInfo mirrorId JPEG in
  (forall mirror fuel,
     In mirror (mirrorCandidates (StackInfo.mirrors stackInfo)) ->
     mirrorId = Str.ofZ (StackMirror.id mirror) ->
     (List.length (levelsUpTo (effectiveNumLevels stackInfo)) < fuel)%nat ->
     getSources fuel this vso =
     Some (Ok (map (fun level => [levelSource this mirror vso level])
                 (levelsUpTo (effectiveNumLevels stackInfo))))) /\
  ((forall mirror, In mirror (mirrorCandidates (StackInfo.mirrors stackInfo)) ->
                   mirrorId <> Str.ofZ (StackMirror.id mirror)) ->
   forall fuel,
     getSources fuel this vso =
     Some (Throw (Error ("Unable to find mirror " ++ mirrorId ++ " for stack")))).
Proof.
  intros Hparse this.
  destruct (parseStackInfo_invariant _ _ Hparse) as [Hk Hu].
  assert (Hcand : forall mirror,
            In mirror (mirrorCandidates (StackInfo.mirrors stackInfo)) <->
            In mirror (Map.values (StackInfo.mirrors stackInfo))).
  { intros mirror. unfold mirrorCandidates. split; apply Permutation_in;
      [|symmetry]; apply (Array_sort_Permutation StackMirror.position). }
  split.
  - intros mirror fuel Hin -> Hfuel.
    apply getSources_levels; [|exact Hfuel].
    apply (Map_get_value StackMirror.id); auto. now apply Hcand.
  - intros Hnone fuel. unfold getSources. cbn [MultiscaleTileSource.stackInfo
      MultiscaleTileSource.mirrorId this].
    destruct (Map.get mirrorId (StackInfo.mirrors stackInfo)) as [mirror|] eqn:Hget;
      [|reflexivity].
    destruct (Map_get_keyed StackMirror.id _ _ _ Hk Hget) as [Hkey Hin].
    apply Hcand in Hin. now destruct (Hnone mirror Hin).
Qed.

End OfferedMirrors.

(** The stack of the sample server: the mirror 5 has a pyramid of the
    levels 0, 1 and 2, and there is no mirror 8. *)
Lemma getSources_finds_offered_mirrors_witness :
  exists stackInfo,
    parseStackInfo Sample.stackJson = Ok stackInfo /\
    (exists sources,
       getSources 4 (MultiscaleTileSource.make "http://example.org" stackInfo "5" JPEG) tt
         = Some (Ok sources) /\
       map (map (fun e => zoomLevel (parameters e))) sources = [[0]; [1]; [2]]%Z) /\
    getSources 4 (MultiscaleTileSource.make "http://example.org" stackInfo "8" JPEG) tt
      = Some (Throw (Error "Unable to find mirror 8 for stack")).
Proof.
  eexists. split; [reflexivity|].
  match goal with
  | |- context [ MultiscaleTileSource.make _ ?info _ _ ] =>
      destruct (getSources_finds_offered_mirrors unit Sample.stackJson info
                  "http://example.org" "5" tt eq_refl) as [Hfound _];
      destruct (getSources_finds_offered_mirrors unit Sample.stackJson info
                  "http://example.org" "8" tt eq_refl) as [_ Hnone]
  end.
  split.
  - eexists. split.
    + apply (Hfound Sample.first); [vm_compute; tauto | reflexivity | vm_compute; lia].
    + reflexivity.
  - apply Hnone. intros mirror Hin.
    vm_compute in Hin. destruct Hin as [<-|[<-|[<-|[]]]]; discriminate.
Defined.

(** ** Stacks without a level *)

Lemma Math_log2_sign (d : Z) :
  Math_log2 (inject_Z d / 1024) =
  match d with
  | Zpos _ => Log2Of (inject_Z d / 1024)
  | Z0 => LogNegInfinity
  | Zneg _ => LogNaN
  end.
Proof. now destruct d. Qed.

Lemma half_extent (d : Z) : (inject_Z d / 1024 <= 2 ^ (-1))%Q <-> (d <= 512)%Z.
Proof. unfold Qle. cbn. lia. Qed.

Lemma levelsUpTo_nil (k : Z) : levelsUpTo (Finite k) = [] <-> (k <= -1)%Z.
Proof.
  simpl. split.
  - intros H. apply (f_equal (@List.length Z)) in H.
    rewrite length_map, length_seq in H. simpl in H. lia.
  - intros H. now replace (Z.to_nat (k + 1)) with 0%nat by lia.
Qed.

(** With the top level derived from the extent, there is no level at all
    exactly when an extent is negative or both are at most 512. *)
Lemma auto_levels_nil (dx dy : Z) :
  levelsUpTo (Math_ceil (Math_max (Math_log2 (inject_Z dx / 1024))
                                  (Math_log2 (inject_Z dy / 1024)))) = [] <->
  (dx < 0 \/ dy < 0 \/ (dx <= 512 /\ dy <= 512))%Z.
Proof.
  destruct (Z.lt_trichotomy dx 0) as [Hx|[Hx|Hx]];
    destruct (Z.lt_trichotomy dy 0) as [Hy|[Hy|Hy]].
  1-3: rewrite (Math_log2_sign dx); destruct dx; try lia;
       split; [intros _; lia | reflexivity].
  1,4: rewrite (Math_log2_sign dx), (Math_log2_sign dy); destruct dx, dy; try lia;
       split; [intros _; lia | reflexivity].
  - subst. split; [intros _; lia | reflexivity].
  - subst dx. destruct (Math_log2_positive dy Hy) as [-> Hpos]. cbn [Math_log2 Math_max
      Math_ceil inject_Z Qdiv Qmult Qnum Qinv Qden Z.mul].
    rewrite levelsUpTo_nil, <- (ceil_log2_le_iff _ _ Hpos), half_extent. lia.
  - subst dy. destruct (Math_log2_positive dx Hx) as [-> Hpos]. cbn [Math_log2 Math_max
      Math_ceil inject_Z Qdiv Qmult Qnum Qinv Qden Z.mul].
    rewrite levelsUpTo_nil, <- (ceil_log2_le_iff _ _ Hpos), half_extent. lia.
  - destruct (auto_top_level dx dy Hx Hy) as (k & -> & Hk).
    rewrite levelsUpTo_nil, (Hk (-1)%Z), !half_extent. lia.
Qed.

Section PyramidEdges.

Variable VolumeSourceOptions : Type.

(** X9.  When the number of zoom levels is derived from the extent
    ([zoomLevels] negative), [getSources] returns an empty pyramid, without
    even the level 0, exactly when the x or the y extent is negative or both
    are at most 512. *)
Theorem getSources_empty_pyramid (this : MultiscaleTileSource.t)
    (vso : VolumeSourceOptions) (mirror : StackMirror.t) :
  let stackInfo := MultiscaleTileSource.stackInfo this in
  let dx := vec3.get (StackInfo.dimension stackInfo) 0 in
  let dy := vec3.get (StackInfo.dimension stackInfo) 1 in
  (StackInfo.zoomLevels stackInfo < 0)%Z ->
  Map.get (MultiscaleTileSource.mirrorId this) (StackInfo.mirrors stackInfo)
    = Some mirror ->
  (forall fuel, (0 < fuel)%nat -> getSources fuel this vso = Some (Ok [])) <->
  (dx < 0 \/ dy < 0 \/ (dx <= 512 /\ dy <= 512))%Z.
Proof.
  intros stackInfo dx dy Hz Hm.
  assert (Htop : effectiveNumLevels stackInfo =
                 Math_ceil (Math_max (Math_log2 (inject_Z dx / 1024))
                                     (Math_log2 (inject_Z dy / 1024)))).
  { unfold effectiveNumLevels. fold stackInfo.
    destruct (Z.ltb_spec (StackInfo.zoomLevels stackInfo) 0); [reflexivity | lia]. }
  rewrite <- auto_levels_nil, <- Htop. split.
  - intros H.
    specialize (H (S (List.length (levelsUpTo (effectiveNumLevels stackInfo))))
                  (Nat.lt_0_succ _)).
    rewrite (getSources_levels this vso mirror) in H by (auto; lia).
    injection H as H. fold stackInfo in H.
    now destruct (levelsUpTo (effectiveNumLevels stackInfo)).
  - intros Hnil fuel Hfuel.
    rewrite (getSources_levels this vso mirror);
      fold stackInfo; rewrite ?Hnil; simpl; auto.
Qed.

(** X10.  Every source of the pyramid carries the parameters of the
    mirror that was asked for: its url, tile height, tile width and tile
    source type; the encoding is the one of the volume, there is one channel
    of unsigned bytes, no zoom level is negative, and the options of the
    viewer are handed through. *)
Theorem getSources_tile_parameters (url mirrorId : string) (stackInfo : StackInfo.t)
    (this : MultiscaleTileSource.t) (vso : VolumeSourceOptions)
    (mirror : StackMirror.t) (fuel : nat) :
  MultiscaleTileSource.new url (Some stackInfo) mirrorId = Ok this ->
  Map.get mirrorId (StackInfo.mirrors stackInfo) = Some mirror ->
  (List.length (levelsUpTo (effectiveNumLevels stackInfo)) < fuel)%nat ->
  exists sources,
    getSources fuel this vso = Some (Ok sources) /\
    Forall (fun alternatives =>
              exists e,
                alternatives = [e] /\
                sourceBaseUrls (parameters e) = StackMirror.url mirror /\
                tileHeight (parameters e) = StackMirror.tileHeight mirror /\
                tileWidth (parameters e) = StackMirror.tileWidth mirror /\
                tileSourceType (parameters e) = StackMirror.tileSourceType mirror /\
                encoding (parameters e) = JPEG /\
                (0 <= zoomLevel (parameters e))%Z /\
                numChannels (spec e) = 1%Z /\ dataType (spec e) = UINT8 /\
                volumeSourceOptions (spec e) = vso)
      sources.
Proof.
  intros [= <-] Hm Hfuel. eexists. split.
  - apply (getSources_levels _ vso mirror); assumption.
  - cbn [MultiscaleTileSource.stackInfo]. apply Forall_forall.
    intros group Hin. apply in_map_iff in Hin as (level & <- & Hin).
    eexists. split; [reflexivity|]. cbn. repeat split.
    destruct (effectiveNumLevels stackInfo); simpl in Hin; try contradiction.
    apply in_map_iff in Hin as (i & <- & _). lia.
Qed.

End PyramidEdges.

(** A stack of 512 by 300 pixels has no level; the volume of the sample
    stack has sources. *)
Lemma getSources_empty_pyramid_witness :
  getSources 1 (Sample.source (-1) (512, 300, 10)%Z "5") tt = Some (Ok []).
Proof.
  apply (getSources_empty_pyramid unit (Sample.source (-1) (512, 300, 10)%Z "5") tt
           Sample.mirror); [reflexivity | reflexivity | simpl; lia | lia].
Defined.

Lemma getSources_tile_parameters_witness :
  exists sources,
    getSources 4 (Sample.source (-1) (4096, 2048, 10)%Z "5") tt = Some (Ok sources) /\
    List.length sources = 3%nat.
Proof.
  destruct (getSources_tile_parameters unit "http://example.org" "5"
              (Sample.stack (-1) (4096, 2048, 10)%Z)
              (Sample.source (-1) (4096, 2048, 10)%Z "5") tt Sample.mirror 4)
    as (sources & Hs & _); [reflexivity | reflexivity | vm_compute; lia |].
  exists sources. split; [exact Hs|].
  vm_compute in Hs. injection Hs as <-. reflexivity.
Defined.

(** ** The patterns with a host *)

Module HostPatterns.
Import RegExp RegExpFacts.

(** A greedy repetition that cannot stop early runs to the first character
    outside the class. *)
Lemma greedy_until (p : ascii -> bool) (k : cont) (rest : string) :
  (forall a r, rest = String a r -> p a = false) ->
  (forall pos a r c, p a = true -> k pos (String a r) c = None) ->
  forall w pos c,
    Str.all p w = true ->
    greedy p pos (w ++ rest) c k = k (pos + String.length w)%nat rest c.
Proof.
  intros Hstop Hfail. induction w as [|x w IH]; intros pos c Hw; simpl.
  - rewrite Nat.add_0_r. destruct rest as [|a r]; [reflexivity|].
    simpl. now rewrite (Hstop a r eq_refl).
  - simpl in Hw. apply andb_prop in Hw as [Hx Hw]. rewrite Hx, (IH _ _ Hw).
    rewrite <- Nat.add_succ_comm.
    destruct (k (S pos + String.length w)%nat rest c) eqn:E; [reflexivity|].
    now apply Hfail.
Qed.

Lemma plus_until (p : ascii -> bool) (k : cont) (w rest : string) (pos : nat)
    (c : captures) :
  (forall a r, rest = String a r -> p a = false) ->
  (forall pos a r c, p a = true -> k pos (String a r) c = None) ->
  w <> "" -> Str.all p w = true ->
  run (Plus p) pos (w ++ rest) c k = k (pos + String.length w)%nat rest c.
Proof.
  intros Hstop Hfail Hne Hw. destruct w as [|x w]; [congruence|].
  simpl in Hw |- *. apply andb_prop in Hw as [Hx Hw]. rewrite Hx.
  rewrite (greedy_until p k rest Hstop Hfail w _ _ Hw).
  now rewrite <- Nat.add_succ_comm.
Qed.

(** A string is all in a class, or has a first character outside it. *)
Lemma all_or_first (p : ascii -> bool) (s : string) :
  Str.all p s = true \/
  exists w a r, s = w ++ String a r /\ Str.all p w = true /\ p a = false.
Proof.
  induction s as [|x s IH]; [now left|]. simpl.
  destruct (p x) eqn:Hx.
  - destruct IH as [->|(w & a & r & -> & Hw & Ha)]; [now left|].
    right. exists (String x w), a, r. simpl. now rewrite Hx, Hw.
  - right. exists "", x, s. auto.
Qed.

(** [( .* )$] takes the whole rest of the input, which must be free of line
    terminators. *)
Lemma restOfLine_run (pos : nat) (s : string) (c : captures) (k : cont) :
  run restOfLine pos s c k =
  if Str.all dot s then k (pos + String.length s)%nat "" ((2%nat, s) :: c) else None.
Proof.
  unfold restOfLine. cbn [run].
  destruct (all_or_first dot s) as [Hs|(w & a & r & -> & Hw & Ha)].
  - rewrite Hs. rewrite <- (append_nil_r s) at 1.
    rewrite greedy_until; try assumption; try discriminate.
    + cbn. replace (pos + String.length s - pos)%nat with (String.length s) by lia.
      pose proof (take_append s "") as Ht. rewrite append_nil_r in Ht.
      now rewrite Ht.
    + intros. reflexivity.
  - rewrite all_append. simpl. rewrite Hw, Ha. simpl.
    rewrite greedy_until; try assumption.
    + reflexivity.
    + now intros a' r' [= -> ->].
    + intros. reflexivity.
Qed.

(** The host is what stands between the scheme and the first slash. *)
Lemma host_run (f : nat -> captures -> captures) (tail : regex) (k : cont)
    (host rest : string) (pos : nat) (c : captures) :
  host <> "" -> Str.all not_slash_question host = true ->
  run (Plus not_slash_question) pos (host ++ "/" ++ rest) c
    (fun pos' s' c' => run (Cat (Lit "/") tail) pos' s' (f pos' c') k) =
  run tail (pos + String.length host + 1)%nat rest (f (pos + String.length host)%nat c) k.
Proof.
  intros Hne Hh. rewrite plus_until; try assumption.
  - reflexivity.
  - now intros a r [= <- _].
  - intros pos' a r c' Ha. cbn [run Str.strip_prefix].
    unfold not_slash_question, slash in Ha.
    destruct (Ascii.eqb_spec "/"%char a) as [<-|]; [discriminate | reflexivity].
Qed.

(** The scheme is matched in one way. *)
Lemma scheme_run (scheme0 s : string) (pos : nat) (c : captures) (k : cont) :
  scheme0 = "http" \/ scheme0 = "https" ->
  run scheme pos (scheme0 ++ "://" ++ s) c k =
  k (pos + String.length scheme0 + 3)%nat s c.
Proof.
  intros [-> | ->]; cbn.
  - now destruct (k (pos + 4 + 3)%nat s c).
  - reflexivity.
Qed.

(** A pattern that starts with [^((?:http|https):\/\/[^\/?]+)\/] reads the
    scheme and the host, and goes on after the slash. *)
Lemma hosted_exec (tail : regex) (scheme0 host rest : string) :
  (scheme0 = "http" \/ scheme0 = "https") -> host <> "" ->
  Str.all not_slash_question host = true ->
  let url := scheme0 ++ "://" ++ host in
  exec (Cat Bol (Cat (Group 1 (Cat scheme (Plus not_slash_question)))
                   (Cat (Lit "/") tail)))
    (url ++ "/" ++ rest) =
  run tail (String.length url + 1)%nat rest [(1%nat, url)]
    (matched (url ++ "/" ++ rest)).
Proof.
  intros Hs Hne Hh url. rewrite exec_anchored.
  set (s := url ++ "/" ++ rest).
  change (run (Group 0 _) 0 s [] accept) with
    (run scheme 0 s []
       (fun p1 s1 c1 =>
          run (Plus not_slash_question) p1 s1 c1
            (fun p' s'' c'' =>
               run (Cat (Lit "/") tail) p' s''
                 ((fun p c0 => (1%nat, Str.take (p - 0) s) :: c0) p' c'')
                 (matched s)))).
  assert (Hs' : s = scheme0 ++ "://" ++ host ++ "/" ++ rest)
    by (subst s url; now rewrite !append_assoc).
  rewrite Hs' at 1.
  rewrite (scheme_run scheme0 _ 0 [] _ Hs).
  rewrite (host_run _ tail _ host rest _ _ Hne Hh).
  rewrite Nat.sub_0_r.
  replace (0 + String.length scheme0 + 3 + String.length host)%nat
    with (String.length url)
    by (subst url; rewrite !length_append; simpl; lia).
  subst s. now rewrite take_append.
Qed.

(** The matches of the pattern of [volumeCompleter]. *)
Lemma urlPattern_exec (scheme0 host rest : string) :
  (scheme0 = "http" \/ scheme0 = "https") -> host <> "" ->
  Str.all not_slash_question host = true ->
  let url := scheme0 ++ "://" ++ host in
  exec urlPattern (url ++ "/" ++ rest) =
  if Str.all dot rest
  then Some [(0%nat, url ++ "/" ++ rest); (2%nat, rest); (1%nat, url)]
  else None.
Proof.
  intros Hs Hne Hh url.
  change urlPattern with
    (Cat Bol (Cat (Group 1 (Cat scheme (Plus not_slash_question)))
                (Cat (Lit "/") restOfLine))).
  pose proof (hosted_exec restOfLine scheme0 host rest Hs Hne Hh) as Hexec.
  cbv zeta in Hexec. fold url in Hexec. rewrite Hexec.
  rewrite restOfLine_run. destruct (Str.all dot rest); [|reflexivity].
  unfold matched, accept. rewrite Nat.sub_0_r.
  replace (String.length url + 1 + String.length rest)%nat
    with (String.length (url ++ "/" ++ rest))
    by (rewrite !length_append; simpl; lia).
  pose proof (take_append (url ++ "/" ++ rest) "") as Ht.
  rewrite append_nil_r in Ht. now rewrite Ht.
Qed.

(** The optional segment is taken when there is one. *)
Lemma optionalSegment_taken (pos : nat) (segment project : string) (c : captures)
    (k : cont) :
  segment <> "" -> Str.all not_slash_question segment = true ->
  Str.all dot project = true ->
  (forall pos' s' c', k pos' s' c' <> None) ->
  run (Cat optionalSegment restOfLine) pos (segment ++ "/" ++ project) c k =
  k (pos + String.length (segment ++ "/" ++ project))%nat "" ((2%nat, project) :: c).
Proof.
  intros Hne Hseg Hp Hk.
  change (run (Cat optionalSegment restOfLine) pos (segment ++ "/" ++ project) c k)
    with
    (match run (Plus not_slash_question) pos (segment ++ "/" ++ project) c
             (fun pos' s' c' =>
                run (Cat (Lit "/") restOfLine) pos' s' c' k)
     with
     | Some res => Some res
     | None => run (Lit "") pos (segment ++ "/" ++ project) c
                 (fun pos' s' c' => run restOfLine pos' s' c' k)
     end).
  pose proof (host_run (fun _ c0 => c0) restOfLine k segment project pos c Hne Hseg)
    as Hrun.
  cbv beta in Hrun. rewrite Hrun.
  rewrite restOfLine_run, Hp.
  replace (pos + String.length segment + 1 + String.length project)%nat
    with (pos + String.length (segment ++ "/" ++ project))%nat
    by (rewrite !length_append; simpl; lia).
  destruct (k _ "" ((2%nat, project) :: c)) eqn:E; [reflexivity|].
  now apply Hk in E.
Qed.

(** Without a segment to take, the rest of the url is the project. *)
Lemma optionalSegment_left (pos : nat) (project : string) (c : captures) (k : cont) :
  Str.all not_slash_question project = true ->
  run (Cat optionalSegment restOfLine) pos project c k =
  if Str.all dot project
  then k (pos + String.length project)%nat "" ((2%nat, project) :: c)
  else None.
Proof.
  intros Hp.
  change (run (Cat optionalSegment restOfLine) pos project c k)
    with
    (match run (Plus not_slash_question) pos project c
             (fun pos' s' c' => run (Cat (Lit "/") restOfLine) pos' s' c' k)
     with
     | Some res => Some res
     | None => run (Lit "") pos project c
                 (fun pos' s' c' => run restOfLine pos' s' c' k)
     end).
  assert (Hnone : run (Plus not_slash_question) pos project c
                    (fun pos' s' c' => run (Cat (Lit "/") restOfLine) pos' s' c' k)
                  = None).
  { destruct project as [|x project]; [reflexivity|].
    rewrite <- (append_nil_r (String x project)).
    rewrite plus_until; try assumption; try discriminate.
    - reflexivity.
    - intros pos' a r c' Ha. cbn [run Str.strip_prefix].
      unfold not_slash_question, slash in Ha.
      destruct (Ascii.eqb_spec "/"%char a) as [<-|]; [discriminate | reflexivity]. }
  rewrite Hnone. cbn [run Str.strip_prefix String.length].
  rewrite Nat.add_0_r. apply restOfLine_run.
Qed.

(** The matches of the pattern of [getSkeletonSourceParameters]. *)
Lemma skeletonSourcePattern_match (url : string) (m : captures) :
  exec skeletonSourcePattern url = Some m ->
  skeletonUrl url /\ capture 1 m <> None /\ capture 2 m <> None.
Proof.
  intros H. unfold skeletonSourcePattern in H.
  apply exec_sound in H as (w & rest0 & c1 & -> & Hd & ->).
  simpl in Hd. PathPatterns.break.
  match goal with
  | Ho : _ \/ _ = "" /\ _ |- _ => destruct Ho as [Ho|[Ho Ho']]
  end; PathPatterns.break; subst;
    (split; [|split; simpl; discriminate]);
    match goal with
    | |- skeletonUrl ((((?s ++ "://") ++ ?h) ++ "/" ++ ?o ++ ?r ++ "") ++ "") =>
        exists s, h, o, r
    end;
    rewrite !append_nil_r, !append_assoc; simpl;
    (repeat split; try assumption; try tauto);
    right; eexists; repeat split; eassumption.
Qed.

Lemma skeletonSourcePattern_complete (url : string) :
  skeletonUrl url -> exists m, exec skeletonSourcePattern url = Some m.
Proof.
  intros (scheme0 & host & skipped & project & Hs & Hne & Hh & Hsk & Hp & ->).
  set (u := scheme0 ++ "://" ++ host).
  set (c1 := [(1%nat, u)]).
  rewrite <- (append_nil_r (scheme0 ++ _)).
  apply (exec_complete _ (scheme0 ++ "://" ++ host ++ "/" ++ skipped ++ project) ""
           ((2%nat, project) :: c1)).
  simpl.
  exists u, ("/" ++ skipped ++ project), c1.
  split; [subst u; now rewrite !append_assoc|]. split.
  { exists []. split; [|reflexivity].
    exists (scheme0 ++ "://"), host, []. split; [subst u; now rewrite append_assoc|].
    split; [|auto].
    exists scheme0, "://", []. split; [reflexivity|]. split; [tauto | auto]. }
  exists "/", (skipped ++ project), c1. split; [reflexivity|]. split; [auto|].
  exists skipped, project, c1. split; [reflexivity|]. split.
  { destruct Hsk as [->|(segment & Hn & Ha & ->)]; [right; auto|].
    left. exists segment, "/", c1. auto. }
  exists project, "", ((2%nat, project) :: c1).
  split; [now rewrite append_nil_r|]. split; [eauto|]. auto.
Qed.

End HostPatterns.

(** ** Memoized fetches, case by case *)

Section FetchCases.

Context `{Env : Environment}.

(** A call of [getProjectsList] either finds the list in the memo table and
    leaves the world alone, or issues one request; the list it then returns
    was parsed from the answer and is stored. *)
Lemma getProjectsList_cases (hostnames : list string) (w : World) :
  (exists projectsList,
     lookup hostnames_eqb hostnames (projectsLists w) = Some projectsList /\
     getProjectsList hostnames w = (Fulfilled projectsList, w)) \/
  (lookup hostnames_eqb hostnames (projectsLists w) = None /\
   exists o w',
     getProjectsList hostnames w = (o, w') /\
     requests w' = (requests w ++ [projectsListRequest hostnames])%list /\
     stackInfos w' = stackInfos w /\ volumes w' = volumes w /\
     match o with
     | Fulfilled projectsList =>
         (exists obj, parseProjectsList obj = Ok projectsList) /\
         projectsLists w' = (hostnames, projectsList) :: projectsLists w
     | Rejected _ => projectsLists w' = projectsLists w
     end).
Proof.
  unfold getProjectsList, getUncounted.
  destruct (lookup hostnames_eqb hostnames (projectsLists w)) as [v|] eqn:Hl.
  - left. eauto.
  - right. split; [reflexivity|].
    unfold then_, sendHttpRequest.
    destruct (respond _ _) as [obj|r]; cbn [settle].
    + destruct (parseProjectsList obj) as [v|e] eqn:Hp; cbn [settle resolve reject].
      * eexists _, _. split; [reflexivity|]. cbn. repeat split. eauto.
      * eexists _, _. split; [reflexivity|]. cbn. repeat split.
    + eexists _, _. split; [reflexivity|]. cbn. repeat split.
Qed.

Lemma getStackInfo_cases (hostname : string) (projectId stackId : number) (w : World) :
  (exists stackInfo,
     lookup StackInfoKey_eqb (hostname, projectId, stackId) (stackInfos w)
       = Some stackInfo /\
     getStackInfo hostname projectId stackId w = (Fulfilled stackInfo, w)) \/
  (lookup StackInfoKey_eqb (hostname, projectId, stackId) (stackInfos w) = None /\
   exists o w',
     getStackInfo hostname projectId stackId w = (o, w') /\
     requests w' =
       (requests w ++ [stackInfoRequest hostname projectId stackId])%list /\
     projectsLists w' = projectsLists w /\ volumes w' = volumes w /\
     match o with
     | Fulfilled stackInfo =>
         (exists obj, parseStackInfo obj = Ok stackInfo) /\
         stackInfos w' = ((hostname, projectId, stackId), stackInfo) :: stackInfos w
     | Rejected _ => stackInfos w' = stackInfos w
     end).
Proof.
  unfold getStackInfo, getUncounted.
  destruct (lookup StackInfoKey_eqb _ (stackInfos w)) as [v|] eqn:Hl.
  - left. eauto.
  - right. split; [reflexivity|].
    unfold then_, sendHttpRequest.
    destruct (respond _ _) as [obj|r]; cbn [settle].
    + destruct (parseStackInfo obj) as [v|e] eqn:Hp; cbn [settle resolve reject].
      * eexists _, _. split; [reflexivity|]. cbn. repeat split. eauto.
      * eexists _, _. split; [reflexivity|]. cbn. repeat split.
    + eexists _, _. split; [reflexivity|]. cbn. repeat split.
Qed.

End FetchCases.

(** ** The url of the completer *)

Section Delegation.

Context `{Env : Environment}.

(** X11.  On a url [scheme://host/rest], the host being non-empty and
    free of [/] and [?], [volumeCompleter] hands the host and the rest to
    [projectStackMirrorCompleter] and shifts the offset of its completions by
    the length of [scheme://host/]; a failure of that completer is passed on
    as it is.  When the rest holds a line terminator nothing is tried:
    the promise is rejected with [null] and the world is left as it was. *)
Theorem volumeCompleter_hands_over (scheme host rest : string) (w : World) :
  (scheme = "http" \/ scheme = "https") -> host <> "" ->
  Str.all RegExp.not_slash_question host = true ->
  let hostname := scheme ++ "://" ++ host in
  volumeCompleter (hostname ++ "/" ++ rest) w =
  if Str.all RegExp.dot rest then
    match projectStackMirrorCompleter [hostname] rest w with
    | (Fulfilled c, w') =>
        (Fulfilled {| offset := (offset c + (Str.len hostname + 1))%Z;
                      completions := completions c |}, w')
    | (Rejected r, w') => (Rejected r, w')
    end
  else (Rejected Null, w).
Proof.
  intros Hs Hne Hh hostname. unfold volumeCompleter.
  pose proof (HostPatterns.urlPattern_exec scheme host rest Hs Hne Hh) as Hexec.
  cbv zeta in Hexec. fold hostname in Hexec. rewrite Hexec.
  destruct (Str.all RegExp.dot rest); [|reflexivity].
  unfold then_, RegExp.group. cbn [RegExp.capture Nat.eqb].
  now destruct (projectStackMirrorCompleter [hostname] rest w) as [[c|r] w'].
Qed.

End Delegation.

(** On the sample server the url [http://example.org/1/2/] is completed at
    depth 3, and a url with a line feed is refused. *)
Lemma volumeCompleter_hands_over_witness :
  (exists c w',
     volumeCompleter (Env := Sample.environment) "http://example.org/1/2/" Sample.world0
       = (Fulfilled c, w') /\
     offset c = 23%Z /\ map value (completions c) = ["5"; "6"; "7"]) /\
  volumeCompleter (Env := Sample.environment)
    ("http://example.org/1/" ++ String RegExp.LF "2/") Sample.world0
  = (Rejected Null, Sample.world0).
Proof.
  pose proof (volumeCompleter_hands_over (Env := Sample.environment)
                "http" "example.org" "1/2/" Sample.world0
                (or_introl eq_refl) ltac:(discriminate) eq_refl) as Hcompleted.
  pose proof (volumeCompleter_hands_over (Env := Sample.environment)
                "http" "example.org" ("1/" ++ String RegExp.LF "2/") Sample.world0
                (or_introl eq_refl) ltac:(discriminate) eq_refl) as Hrefused.
  split.
  - eexists _, _. split; [exact Hcompleted|]. split; reflexivity.
  - exact Hrefused.
Defined.

(** ** Skeleton sources *)

Section SkeletonFacts.

Context `{Env : Environment}.

(** A callback that returns or throws settles the promise and leaves the
    world alone. *)
Lemma settle_pure {A} (r : result A) (w : World) :
  settle r w =
  (match r with Ok a => Fulfilled a | Throw e => Rejected (Exception e) end, w).
Proof. now destruct r. Qed.

Lemma getSkeletonSourceParameters_Ok (hostname project url : string)
    (rest : RegExp.captures) :
  RegExp.exec skeletonSourcePattern url =
    Some ((0%nat, url) :: (2%nat, project) :: (1%nat, hostname) :: rest) ->
  getSkeletonSourceParameters url = Ok (loadSkeletonParameters hostname project).
Proof. intros H. unfold getSkeletonSourceParameters. now rewrite H. Qed.

(** X12.  [getSkeletonSourceParameters] throws exactly on a url that is
    not [http(s)://host/project] or [http(s)://host/segment/project]; the one
    error it throws is the one of an invalid url: a url that matches always
    has a project, if only the empty one. *)
Theorem getSkeletonSourceParameters_throws_iff (url : string) :
  (getSkeletonSourceParameters url =
     Throw (Error ("Invalid Catmaid skeleton URL: " ++ url)) <-> ~ skeletonUrl url) /\
  (skeletonUrl url <-> exists p, getSkeletonSourceParameters url = Ok p) /\
  getSkeletonSourceParameters url <> Throw (Error "No Catmaid project specified.").
Proof.
  assert (Hcases :
            (skeletonUrl url /\ exists p, getSkeletonSourceParameters url = Ok p) \/
            (~ skeletonUrl url /\
             getSkeletonSourceParameters url =
               Throw (Error ("Invalid Catmaid skeleton URL: " ++ url)))).
  { unfold getSkeletonSourceParameters.
    destruct (RegExp.exec skeletonSourcePattern url) as [m|] eqn:Hm.
    - left. apply HostPatterns.skeletonSourcePattern_match in Hm as (Hu & H1 & H2).
      split; [exact Hu|].
      destruct (RegExp.capture 1 m); [|congruence].
      destruct (RegExp.capture 2 m); [|congruence]. eauto.
    - right. split; [|reflexivity].
      intros Hu. apply HostPatterns.skeletonSourcePattern_complete in Hu as [m Hm'].
      congruence. }
  split; [|split].
  - destruct Hcases as [[Hu [p Hp]]|[Hu Ht]]; rewrite ?Hp, ?Ht; split; auto;
      try discriminate. tauto.
  - destruct Hcases as [[Hu [p Hp]]|[Hu Ht]]; rewrite ?Hp, ?Ht; split; eauto.
    + tauto.
    + intros [p Hp]. discriminate.
  - destruct Hcases as [[Hu [p Hp]]|[Hu Ht]]; rewrite ?Hp, ?Ht; discriminate.
Qed.

(** A url with a segment between the host and the project. *)
Lemma getSkeletonSourceParameters_segment (scheme host segment project : string) :
  (scheme = "http" \/ scheme = "https") -> host <> "" ->
  Str.all RegExp.not_slash_question host = true ->
  segment <> "" -> Str.all RegExp.not_slash_question segment = true ->
  Str.all RegExp.dot project = true ->
  getSkeletonSourceParameters
    ((scheme ++ "://" ++ host) ++ "/" ++ segment ++ "/" ++ project) =
  Ok (loadSkeletonParameters (scheme ++ "://" ++ host) project).
Proof.
  intros Hs Hne Hh Hn Hseg Hp.
  apply (getSkeletonSourceParameters_Ok _ project _ []).
  pose proof (HostPatterns.hosted_exec (RegExp.Cat optionalSegment restOfLine)
                scheme host (segment ++ "/" ++ project) Hs Hne Hh) as Hexec.
  cbv zeta in Hexec. unfold skeletonSourcePattern. rewrite Hexec.
  rewrite HostPatterns.optionalSegment_taken by (auto; discriminate).
  unfold matched, RegExp.accept.
  replace (String.length (scheme ++ "://" ++ host) + 1 +
           String.length (segment ++ "/" ++ project))%nat
    with (String.length
            ((scheme ++ "://" ++ host) ++ "/" ++ segment ++ "/" ++ project))
    by (rewrite !length_append; simpl; lia).
  rewrite Nat.sub_0_r.
  pose proof (take_append
                ((scheme ++ "://" ++ host) ++ "/" ++ segment ++ "/" ++ project) "")
    as Ht.
  rewrite append_nil_r in Ht. now rewrite Ht.
Qed.

(** X13.  In [scheme://host/segment/project] the segment after the host
    is skipped: the server is [scheme://host] and the project is what
    follows the segment, slashes included.  A url [scheme://host/project]
    without a further slash names the project at once. *)
Theorem getSkeletonSourceParameters_skips_segment (scheme host : string) :
  (scheme = "http" \/ scheme = "https") -> host <> "" ->
  Str.all RegExp.not_slash_question host = true ->
  let hostname := scheme ++ "://" ++ host in
  (forall segment project,
     segment <> "" -> Str.all RegExp.not_slash_question segment = true ->
     Str.all RegExp.dot project = true ->
     getSkeletonSourceParameters (hostname ++ "/" ++ segment ++ "/" ++ project) =
     Ok (loadSkeletonParameters hostname project)) /\
  (forall project,
     Str.all RegExp.not_slash_question project = true ->
     Str.all RegExp.dot project = true ->
     getSkeletonSourceParameters (hostname ++ "/" ++ project) =
     Ok (loadSkeletonParameters hostname project)).
Proof.
  intros Hs Hne Hh hostname. split.
  - intros segment project Hn Hseg Hp.
    now apply getSkeletonSourceParameters_segment.
  - intros project Hseg Hp.
    apply (getSkeletonSourceParameters_Ok hostname project _ []).
    pose proof (HostPatterns.hosted_exec (RegExp.Cat optionalSegment restOfLine)
                  scheme host project Hs Hne Hh) as Hexec.
    cbv zeta in Hexec. fold hostname in Hexec. unfold skeletonSourcePattern.
    rewrite Hexec.
    rewrite HostPatterns.optionalSegment_left, Hp by assumption.
    unfold matched, RegExp.accept.
    replace (String.length hostname + 1 + String.length project)%nat
      with (String.length (hostname ++ "/" ++ project))
      by (rewrite !length_append; simpl; lia).
    rewrite Nat.sub_0_r.
    pose proof (take_append (hostname ++ "/" ++ project) "") as Ht.
    rewrite append_nil_r in Ht. now rewrite Ht.
Qed.

(** X14.  The promise of [getSkeletonSourceParameters] asks for the
    projects list of the host, at most once, and touches no other memo
    table.  It is fulfilled with the host as server url and the id of the
    project the list holds under the text of the url, and rejected with the
    error of a project that cannot be loaded when the list has no such key.
    When the list had to be fetched, the decimal text of the id is the text
    of the url. *)
Theorem loadSkeletonParameters_outcome (hostname project : string) (w : World) :
  exists o w',
    loadSkeletonParameters hostname project w = (o, w') /\
    (requests w' = requests w \/
     requests w' = (requests w ++ [projectsListRequest [hostname]])%list) /\
    stackInfos w' = stackInfos w /\ volumes w' = volumes w /\
    (forall projectsList,
       getProjectsList [hostname] w = (Fulfilled projectsList, w') ->
       match Map.get project projectsList with
       | Some projectInfo =>
           o = Fulfilled (SkeletonSourceParameters.make hostname
                            (ProjectInfo.id projectInfo))
       | None =>
           o = Rejected (Exception (Error ("Unable to load Catmaid project: " ++
                                           JSON_stringify project)))
       end) /\
    (forall r, getProjectsList [hostname] w = (Rejected r, w') -> o = Rejected r) /\
    (forall parameters,
       o = Fulfilled parameters ->
       SkeletonSourceParameters.catmaidServerUrl parameters = hostname /\
       (lookup hostnames_eqb [hostname] (projectsLists w) = None ->
        Str.ofZ (SkeletonSourceParameters.projectId parameters) = project /\
        requests w' = (requests w ++ [projectsListRequest [hostname]])%list)).
Proof.
  unfold loadSkeletonParameters, then_.
  destruct (getProjectsList_cases [hostname] w)
    as [(v & Hl & Hg)|(Hl & o & w' & Hg & Hr & Hs & Hv & Ho)]; rewrite Hg;
    [|destruct o as [v|r]]; rewrite ?settle_pure.
  - (* the list is in the memo table *)
    eexists _, _. split; [reflexivity|].
    split; [now left|]. split; [reflexivity|]. split; [reflexivity|].
    split; [|split].
    + intros projectsList [= <-].
      now destruct (Map.get project v).
    + discriminate.
    + intros parameters Hp. split; [|congruence].
      destruct (Map.get project v); [|discriminate].
      now injection Hp as <-.
  - (* the list is fetched *)
    destruct Ho as [[obj Hparse] Hstore].
    eexists _, _. split; [reflexivity|].
    split; [right; exact Hr|]. split; [exact Hs|]. split; [exact Hv|].
    split; [|split].
    + intros projectsList [= <-].
      now destruct (Map.get project v).
    + discriminate.
    + intros parameters Hp.
      destruct (Map.get project v) as [info|] eqn:Hget; [|discriminate].
      injection Hp as <-. split; [reflexivity|].
      intros _. split; [|exact Hr]. cbn.
      destruct (parseProjectsList_invariant _ _ Hparse) as (_ & Hk & _).
      symmetry. exact (proj1 (Map_get_keyed ProjectInfo.id _ _ _ Hk Hget)).
  - (* the fetch fails *)
    eexists _, _. split; [reflexivity|].
    split; [right; exact Hr|]. split; [exact Hs|]. split; [exact Hv|].
    split; [|split]; try discriminate.
    now intros r' [= <-].
Qed.

(** X15.  A skeleton url [scheme://host/segment/project] of a server
    whose projects list is not memoized and holds the project resolves, after
    the one request for the list, to a skeleton source for [scheme://host]
    and the id of the project; the list is memoized.  The vertex coordinates
    of the source are not in voxels. *)
Theorem getSkeletonSource_resolves (scheme host segment project : string)
    (obj : json) (projectsList : Map.t ProjectInfo.t) (projectInfo : ProjectInfo.t)
    (w : World) :
  (scheme = "http" \/ scheme = "https") -> host <> "" ->
  Str.all RegExp.not_slash_question host = true ->
  segment <> "" -> Str.all RegExp.not_slash_question segment = true ->
  Str.all RegExp.dot project = true ->
  let hostname := scheme ++ "://" ++ host in
  lookup hostnames_eqb [hostname] (projectsLists w) = None ->
  respond (List.length (requests w)) (projectsListRequest [hostname]) = Fulfilled obj ->
  parseProjectsList obj = Ok projectsList ->
  Map.get project projectsList = Some projectInfo ->
  exists p source,
    getSkeletonSource (hostname ++ "/" ++ segment ++ "/" ++ project) = Ok p /\
    p w =
      (Fulfilled source,
       {| projectsLists := ([hostname], projectsList) :: projectsLists w;
          stackInfos := stackInfos w;
          volumes := volumes w;
          requests := (requests w ++ [projectsListRequest [hostname]])%list |}) /\
    CatmaidSkeletonSource.parameters source =
      SkeletonSourceParameters.make hostname (ProjectInfo.id projectInfo) /\
    Str.ofZ (ProjectInfo.id projectInfo) = project /\
    CatmaidSkeletonSource.skeletonVertexCoordinatesInVoxels source = false.
Proof.
  intros Hs Hne Hh Hn Hseg Hp hostname Hl Hresp Hparse Hget. subst hostname.
  unfold getSkeletonSource.
  rewrite (getSkeletonSourceParameters_segment scheme host segment project
             Hs Hne Hh Hn Hseg Hp).
  cbn [bind]. eexists _, _. split; [reflexivity|].
  split; [|split; [|split]].
  - unfold then_, loadSkeletonParameters, then_, getProjectsList, getUncounted.
    rewrite Hl. unfold then_, sendHttpRequest. rewrite Hresp, Hparse.
    cbn [settle resolve]. rewrite Hget. cbn [settle resolve]. reflexivity.
  - reflexivity.
  - destruct (parseProjectsList_invariant _ _ Hparse) as (_ & Hk & _).
    symmetry. exact (proj1 (Map_get_keyed ProjectInfo.id _ _ _ Hk Hget)).
  - reflexivity.
Qed.

End SkeletonFacts.

(** The project 1 of the sample server, behind a path segment and without
    one. *)
Lemma getSkeletonSourceParameters_skips_segment_witness :
  getSkeletonSourceParameters (Env := Sample.environment) "http://example.org/catmaid/1"
    = Ok (loadSkeletonParameters (Env := Sample.environment) "http://example.org" "1") /\
  getSkeletonSourceParameters (Env := Sample.environment) "http://example.org/1"
    = Ok (loadSkeletonParameters (Env := Sample.environment) "http://example.org" "1").
Proof.
  destruct (getSkeletonSourceParameters_skips_segment (Env := Sample.environment)
              "http" "example.org" (or_introl eq_refl) ltac:(discriminate) eq_refl)
    as [Hsegment Hplain].
  split.
  - exact (Hsegment "catmaid" "1" ltac:(discriminate) eq_refl eq_refl).
  - exact (Hplain "1" eq_refl eq_refl).
Defined.

Lemma getSkeletonSource_resolves_witness :
  exists p source w',
    getSkeletonSource (Env := Sample.environment) "http://example.org/catmaid/1" = Ok p /\
    p Sample.world0 = (Fulfilled source, w') /\
    CatmaidSkeletonSource.parameters source =
      SkeletonSourceParameters.make "http://example.org" 1 /\
    requests w' = [projectsListRequest ["http://example.org"]].
Proof.
  destruct (getSkeletonSource_resolves (Env := Sample.environment)
              "http" "example.org" "catmaid" "1" Sample.projectsJson
              [("1", ProjectInfo.make 1 "Project one"
                       [("2", StackIdentifier.make 2 "Stack two" "raw");
                        ("30", StackIdentifier.make 30 "Stack thirty" "aligned")])]
              (ProjectInfo.make 1 "Project one"
                 [("2", StackIdentifier.make 2 "Stack two" "raw");
                  ("30", StackIdentifier.make 30 "Stack thirty" "aligned")])
              Sample.world0
              (or_introl eq_refl) ltac:(discriminate) eq_refl
              ltac:(discriminate) eq_refl eq_refl eq_refl eq_refl eq_refl eq_refl)
    as (p & source & Hp & Hrun & Hparams & _ & _).
  exists p, source. eexists. split; [exact Hp|]. split; [exact Hrun|].
  split; [exact Hparams | reflexivity].
Defined.

(** ** What the completer requests *)

Section RequestFacts.

Context `{Env : Environment}.

(** An interpretation issues its request or, with the answer in the memo
    table, none; it never touches the volumes. *)
Lemma interpretation_requests (hostnames : list string) (path : string)
    (depth : nat) (w : World) :
  let w' := snd (interpretation hostnames path depth w) in
  (requests w' = requests w \/
   requests w' = (requests w ++ [interpretationRequest hostnames path depth])%list) /\
  volumes w' = volumes w.
Proof.
  unfold interpretation, interpretationRequest, then_.
  destruct depth as [|[|[|depth]]].
  - destruct (getStackInfo_cases
                (joinUrl hostnames
                   (firstn (List.length (Str.split "/" path) - 0) (Str.split "/" path)))
                (Number (nth (List.length (Str.split "/" path) - 3) (Str.split "/" path) ""))
                (Number (nth (List.length (Str.split "/" path) - 2) (Str.split "/" path) ""))
                w)
      as [(v & _ & ->)|(_ & o & w' & -> & Hr & _ & Hv & _)]; [now split; [left|]|].
    destruct o; cbn; auto.
  - destruct (getProjectsList_cases
                [joinUrl hostnames
                   (firstn (List.length (Str.split "/" path) - 1) (Str.split "/" path))]
                w)
      as [(v & _ & ->)|(_ & o & w' & -> & Hr & _ & Hv & _)]; [now split; [left|]|].
    destruct o; cbn; auto.
  - destruct (getProjectsList_cases
                [joinUrl hostnames
                   (firstn (List.length (Str.split "/" path) - 2) (Str.split "/" path))]
                w)
      as [(v & _ & ->)|(_ & o & w' & -> & Hr & _ & Hv & _)];
      rewrite ?settle_pure; [now split; [left|]|].
    destruct o; rewrite ?settle_pure; cbn; auto.
  - destruct (getStackInfo_cases
                (joinUrl hostnames
                   (firstn (List.length (Str.split "/" path) - S (S (S depth)))
                      (Str.split "/" path)))
                (Number (nth (List.length (Str.split "/" path) - 3) (Str.split "/" path) ""))
                (Number (nth (List.length (Str.split "/" path) - 2) (Str.split "/" path) ""))
                w)
      as [(v & _ & ->)|(_ & o & w' & -> & Hr & _ & Hv & _)]; [now split; [left|]|].
    destruct o; cbn; auto.
Qed.

Lemma subsequence_refl_nil {A} (l : list A) : subsequence [] l.
Proof. induction l; constructor; assumption. Qed.

Lemma subsequence_length {A} (l l' : list A) :
  subsequence l l' -> (List.length l <= List.length l')%nat.
Proof. induction 1; simpl; lia. Qed.

(** One step of the cascade: the request of the step, or none. *)
Lemma subsequence_step {A} (a : A) (issued issued' l : list A) :
  issued = [] \/ issued = [a] -> subsequence issued' l ->
  subsequence (issued ++ issued')%list (a :: l).
Proof. intros [-> | ->] H; simpl; now constructor. Qed.

(** X16.  The completer issues at most one request for each
    interpretation of the path that applies, in the order project, stack,
    mirror: never more than three, never more than the path has segments,
    and the stack info only for a path of three segments or more.  It never
    touches the memoized volumes. *)
Theorem projectStackMirrorCompleter_requests (hostnames : list string)
    (path : string) (w : World) :
  let w' := snd (projectStackMirrorCompleter hostnames path w) in
  exists issued,
    requests w' = (requests w ++ issued)%list /\
    subsequence issued (completerRequests hostnames path) /\
    (List.length issued <= Nat.min (List.length (Str.split "/" path)) 3)%nat /\
    volumes w' = volumes w.
Proof.
  intros w'.
  assert (H : exists issued,
            requests w' = (requests w ++ issued)%list /\
            subsequence issued (completerRequests hostnames path) /\
            volumes w' = volumes w).
  { subst w'. rewrite (completer_unfold hostnames path w). cbv zeta.
    unfold completerRequests.
    pose proof (split_nonempty "/" path) as Hne.
    set (n := List.length (Str.split "/" path)).
    assert (Hn : (1 <= n)%nat)
      by (subst n; destruct (Str.split "/" path); [congruence | simpl; lia]).
    assert (Hstep : forall depth v v',
              v' = snd (interpretation hostnames path depth v) ->
              exists i, requests v' = (requests v ++ i)%list /\
                        (i = [] \/ i = [interpretationRequest hostnames path depth]) /\
                        volumes v' = volumes v).
    { intros depth v v' ->.
      destruct (interpretation_requests hostnames path depth v) as [[Hr|Hr] Hv];
        [exists [] | eexists]; (split; [|split; [|exact Hv]]); eauto.
      now rewrite app_nil_r. }
    match goal with
    | |- context [ snd ?r ] => destruct r as [o wf] eqn:E
    end.
    cbn [snd]. unfold catch_ at 1 in E.
    destruct (interpretation hostnames path 1 w) as [[c1|e1] w1] eqn:E1;
      destruct (Hstep 1%nat w w1) as (i1 & Hw1 & Hi1 & Hv1);
      try (now rewrite E1).
    { injection E as <- <-. exists i1. split; [exact Hw1|]. split; [|exact Hv1].
      destruct (Nat.min n 3) as [|m] eqn:Hm; [lia|]. cbn [seq map].
      rewrite <- (app_nil_r i1). apply subsequence_step; [exact Hi1|].
      apply subsequence_refl_nil. }
    destruct (Nat.leb_spec 2 n) as [H2|H2].
    2:{ injection E as <- <-. exists i1. split; [exact Hw1|]. split; [|exact Hv1].
        replace (Nat.min n 3) with 1%nat by lia. cbn [seq map].
        rewrite <- (app_nil_r i1). apply subsequence_step; [exact Hi1 | constructor]. }
    unfold catch_ at 1 in E.
    destruct (interpretation hostnames path 2 w1) as [[c2|e2] w2] eqn:E2;
      destruct (Hstep 2%nat w1 w2) as (i2 & Hw2 & Hi2 & Hv2);
      try (now rewrite E2).
    { injection E as <- <-. exists (i1 ++ i2)%list.
      split; [rewrite Hw2, Hw1; now rewrite app_assoc|]. split; [|congruence].
      destruct (Nat.min n 3) as [|[|m]] eqn:Hm; try lia. cbn [seq map].
      apply subsequence_step; [exact Hi1|].
      rewrite <- (app_nil_r i2). apply subsequence_step; [exact Hi2|].
      apply subsequence_refl_nil. }
    destruct (Nat.leb_spec 3 n) as [H3|H3].
    2:{ injection E as <- <-. exists (i1 ++ i2)%list.
        split; [rewrite Hw2, Hw1; now rewrite app_assoc|]. split; [|congruence].
        replace (Nat.min n 3) with 2%nat by lia. cbn [seq map].
        apply subsequence_step; [exact Hi1|].
        rewrite <- (app_nil_r i2). apply subsequence_step; [exact Hi2 | constructor]. }
    destruct (Hstep 3%nat w2 wf) as (i3 & Hw3 & Hi3 & Hv3); [now rewrite E|].
    exists (i1 ++ i2 ++ i3)%list.
    split; [rewrite Hw3, Hw2, Hw1; now rewrite !app_assoc|]. split; [|congruence].
    replace (Nat.min n 3) with 3%nat by lia. cbn [seq map].
    apply subsequence_step; [exact Hi1|].
    apply subsequence_step; [exact Hi2|].
    rewrite <- (app_nil_r i3). apply subsequence_step; [exact Hi3 | constructor]. }
  destruct H as (issued & Hreq & Hsub & Hvol). exists issued.
  repeat split; try assumption.
  apply subsequence_length in Hsub. unfold completerRequests in Hsub.
  now rewrite length_map, length_seq in Hsub.
Qed.

End RequestFacts.

(** ** Segments and addresses *)

(** Joining the segments of a path with slashes gives the path back. *)
Lemma join_split (s : string) : Str.join "/" (Str.split "/" s) = s.
Proof.
  unfold Str.join. induction s as [|c s IH]; [reflexivity|].
  cbn [Str.split]. pose proof (split_nonempty "/" s) as Hne.
  destruct (Ascii.eqb_spec c "/") as [->|Hc].
  - destruct (Str.split "/" s) as [|seg rest]; [congruence|].
    cbn [String.concat] in *. now rewrite IH.
  - destruct (Str.split "/" s) as [|seg rest]; [congruence|].
    destruct rest; cbn [String.concat] in *; now rewrite <- IH.
Qed.

Lemma join_app (l1 l2 : list string) :
  l1 <> [] -> l2 <> [] ->
  Str.join "/" (l1 ++ l2)%list = Str.join "/" l1 ++ "/" ++ Str.join "/" l2.
Proof.
  unfold Str.join. intros H1 H2.
  induction l1 as [|a l1 IH]; [congruence|].
  destruct l1 as [|b l1].
  - destruct l2; [congruence | reflexivity].
  - change (String.concat "/" ((a :: b :: l1) ++ l2)%list)
      with (a ++ "/" ++ String.concat "/" ((b :: l1) ++ l2)%list).
    rewrite IH by discriminate.
    change (String.concat "/" (a :: b :: l1))
      with (a ++ "/" ++ String.concat "/" (b :: l1)).
    now rewrite !append_assoc.
Qed.

(** The segments of a path have no slash. *)
Lemma split_not_slash (s : string) :
  Forall (fun segment => Str.all not_slash segment = true) (Str.split "/" s).
Proof.
  induction s as [|c s IH]; [repeat constructor|].
  cbn [Str.split].
  destruct (Ascii.eqb_spec c "/") as [->|Hc].
  - constructor; [reflexivity | exact IH].
  - assert (Hn : not_slash c = true)
      by (unfold not_slash; now destruct (Ascii.eqb_spec c "/")).
    destruct (Str.split "/" s) as [|seg rest].
    + repeat constructor. simpl. now rewrite Hn.
    + inversion IH; subst. constructor; [|assumption].
      simpl. rewrite Hn. assumption.
Qed.

(** A path is what stands before its last segment, and that segment. *)
Lemma path_last_segment (path : string) :
  exists before,
    path = before ++ completingSegment path /\
    Str.all not_slash (completingSegment path) = true.
Proof.
  unfold completingSegment.
  pose proof (split_not_slash path) as Hall.
  pose proof (join_split path) as Hjoin.
  pose proof (split_nonempty "/" path) as Hne.
  destruct (exists_last Hne) as (l & x & Hsplit). rewrite Hsplit in *.
  rewrite last_last.
  apply Forall_app in Hall as [_ Hx]. inversion Hx as [|? ? Hseg _].
  destruct l as [|y l].
  - exists "". split; [now rewrite <- Hjoin | assumption].
  - exists (Str.join "/" (y :: l) ++ "/"). split; [|assumption].
    rewrite <- Hjoin at 1. rewrite join_app by discriminate.
    now rewrite append_assoc.
Qed.

Section SegmentFacts.

Context `{Env : Environment}.

(** X17.  The completions of [projectStackMirrorCompleter] replace the
    last segment of the path: the path is its first [offset] characters
    followed by the segment that is completed, and that segment has no
    slash. *)
Theorem completions_replace_last_segment (hostnames : list string) (path : string)
    (w w' : World) (c : CompletionResult) :
  projectStackMirrorCompleter hostnames path w = (Fulfilled c, w') ->
  (0 <= offset c)%Z /\
  path = Str.take (Z.to_nat (offset c)) path ++ completingSegment path /\
  Str.all not_slash (completingSegment path) = true.
Proof.
  intros H. apply projectStackMirrorCompleter_offset in H.
  destruct (path_last_segment path) as (before & Hpath & Hseg).
  assert (Hoff : offset c = Z.of_nat (String.length before)).
  { rewrite H. unfold Str.len. rewrite Hpath at 1. rewrite length_append. lia. }
  rewrite Hoff, Nat2Z.id. split; [lia|]. split; [|exact Hseg].
  rewrite Hpath at 2. now rewrite take_append.
Qed.

(** X18.  The host an interpretation asks is the address that was typed
    without its last segments: at depth 1, 2 or 3, the host followed by a
    slash and the last 1, 2 or 3 segments is the first host name followed by
    a slash and the path. *)
Theorem interpretation_host_is_prefix (hostnames : list string) (path : string)
    (depth : nat) :
  let segments := Str.split "/" path in
  let n := List.length segments in
  (1 <= depth <= n)%nat ->
  exists host,
    hosts (interpretationRequest hostnames path depth) = [host] /\
    host = joinUrl hostnames (firstn (n - depth) segments) /\
    host ++ "/" ++ Str.join "/" (skipn (n - depth) segments) =
    nth 0 hostnames "" ++ "/" ++ path.
Proof.
  intros segments n Hd. eexists. split; [|split; [reflexivity|]].
  - unfold interpretationRequest. destruct depth as [|[|[|depth]]]; reflexivity.
  - unfold joinUrl.
    rewrite <- (join_split path) at 1. fold segments.
    rewrite <- (firstn_skipn (n - depth) segments) at 3.
    assert (Hskip : skipn (n - depth) segments <> []).
    { intros Hnil. apply (f_equal (@List.length string)) in Hnil.
      rewrite length_skipn in Hnil. simpl in Hnil. subst n. lia. }
    change (nth 0 hostnames "" :: firstn (n - depth) segments)
      with ([nth 0 hostnames ""] ++ firstn (n - depth) segments)%list.
    destruct (firstn (n - depth) segments) as [|a l] eqn:Hf.
    + reflexivity.
    + rewrite !join_app by (try discriminate; assumption).
      now rewrite !append_assoc.
Qed.

End SegmentFacts.

(** On the sample server the completions of [1/2/] start after the last
    slash, and the stack info is asked of [http://example.org/catmaid] for
    the path [catmaid/1/2/]. *)
Lemma completions_replace_last_segment_witness :
  "1/2/" = Str.take 4 "1/2/" ++ completingSegment "1/2/".
Proof.
  pose (r := projectStackMirrorCompleter (Env := Sample.environment)
               ["http://example.org"] "1/2/" Sample.world0).
  assert (H : r = (Fulfilled
                     {| offset := 4;
                        completions :=
                          [{| value := "5"; description := "first" |};
                           {| value := "6"; description := "second" |};
                           {| value := "7"; description := "third" |}] |},
                   snd r))
    by (vm_compute; reflexivity).
  exact (proj1 (proj2 (completions_replace_last_segment (Env := Sample.environment)
                         ["http://example.org"] "1/2/" Sample.world0 _ _ H))).
Defined.

Lemma interpretation_host_is_prefix_witness :
  hosts (interpretationRequest (Env := Sample.environment)
           ["http://example.org"] "catmaid/1/2/" 3) = ["http://example.org/catmaid"].
Proof.
  destruct (interpretation_host_is_prefix (Env := Sample.environment)
              ["http://example.org"] "catmaid/1/2/" 3 ltac:(simpl; lia))
    as (host & Hhosts & -> & _).
  exact Hhosts.
Defined.

(** ** From a completion to the volume *)

Lemma split_segment (segment s : string) :
  Str.all not_slash segment = true ->
  Str.split "/" (segment ++ "/" ++ s) = segment :: Str.split "/" s.
Proof.
  induction segment as [|c segment IH]; intros H; [reflexivity|].
  simpl in H. apply andb_prop in H as [Hc H].
  change ((String c segment) ++ "/" ++ s) with (String c (segment ++ "/" ++ s)).
  cbn [Str.split]. rewrite (IH H).
  unfold not_slash in Hc. now destruct (Ascii.eqb c "/").
Qed.

Lemma split_one_segment (segment : string) :
  Str.all not_slash segment = true -> Str.split "/" segment = [segment].
Proof.
  induction segment as [|c segment IH]; intros H; [reflexivity|].
  simpl in H. apply andb_prop in H as [Hc H].
  cbn [Str.split]. rewrite (IH H).
  unfold not_slash in Hc. now destruct (Ascii.eqb c "/").
Qed.

Section CompletedVolume.

Context `{Env : Environment}.

Lemma getStackInfo_memoized (hostname : string) (projectId stackId : number)
    (stackInfo : StackInfo.t) (w : World) :
  lookup StackInfoKey_eqb (hostname, projectId, stackId) (stackInfos w)
    = Some stackInfo ->
  getStackInfo hostname projectId stackId w = (Fulfilled stackInfo, w).
Proof. intros H. unfold getStackInfo, getUncounted. now rewrite H. Qed.

(** X19.  When the mirrors of [scheme://host/project/stack/] have been
    offered, the stack info is memoized, and the volume of any mirror of
    that stack is resolved by [getVolume] without a further request; unless
    the volume itself is memoized, it is built from the stack info whose
    mirrors were offered. *)
Theorem completed_volume_needs_no_request
    (scheme host project stack partial mirror : string) (w w' : World)
    (c : CompletionResult) :
  (scheme = "http" \/ scheme = "https") -> host <> "" ->
  Str.all RegExp.not_slash_question host = true ->
  Str.all RegExp.dot project = true -> Str.all not_slash project = true ->
  Str.all RegExp.dot stack = true -> Str.all not_slash stack = true ->
  Str.all RegExp.dot mirror = true -> Str.all not_slash mirror = true ->
  Str.all not_slash partial = true ->
  let hostname := scheme ++ "://" ++ host in
  let path := hostname ++ "/" ++ project ++ "/" ++ stack ++ "/" ++ mirror in
  interpretation [hostname] (project ++ "/" ++ stack ++ "/" ++ partial) 3 w
    = (Fulfilled c, w') ->
  exists stackInfo,
    lookup StackInfoKey_eqb (hostname, Number project, Number stack) (stackInfos w')
      = Some stackInfo /\
    completions c =
      getPrefixMatchesWithDescriptions _ partial
        (mirrorCandidates (StackInfo.mirrors stackInfo))
        (fun x => Str.ofZ (StackMirror.id x)) (fun x => StackMirror.title x) /\
    exists p source w'',
      getVolume path = Ok p /\
      p w' = (Fulfilled source, w'') /\
      requests w'' = requests w' /\
      (lookup VolumeKey_eqb (hostname, path) (volumes w') = None ->
       source = MultiscaleTileSource.make hostname stackInfo mirror JPEG).
Proof.
  intros Hs Hne Hh Hdp Hnp Hds Hns Hdm Hnm Hnq hostname path Hint.
  assert (Hsplit : Str.split "/" (project ++ "/" ++ stack ++ "/" ++ partial)
                   = [project; stack; partial]).
  { now rewrite (split_segment project _ Hnp), (split_segment stack _ Hns),
      (split_one_segment partial Hnq). }
  unfold interpretation in Hint. rewrite Hsplit in Hint.
  cbn [List.length Nat.sub firstn nth joinUrl Str.join String.concat] in Hint.
  unfold then_ in Hint.
  assert (Hmemo : exists stackInfo,
            lookup StackInfoKey_eqb (hostname, Number project, Number stack)
              (stackInfos w') = Some stackInfo /\
            c = autoCompleteMirror partial
                  (Str.len (project ++ "/" ++ stack ++ "/" ++ partial) - Str.len partial)
                  (StackInfo.mirrors stackInfo)).
  { destruct (getStackInfo_cases hostname (Number project) (Number stack) w)
      as [(v & Hl & Hg)|(Hl & o & w1 & Hg & _ & _ & _ & Ho)]; rewrite Hg in Hint.
    - injection Hint as <- <-. eauto.
    - destruct o as [v|r]; [|discriminate]. injection Hint as <- <-.
      destruct Ho as [_ ->]. exists v. split; [|reflexivity].
      cbn [lookup]. now rewrite StackInfoKey_eqb_refl. }
  destruct Hmemo as (stackInfo & Hl & ->). exists stackInfo.
  split; [exact Hl|]. split; [reflexivity|].
  assert (Hq : Str.all RegExp.not_question host = true).
  { apply (all_weaken RegExp.not_slash_question); [|exact Hh].
    intros a. unfold RegExp.not_slash_question, RegExp.not_question.
    destruct (Ascii.eqb a RegExp.slash), (Ascii.eqb a RegExp.question);
      simpl; congruence. }
  destruct (GreedyFacts.urlPatternComplete_groups
              scheme host project stack mirror Hs Hne Hq Hdp Hds Hdm Hnp Hns Hnm)
    as (m & Hm & Hg1 & Hg2 & Hg3 & Hg4).
  assert (Hpath : path =
                  scheme ++ "://" ++ host ++ "/" ++ project ++ "/" ++ stack ++ "/" ++ mirror)
    by (subst path hostname; now rewrite !append_assoc).
  rewrite <- Hpath in Hm.
  unfold getVolume. rewrite Hm, Hg1, Hg2, Hg3, Hg4. fold hostname.
  unfold getUncounted.
  destruct (lookup VolumeKey_eqb (hostname, path) (volumes w')) as [cached|] eqn:Hv.
  - eexists _, cached, w'. split; [reflexivity|]. cbv beta. rewrite Hv.
    split; [reflexivity|]. split; [reflexivity | discriminate].
  - eexists _, _, _. split; [reflexivity|]. cbv beta. rewrite Hv. unfold then_.
    rewrite (getStackInfo_memoized _ _ _ _ _ Hl). cbn [MultiscaleTileSource.new settle resolve].
    split; [reflexivity|]. split; reflexivity.
Qed.

End CompletedVolume.

(** After the mirrors of stack 2 of project 1 were offered on the sample
    server, the volume of mirror 5 is resolved without a request. *)
Lemma completed_volume_needs_no_request_witness :
  let w' :=
    snd (interpretation (Env := Sample.environment) ["http://example.org"] "1/2/" 3
           Sample.world0) in
  exists p source w'',
    getVolume (Env := Sample.environment) "http://example.org/1/2/5" = Ok p /\
    p w' = (Fulfilled source, w'') /\
    requests w'' = requests w' /\
    MultiscaleTileSource.mirrorId source = "5".
Proof.
  intros w'.
  assert (H : interpretation (Env := Sample.environment) ["http://example.org"]
                "1/2/" 3 Sample.world0 =
              (Fulfilled
                 {| offset := 4;
                    completions :=
                      [{| value := "5"; description := "first" |};
                       {| value := "6"; description := "second" |};
                       {| value := "7"; description := "third" |}] |}, w'))
    by (vm_compute; reflexivity).
  destruct (completed_volume_needs_no_request (Env := Sample.environment)
              "http" "example.org" "1" "2" "" "5" Sample.world0 w' _
              (or_introl eq_refl) ltac:(discriminate)
              eq_refl eq_refl eq_refl eq_refl eq_refl eq_refl eq_refl eq_refl H)
    as (stackInfo & _ & _ & p & source & w'' & Hp & Hrun & Hreq & Hsource).
  exists p, source, w''. split; [exact Hp|]. split; [exact Hrun|].
  split; [exact Hreq|]. now rewrite Hsource.
Defined.
